(** * The word registry, the visual encoder and the prediction walk of
      [src/EnhancedLightBasedNeuralProcessor.jsx]

    The component keeps one piece of model state, the React state [words]:
    an array of [WordData] objects.  [addWords] rebuilds a [Map] over that
    array, mutates the objects it finds IN PLACE, appends new objects, sorts
    and re-encodes; [processInput] ingests its phrase through [addWords] and
    then walks the array captured by its closure.

    Modelling decisions, all taken from the source:
    - objects live in a heap ([list WordData], a reference is an index) and
      arrays and maps hold references, because [addWords] mutates objects
      that the previous [words] array still points to;
    - a JS [Map] is an association list in insertion order ([JsMap]);
    - integer-valued JS numbers (frequencies, counts, indices) are [Z];
      the fractional ones (hue, saturation, texture channels) are rationals
      [Q].  A store into a [Float32Array] rounds to the nearest binary32
      number ([binary32]) and the division of [updateWordData] to the
      nearest binary64 number ([binary64]), ties to even.  The arithmetic
      on colours in [addWords] is exact, and the numbers of the entropy
      tape are taken as they are;
    - [Math.random()] reads an entropy tape [Math_random : nat -> Q] at a
      cursor kept in the state;
    - a React state updater is applied exactly once, as in a production
      build (under the [React.StrictMode] of [main.jsx] a development build
      runs every updater twice). *)

From Stdlib Require Import ZArith QArith Qround Qabs Qpower Lia Lqa.
From Stdlib Require Import Ascii.
From stdpp Require Import base list sorting strings pretty.

Local Open Scope Z_scope.

(** ** JS [Map] with string keys: insertion-ordered, [set] on a present key
       replaces the value where it stands *)

Module JsMap.
Section ops.
Context {V : Type}.

Fixpoint get (key : string) (m : list (string * V)) : option V :=
  match m with
  | [] => None
  | (k, v) :: m' => if String.eqb k key then Some v else get key m'
  end.

Definition has (key : string) (m : list (string * V)) : bool :=
  match get key m with Some _ => true | None => false end.

Fixpoint set (key : string) (v : V) (m : list (string * V)) : list (string * V) :=
  match m with
  | [] => [(key, v)]
  | (k, v') :: m' =>
      if String.eqb k key then (k, v) :: m' else (k, v') :: set key v m'
  end.

Definition size (m : list (string * V)) : Z := Z.of_nat (length m).

Definition keys (m : list (string * V)) : list string := m.*1.
Definition values (m : list (string * V)) : list V := m.*2.
Definition entries (m : list (string * V)) : list (string * V) := m.

(** [new Map(iterable)] *)
Definition new (es : list (string * V)) : list (string * V) :=
  foldl (fun m e => set e.1 e.2 m) [] es.
End ops.
End JsMap.

(** ** [Array.prototype.sort(compareFn)]: stable (ECMAScript 2019);
       [compareFn a b > 0] puts [a] after [b].  The model is the stable
       insertion sort; for a comparator that orders by a key every stable
       sort returns the same array. *)

Section Array_sort.
Context {A : Type} (compareFn : A -> A -> Z).

Fixpoint sort_insert (x : A) (l : list A) : list A :=
  match l with
  | [] => [x]
  | y :: l' => if compareFn x y <=? 0 then x :: y :: l' else y :: sort_insert x l'
  end.

Definition Array_sort (l : list A) : list A := foldr sort_insert [] l.
End Array_sort.

(** ** Data model *)

Definition TEXTURE_SIZE : Z := 4096.
Definition MAX_WORDS : Z := 100000.

(** [interface WordData] *)
Record WordData := mkWordData {
  word : string;
  frequency : Z;
  hue : Q;
  saturation : Q;
  nextWords : list (string * Z)
}.

Abbreviation ref := nat (only parsing).
Abbreviation Heap := (list WordData) (only parsing).

Definition null_object : WordData :=
  {| word := EmptyString; frequency := 0; hue := 0%Q; saturation := 0%Q; nextWords := [] |}.

(** Field access through a reference.  References never dangle in JS;
    [null_object] only makes [load] total. *)
Definition load (h : Heap) (r : ref) : WordData := default null_object (h !! r).

(** ** Binary floating point

    [round_binary prec emin q] is the number [m * 2 ^ e], with [m] an
    integer of at most [prec] bits and [e >= emin], that is nearest to [q],
    ties going to the even [m] (IEEE 754 roundTiesToEven, subnormal numbers
    included).  The format's largest finite number is not modelled: beyond
    it JS yields [Infinity], which [Q] does not hold.  The component stores
    frequency ratios, colours and [Math.random()] draws, all within [0, 1]. *)

(** The integer [k] with [2 ^ k <= a < 2 ^ (k + 1)], for [a > 0]. *)
Definition ilog2 (a : Q) : Z :=
  if Qle_bool 1 a then Z.log2 (Qfloor a) else - Z.log2_up (Qceiling (/ a)).

(** The nearest integer, ties to even. *)
Definition round_half_even (x : Q) : Z :=
  let f := Qfloor x in
  match (x - inject_Z f ?= 1 # 2)%Q with
  | Lt => f
  | Gt => f + 1
  | Eq => if Z.even f then f else f + 1
  end.

(** Argument and result are kept in lowest terms, so that equal numbers are
    equal terms. *)
Definition round_binary (prec emin : Z) (q : Q) : Q :=
  let q := Qred q in
  let a := Qabs q in
  if Qeq_bool a 0 then 0%Q
  else
    let e := Z.max (ilog2 a - (prec - 1)) emin in
    let m := round_half_even (a / 2 ^ e) in
    Qred ((if Qle_bool 0 q then 1 else -1) * inject_Z m * 2 ^ e).

(** What a [Float32Array] element holds after a store of [q]. *)
Definition binary32 (q : Q) : Q := round_binary 24 (-149) q.

(** The JS Number nearest to [q]. *)
Definition binary64 (q : Q) : Q := round_binary 53 (-1074) q.

(** [new Float32Array(n)] and indexed stores; a store out of range is
    ignored, a store in range rounds to binary32. *)
Record Float32Array := mkFloat32Array {
  f32_length : Z;
  f32_at : Z -> Q
}.

Definition Float32Array_new (n : Z) : Float32Array :=
  {| f32_length := n; f32_at := fun _ => 0%Q |}.

Definition f32_set (a : Float32Array) (i : Z) (v : Q) : Float32Array :=
  if (0 <=? i) && (i <? f32_length a)
  then {| f32_length := f32_length a;
          f32_at := fun j => if j =? i then binary32 v else f32_at a j |}
  else a.

(** [Math.max(...xs)]; [None] stands for [-Infinity]. *)
Definition Math_max (xs : list Z) : option Z :=
  foldr (fun x acc => Some (match acc with Some m => Z.max x m | None => x end)) None xs.

(** The component's state: the heap of [WordData] objects, the React state
    [words], the cursor of the entropy tape and the content of the texture
    behind [wordDataTextureRef] ([None] while [glRef.current] or the texture
    is missing). *)
Record State := mkState {
  heap : Heap;
  words : list ref;
  draws : nat;
  texture : option Float32Array
}.

(** State of the loop of [addWords]: heap, [wordMap] and the tape cursor. *)
Record LoopState := mkLoopState {
  l_heap : Heap;
  wordMap : list (string * ref);
  l_draws : nat
}.

Section Processor.
Variable Math_random : nat -> Q.

(** *** Mounting effect (lines 139-207): creates the texture and fills it *)

Fixpoint init_loop (fuel : nat) (i : Z) (d : nat) (wordData : Float32Array)
  : Float32Array * nat :=
  match fuel with
  | O => (wordData, d)
  | S fuel' =>
      if i <? f32_length wordData then
        let wordData := f32_set wordData i (Math_random d) in
        let wordData := f32_set wordData (i + 1) (Math_random (S d)) in
        let wordData := f32_set wordData (i + 2) (Math_random (S (S d))) in
        let wordData := f32_set wordData (i + 3) 1%Q in
        init_loop fuel' (i + 4) (3 + d)%nat wordData
      else (wordData, d)
  end.

(** Lines 169-175: the buffer the effect uploads, and the cursor after it. *)
Definition initial_wordData (d : nat) : Float32Array * nat :=
  let wordData := Float32Array_new (TEXTURE_SIZE * TEXTURE_SIZE * 4) in
  init_loop (Z.to_nat (f32_length wordData)) 0 d wordData.

Definition mount (webgl : bool) (st : State) : State :=
  if webgl then
    let filled := initial_wordData (draws st) in
    (* texImage2D with the whole buffer *)
    {| heap := heap st; words := words st;
       draws := filled.2; texture := Some filled.1 |}
  else st.

(** *** [updateWordData] (lines 232-246) *)

Fixpoint forEach_word (h : Heap) (newWords rest : list ref) (index : Z)
    (wordData : Float32Array) : Float32Array :=
  match rest with
  | [] => wordData
  | r :: rest' =>
      let word := load h r in
      let i := index * 4 in
      let wordData :=
        f32_set wordData i
          (match Math_max ((fun w => frequency (load h w)) <$> newWords) with
           | Some m => binary64 (inject_Z (frequency word) / inject_Z m)
           | None => 0
           end)%Q in
      let wordData := f32_set wordData (i + 1) (hue word) in
      let wordData := f32_set wordData (i + 2) (saturation word) in
      let wordData := f32_set wordData (i + 3) 1%Q in
      forEach_word h newWords rest' (index + 1) wordData
  end.

Definition updateWordData (h : Heap) (newWords : list ref)
    (tex : option Float32Array) : option Float32Array :=
  match tex with
  | Some _ =>
      let wordData := Float32Array_new (TEXTURE_SIZE * TEXTURE_SIZE * 4) in
      (* texSubImage2D over the whole TEXTURE_SIZE x TEXTURE_SIZE area *)
      Some (forEach_word h newWords newWords 0 wordData)
  | None => tex
  end.

(** *** [addWords] (lines 248-273) *)

(** [word.frequency += 1; word.nextWords.set(nextWord, (get || 0) + 1)] *)
Definition record_next (nextWord : string) (w : WordData) : WordData :=
  {| word := word w;
     frequency := frequency w + 1;
     hue := hue w;
     saturation := saturation w;
     nextWords :=
       JsMap.set nextWord (default 0 (JsMap.get nextWord (nextWords w)) + 1)
         (nextWords w) |}.

Definition addWords_body (currentWord nextWord : string) (s : LoopState) : LoopState :=
  if JsMap.has currentWord (wordMap s) then
    match JsMap.get currentWord (wordMap s) with
    | Some r =>
        {| l_heap := alter (record_next nextWord) r (l_heap s);
           wordMap := wordMap s;
           l_draws := l_draws s |}
    | None => s
    end
  else if JsMap.size (wordMap s) <? MAX_WORDS then
    let w := {| word := currentWord;
                frequency := 1;
                hue := Math_random (l_draws s);
                saturation := (0.5 + Math_random (S (l_draws s)) * 0.5)%Q;
                nextWords := JsMap.new [(nextWord, 1)] |} in
    {| l_heap := l_heap s ++ [w];
       wordMap := JsMap.set currentWord (length (l_heap s)) (wordMap s);
       l_draws := (2 + l_draws s)%nat |}
  else s.

Fixpoint addWords_loop (fuel : nat) (newWords : list string) (i : Z)
    (s : LoopState) : LoopState :=
  match fuel with
  | O => s
  | S fuel' =>
      if i <? Z.of_nat (length newWords) - 1 then
        match newWords !! Z.to_nat i, newWords !! Z.to_nat (i + 1) with
        | Some currentWord, Some nextWord =>
            addWords_loop fuel' newWords (i + 1)
              (addWords_body currentWord nextWord s)
        | _, _ => s
        end
      else s
  end.

(** [(a, b) => b.frequency - a.frequency] *)
Definition by_frequency (h : Heap) (a b : ref) : Z :=
  frequency (load h b) - frequency (load h a).

Definition addWords (newWords : list string) (st : State) : State :=
  let prevWords := words st in
  let wordMap0 := JsMap.new ((fun w => (word (load (heap st) w), w)) <$> prevWords) in
  let s := addWords_loop (length newWords) newWords 0
             {| l_heap := heap st; wordMap := wordMap0; l_draws := draws st |} in
  let updatedWords := Array_sort (by_frequency (l_heap s)) (JsMap.values (wordMap s)) in
  {| heap := l_heap s;
     words := updatedWords;
     draws := l_draws s;
     texture := updateWordData (l_heap s) updatedWords (texture st) |}.

(** *** [processInput] (lines 275-292)

    [phraseWords] is [phrase.toLowerCase().split(/\s+/)], computed by the
    JS runtime.  [words] is the array of the render that created the
    callback.  Whether React runs the queued updater before the walk (an
    empty update queue) or at the next render is not visible in the
    source: [eager] selects it, and only decides which heap the walk
    reads through the old array. *)

Definition by_count (a b : string * Z) : Z := b.2 - a.2.

Definition find_word (h : Heap) (ws : list ref) (currentWord : option string)
    : option WordData :=
  match currentWord with
  | Some c => load h <$> List.find (fun w => String.eqb (word (load h w)) c) ws
  | None => None
  end.

Fixpoint walk (n : nat) (h : Heap) (ws : list ref) (currentWord : option string)
    (outputWords : list string) : list string :=
  match n with
  | O => outputWords
  | S n' =>
      match find_word h ws currentWord with
      | None => outputWords
      | Some wordData =>
          if JsMap.size (nextWords wordData) =? 0 then outputWords
          else
            match Array_sort by_count (JsMap.entries (nextWords wordData)) with
            | (nextWord, _) :: _ =>
                walk n' h ws (Some nextWord) (outputWords ++ [nextWord])
            | [] => outputWords
            end
      end
  end.

Definition processInput (eager : bool) (phraseWords : list string) (st : State)
    : State * list string :=
  let inputWords := take 10 phraseWords in
  let st' := addWords inputWords st in
  let h := if eager then heap st' else heap st in
  (st', walk 10 h (words st) (last inputWords) []).

(** *** Reachable states *)

Definition initial_state : State :=
  {| heap := []; words := []; draws := 0; texture := None |}.

Inductive reachable : State -> Prop :=
| reach_initial : reachable initial_state
| reach_mount webgl st : reachable st -> reachable (mount webgl st)
| reach_addWords newWords st : reachable st -> reachable (addWords newWords st)
| reach_processInput eager phraseWords st :
    reachable st -> reachable (processInput eager phraseWords st).1.

(** What a reader of the registry sees: the objects behind [words]. *)
Definition snapshot (st : State) : list WordData := load (heap st) <$> words st.

End Processor.

(** * Definitions used to state the properties *)

(** Sum of the counts of a successor table. *)
Definition sum_counts (m : list (string * Z)) : Z := foldr (fun e acc => e.2 + acc) 0 m.

(** The comparator [(a, b) => key(b) - key(a)], the order it sorts into and
    the test for one key. *)
Definition descending {A : Type} (key : A → Z) (a b : A) : Z := key b - key a.
Definition ge_key {A : Type} (key : A → Z) (a b : A) : Prop := key b ≤ key a.
Definition has_key {A : Type} (key : A → Z) (f : Z) (a : A) : bool := key a =? f.

(** The adjacent pairs [(tokens[i], tokens[i+1])], [i = 0 .. len-2]. *)
Fixpoint adjacent_pairs (tokens : list string) : list (string * string) :=
  match tokens with
  | [] => []
  | current :: rest =>
      match rest with
      | [] => []
      | next :: _ => (current, next) :: adjacent_pairs rest
      end
  end.

(** How often a token is the current token of a pair, and how often a pair
    occurs. *)
Definition current_count (current : string) (ps : list (string * string)) : Z :=
  Z.of_nat (length (filter (λ p, p.1 = current) ps)).

Definition pair_count (current next : string) (ps : list (string * string)) : Z :=
  Z.of_nat (length (filter (λ p, p = (current, next)) ps)).

(** A Word whose frequency is the sum of its successor counts. *)
Definition tallied (w : WordData) : Prop :=
  frequency w = sum_counts (nextWords w) ∧ 1 ≤ frequency w.

(** The Word a key names: through [wordMap], then through the heap. *)
Definition registry_get (s : LoopState) (k : string) : option WordData :=
  JsMap.get k (wordMap s) ≫= λ r, l_heap s !! r.

(** Invariant of the loop: [wordMap] is a bijection between keys and live
    objects, each object carries its key, and the capacity holds. *)
Record loop_inv (s : LoopState) : Prop := {
  li_keys : NoDup (JsMap.keys (wordMap s));
  li_refs : NoDup (JsMap.values (wordMap s));
  li_live : ∀ k r, (k, r) ∈ wordMap s →
              ∃ w, l_heap s !! r = Some w ∧ word w = k ∧ tallied w;
  li_size : JsMap.size (wordMap s) ≤ MAX_WORDS
}.

(** Invariant of the component state between calls. *)
Record state_inv (st : State) : Prop := {
  si_refs : NoDup (words st);
  si_keys : NoDup ((λ r, word (load (heap st) r)) <$> words st);
  si_live : ∀ r, r ∈ words st → ∃ w, heap st !! r = Some w ∧ tallied w;
  si_size : Z.of_nat (length (words st)) ≤ MAX_WORDS;
  si_sorted : StronglySorted (ge_key (λ r, frequency (load (heap st) r))) (words st)
}.

(** The loop state [addWords] starts from. *)
Definition loop_start (st : State) : LoopState :=
  {| l_heap := heap st;
     wordMap := (λ w, (word (load (heap st) w), w)) <$> words st;
     l_draws := draws st |}.

(** [s'] extends [s]: the map grew at its end by freshly allocated objects,
    and every old object kept its name and colour. *)
Record extends (s s' : LoopState) : Prop := {
  ex_map : ∃ new, wordMap s' = wordMap s ++ new
                  ∧ new.*2 = seq (length (l_heap s)) (length new)
                  ∧ length (l_heap s') = (length (l_heap s) + length new)%nat;
  ex_old : ∀ r w, l_heap s !! r = Some w →
             ∃ w', l_heap s' !! r = Some w' ∧ word w' = word w
                   ∧ hue w' = hue w ∧ saturation w' = saturation w
                   ∧ frequency w ≤ frequency w'
}.

Section PairContract.
Variable Math_random : nat → Q.

(** The loop state at the end of a call of [addWords]. *)
Definition final_loop (newWords : list string) (st : State) : LoopState :=
  foldl (λ s p, addWords_body Math_random p.1 p.2 s) (loop_start st)
    (adjacent_pairs newWords).

(** The contract of one pair, in the words of the specification. *)
Inductive pair_contract (current next : string) (s s' : LoopState) : Prop :=
| pair_existing w w' :
    (* [current] names an existing Word *)
    registry_get s current = Some w →
    registry_get s' current = Some w' →
    frequency w' = frequency w + 1 →
    JsMap.get next (nextWords w')
      = Some (default 0 (JsMap.get next (nextWords w)) + 1) →
    (∀ k, k ≠ next → JsMap.get k (nextWords w') = JsMap.get k (nextWords w)) →
    word w' = word w → hue w' = hue w → saturation w' = saturation w →
    (∀ k, k ≠ current → registry_get s' k = registry_get s k) →
    JsMap.keys (wordMap s') = JsMap.keys (wordMap s) →
    l_draws s' = l_draws s →
    pair_contract current next s s'
| pair_created w' :
    (* [current] is new and the registry has room *)
    registry_get s current = None →
    JsMap.size (wordMap s) < MAX_WORDS →
    registry_get s' current = Some w' →
    word w' = current →
    frequency w' = 1 →
    hue w' = Math_random (l_draws s) →
    saturation w' = (0.5 + Math_random (S (l_draws s)) * 0.5)%Q →
    (0.5 <= saturation w')%Q ∧ (saturation w' <= 1)%Q →
    nextWords w' = [(next, 1)] →
    (∀ k, k ≠ current → registry_get s' k = registry_get s k) →
    JsMap.keys (wordMap s') = JsMap.keys (wordMap s) ++ [current] →
    pair_contract current next s s'
| pair_dropped :
    (* [current] is new and the registry is full *)
    registry_get s current = None →
    MAX_WORDS ≤ JsMap.size (wordMap s) →
    s' = s →
    pair_contract current next s s'.

(** A run of the contract over a list of pairs, in order. *)
Inductive contract_run : list (string * string) → LoopState → LoopState → Prop :=
| run_done s : contract_run [] s s
| run_pair current next ps s s' s'' :
    pair_contract current next s s' →
    contract_run ps s' s'' →
    contract_run ((current, next) :: ps) s s''.

End PairContract.

(** The texts of the Words of the rendered registry. *)
Definition names (st : State) : list string := word <$> snapshot st.

(** [chained P cur out]: the output [out] was produced by a chain of
    successful lookups, the first of [cur], each next one of the word just
    appended, and every word looked up satisfies [P]. *)
Fixpoint chained (P : string → Prop) (cur : option string) (out : list string) : Prop :=
  match out with
  | [] => True
  | x :: out' => (∃ c, cur = Some c ∧ P c) ∧ chained P (Some x) out'
  end.

(** Two Words with the same text, frequency and successor table: they may
    differ in colour only. *)
Definition same_links (w1 w2 : WordData) : Prop :=
  word w1 = word w2 ∧ frequency w1 = frequency w2 ∧ nextWords w1 = nextWords w2.

Definition same_registry (s1 s2 : LoopState) : Prop :=
  wordMap s1 = wordMap s2 ∧ Forall2 same_links (l_heap s1) (l_heap s2).

(** ** Concrete inputs *)

(** A random source that always yields 1/2. *)
Definition half : nat → Q := λ _, (1 # 2)%Q.

Definition abab : list string := ["a"; "b"; "a"; "b"]%string.

Definition light_based : list string :=
  ["light"; "based"; "neural"; "network"; "light"; "based"; "system"]%string.

(** A registry at capacity: [MAX_WORDS] Words named by the decimal numerals
    0 .. 99999, none of them named "never". *)
Definition full_loop_state : LoopState :=
  {| l_heap := (λ r : nat, {| word := pretty r; frequency := 1; hue := 1 # 2;
                              saturation := 3 # 4; nextWords := [("0"%string, 1)] |})
                 <$> seq 0 (Z.to_nat MAX_WORDS);
     wordMap := (λ r : nat, (pretty r, r)) <$> seq 0 (Z.to_nat MAX_WORDS);
     l_draws := 0 |}.

(** * More of the component *)

(** ** Colours, successor tables, vocabulary and frequency mass *)

(** The colour of a Word lies in the ranges [Math.random()] gives it. *)
Definition coloured (w : WordData) : Prop :=
  (0 <= hue w)%Q ∧ (hue w < 1)%Q ∧ (0.5 <= saturation w)%Q ∧ (saturation w <= 1)%Q.

(** A successor table as [addWords] builds it: not empty, no key twice,
    every count at least 1. *)
Definition counted (w : WordData) : Prop :=
  nextWords w ≠ [] ∧ NoDup (JsMap.keys (nextWords w))
  ∧ Forall (λ e, 1 ≤ e.2) (nextWords w).

(** The current tokens of a batch: every token but the last. *)
Definition currents (tokens : list string) : list string := (adjacent_pairs tokens).*1.

Definition sumZ (l : list Z) : Z := foldr Z.add 0 l.

(** The frequencies of all Words, added up. *)
Definition total_frequency (st : State) : Z := sumZ (frequency <$> snapshot st).

(** The same over the map of a loop state. *)
Definition loop_mass (s : LoopState) : Z :=
  sumZ ((λ r, frequency (load (l_heap s) r)) <$> JsMap.values (wordMap s)).

(** The word the walk looked up last: the last word it appended, or the
    word it started from when it appended none. *)
Definition last_lookup (cur : option string) (out : list string) : option string :=
  match last out with Some x => Some x | None => cur end.

(** ** The mounting effect with its error reports (lines 139-167)

    What the browser hands the effect decides how far it gets: no canvas
    element, no WebGL context, a shader that does not compile, a program
    that does not link, or everything it needs. *)
Inductive Setup := no_canvas | no_context | no_shaders | no_program | ready.

(** The state after the effect, and the argument of its [setError] call
    when it makes one.  On the four early returns no texture was created,
    so [updateWordData] keeps finding none. *)
Definition mount_effect (Math_random : nat → Q) (setup : Setup) (st : State)
    : State * option string :=
  match setup with
  | no_canvas => (st, None)
  | no_context => (st, Some "WebGL is not supported in your browser."%string)
  | no_shaders => (st, Some "Failed to compile shaders."%string)
  | no_program => (st, Some "Failed to create shader program."%string)
  | ready => (mount Math_random true st, None)
  end.

(** ** Text

    A [string] stands for the JS string with the same code units, every one
    of them below 256. *)

(** [\s] on these code units: tab to carriage return, space, no-break space. *)
Definition isSpace (c : ascii) : bool :=
  let n := N_of_ascii c in
  ((9 <=? n) && (n <=? 13) || (n =? 32) || (n =? 160))%N.

(** [\w]: [A-Za-z0-9_]. *)
Definition isWordChar (c : ascii) : bool :=
  let n := N_of_ascii c in
  ((48 <=? n) && (n <=? 57) || (65 <=? n) && (n <=? 90) || (n =? 95)
   || (97 <=? n) && (n <=? 122))%N.

(** [a-z0-9_] *)
Definition isLowerWordChar (c : ascii) : bool :=
  let n := N_of_ascii c in
  ((48 <=? n) && (n <=? 57) || (n =? 95) || (97 <=? n) && (n <=? 122))%N.

(** [toLowerCase] on one code unit: A-Z, and the capital letters of
    U+00C0..U+00DE (not the sign U+00D7), move up by 32. *)
Definition lowerChar (c : ascii) : ascii :=
  let n := N_of_ascii c in
  if ((65 <=? n) && (n <=? 90) || (192 <=? n) && (n <=? 222) && negb (n =? 215))%N
  then ascii_of_N (n + 32) else c.

Fixpoint string_map (f : ascii → ascii) (s : string) : string :=
  match s with
  | EmptyString => EmptyString
  | String c s' => String (f c) (string_map f s')
  end.

Definition toLowerCase (s : string) : string := string_map lowerChar s.

(** [s.split(/\s+/)]: the pieces between the runs of white space, the empty
    piece before a leading run and after a trailing one included. *)
Fixpoint split_whitespace (s : string) : list string :=
  match s with
  | EmptyString => [EmptyString]
  | String c s' =>
      if isSpace c then
        match s' with
        | String c' _ =>
            if isSpace c' then split_whitespace s'
            else EmptyString :: split_whitespace s'
        | EmptyString => EmptyString :: split_whitespace s'
        end
      else
        match split_whitespace s' with
        | piece :: pieces => String c piece :: pieces
        | [] => [String c EmptyString]
        end
  end.

(** [s.match(/\b\w+\b/g) || []]: the maximal runs of word characters. *)
Fixpoint match_words (s : string) : list string :=
  match s with
  | EmptyString => []
  | String c s' =>
      if isWordChar c then
        match s' with
        | String c' _ =>
            if isWordChar c' then
              match match_words s' with
              | w :: ws => String c w :: ws
              | [] => [String c EmptyString]
              end
            else String c EmptyString :: match_words s'
        | EmptyString => [String c EmptyString]
        end
      else match_words s'
  end.

(** [s.endsWith(suffix)] *)
Definition endsWith (s suffix : string) : bool :=
  let n := String.length s in
  let m := String.length suffix in
  (m <=? n)%nat && String.eqb (String.substring (n - m) m s) suffix.

(** [csvText.replace(/,/g, ' ')] *)
Definition replace_commas (s : string) : string :=
  string_map (λ c, if Ascii.eqb c ","%char then " "%char else c) s.

(** *** [processInput] on the phrase itself (lines 276 and 291) *)

Definition processInput_phrase (Math_random : nat → Q) (eager : bool)
    (phrase : string) (st : State) : State * string :=
  let run := processInput Math_random eager (split_whitespace (toLowerCase phrase)) st in
  (run.1, String.concat " " run.2).

(** *** [processPDF] (lines 294-305)

    [pages] holds, page by page, the strings of the text items pdf.js
    returns. *)
Definition processPDF (pages : list (list string)) : string :=
  foldl (λ text items, text +:+ (String.concat " " items +:+ " ")) EmptyString pages.

(** *** [processFile] (lines 307-343) *)

(** What the browser hands over: the name, the text [file.text()] decodes
    and the pages pdf.js extracts ([None] when it rejects the file). *)
Record File := mkFile {
  file_name : string;
  file_text : string;
  file_pages : option (list (list string))
}.

(** The [text] the chain of [if]s computes; [None] when it throws. *)
Definition extract_text (file : File) : option string :=
  if endsWith (file_name file) ".txt" then Some (file_text file)
  else if endsWith (file_name file) ".pdf" then processPDF <$> file_pages file
  else if endsWith (file_name file) ".doc" || endsWith (file_name file) ".docx" then
    Some "DOC/DOCX processing not implemented in this example"%string
  else if endsWith (file_name file) ".csv" then Some (replace_commas (file_text file))
  else None.

Definition words_of_text (text : string) : list string :=
  match_words (toLowerCase text).

(** [(i + batch.length) / totalWords * 100] *)
Definition batch_progress (i : Z) (batch : list string) (totalWords : Z) : Q :=
  (inject_Z (i + Z.of_nat (length batch)) / inject_Z totalWords * 100)%Q.

(** The loop over the batches (lines 330-335): each batch goes to
    [addWords] and is followed by a timer tick, so the updaters run one
    after the other in the order of the calls; [progress] collects the
    values handed to [setProgress]. *)
Fixpoint batch_loop (Math_random : nat → Q) (fuel : nat) (wordsFromFile : list string)
    (i : Z) (st : State) (progress : list Q) : State * list Q :=
  match fuel with
  | O => (st, progress)
  | S fuel' =>
      let totalWords := Z.of_nat (length wordsFromFile) in
      if i <? totalWords then
        let batch := take 1000 (drop (Z.to_nat i) wordsFromFile) in
        let st := addWords Math_random batch st in
        let progress := (progress ++ [batch_progress i batch totalWords])%list in
        batch_loop Math_random fuel' wordsFromFile (i + 1000) st progress
      else (st, progress)
  end.

(** The outcome of [processFile]: the state, the values handed to
    [setProgress] after the first 0 and after the pages of a PDF, and the
    value of [error]. *)
Record Outcome := mkOutcome {
  out_state : State;
  out_progress : list Q;
  out_error : option string
}.

Definition processFile (Math_random : nat → Q) (file : File) (st : State) : Outcome :=
  match extract_text file with
  | Some text =>
      let wordsFromFile := words_of_text text in
      let run := batch_loop Math_random (length wordsFromFile) wordsFromFile 0 st [] in
      {| out_state := run.1; out_progress := run.2; out_error := None |}
  | None =>
      {| out_state := st; out_progress := [];
         out_error := Some "Error processing file. Please try again."%string |}
  end.

(** ** Vocabulary for the properties of the text functions *)

Fixpoint all_chars (p : ascii → bool) (s : string) : bool :=
  match s with
  | EmptyString => true
  | String c s' => p c && all_chars p s'
  end.

(** [A-Z] *)
Definition isUpper (c : ascii) : bool :=
  let n := N_of_ascii c in ((65 <=? n) && (n <=? 90))%N.

(** A token [split_whitespace] can return: no white space in it. *)
Definition space_free (t : string) : Prop := all_chars (λ c, negb (isSpace c)) t = true.

(** A word of a file: a non-empty string over [a-z0-9_]. *)
Definition lower_word (t : string) : Prop :=
  t ≠ EmptyString ∧ all_chars isLowerWordChar t = true.

(** The number of batches of a file of [n] words. *)
Definition batch_count (n : Z) : Z := (n + 999) / 1000.

(** Whether the first character of [s] satisfies [p]. *)
Definition starts_with (p : ascii → bool) (s : string) : bool :=
  match s with
  | EmptyString => false
  | String c _ => p c
  end.

(** The lists [split_whitespace] returns: at least one token, no white
    space inside a token, and no empty token strictly between the first and
    the last. *)
Definition phrase_tokens (ws : list string) : Prop :=
  ws ≠ [] ∧ Forall space_free ws ∧
  ∀ i, ws !! S i = Some EmptyString → S (S i) = length ws.

(** * Facts about the JS containers *)

Module JsMapFacts.
Section facts.
Context {V : Type}.
Implicit Types (m : list (string * V)) (k : string) (v : V).

Lemma get_set_eq k v m : JsMap.get k (JsMap.set k v m) = Some v.
Proof.
  induction m as [|[k' v'] m IH]; simpl.
  - by rewrite String.eqb_refl.
  - destruct (String.eqb k' k) eqn:E; simpl; rewrite E; done.
Qed.

Lemma get_set_ne k k' v m :
  k ≠ k' → JsMap.get k' (JsMap.set k v m) = JsMap.get k' m.
Proof.
  intros Hne. induction m as [|[k0 v0] m IH]; simpl.
  - destruct (String.eqb_spec k k'); congruence.
  - destruct (String.eqb_spec k0 k) as [->|]; simpl.
    + destruct (String.eqb_spec k k'); congruence.
    + by rewrite IH.
Qed.

Lemma get_None k m : JsMap.get k m = None ↔ k ∉ JsMap.keys m.
Proof.
  unfold JsMap.keys. induction m as [|[k' v'] m IH]; simpl.
  - split; [intros _; apply not_elem_of_nil | done].
  - rewrite not_elem_of_cons.
    destruct (String.eqb_spec k' k) as [->|]; split; try done.
    + intros [? _]; done.
    + intros ?; split; [congruence | by apply IH].
    + intros [_ ?]; by apply IH.
Qed.

Lemma get_Some_elem k v m : JsMap.get k m = Some v → (k, v) ∈ m.
Proof.
  induction m as [|[k' v'] m IH]; simpl; [done|].
  destruct (String.eqb_spec k' k) as [->|].
  - intros [= ->]. left.
  - intros. right. auto.
Qed.

Lemma elem_get_Some k v m :
  NoDup (JsMap.keys m) → (k, v) ∈ m → JsMap.get k m = Some v.
Proof.
  unfold JsMap.keys. induction m as [|[k' v'] m IH]; simpl.
  - intros _ H. by apply elem_of_nil in H.
  - rewrite NoDup_cons. intros [Hk Hm] [[= -> ->]|Hin]%elem_of_cons.
    + by rewrite String.eqb_refl.
    + destruct (String.eqb_spec k' k) as [->|]; [|auto].
      destruct Hk. apply (list_elem_of_fmap_2 fst) in Hin. done.
Qed.

Lemma has_get k m : JsMap.has k m = bool_decide (is_Some (JsMap.get k m)).
Proof. unfold JsMap.has. destruct (JsMap.get k m); done. Qed.

Lemma set_absent k v m : JsMap.get k m = None → JsMap.set k v m = m ++ [(k, v)].
Proof.
  induction m as [|[k' v'] m IH]; simpl; [done|].
  destruct (String.eqb k' k); [done|]. intros. by rewrite IH.
Qed.

Lemma keys_set_present k v m :
  is_Some (JsMap.get k m) → JsMap.keys (JsMap.set k v m) = JsMap.keys m.
Proof.
  unfold JsMap.keys. induction m as [|[k' v'] m IH]; simpl.
  - by intros [? ?].
  - destruct (String.eqb k' k); [done|]. intros. csimpl. by rewrite IH.
Qed.

Lemma length_set_present k v m :
  is_Some (JsMap.get k m) → length (JsMap.set k v m) = length m.
Proof.
  intros H. apply keys_set_present with (v := v) in H.
  apply (f_equal length) in H. unfold JsMap.keys in H.
  by rewrite !length_fmap in H.
Qed.

Lemma NoDup_keys_set k v m :
  NoDup (JsMap.keys m) → NoDup (JsMap.keys (JsMap.set k v m)).
Proof.
  intros Hm. destruct (JsMap.get k m) eqn:E.
  - by rewrite keys_set_present.
  - rewrite set_absent by done. unfold JsMap.keys in *.
    rewrite fmap_app. apply NoDup_app. split; [done|]. split.
    + intros x Hx [->|[]%elem_of_nil]%elem_of_cons. by apply get_None in E.
    + apply NoDup_singleton.
Qed.

(** [new Map(entries)] keeps the entries as they are when no key repeats. *)
Lemma new_app (es : list (string * V)) m0 :
  NoDup (JsMap.keys (m0 ++ es)) →
  foldl (fun m e => JsMap.set e.1 e.2 m) m0 es = m0 ++ es.
Proof.
  revert m0. induction es as [|[k v] es IH]; intros m0 Hnd; simpl.
  - by rewrite app_nil_r.
  - rewrite set_absent.
    + rewrite (IH (m0 ++ [(k, v)])); rewrite <-app_assoc; done.
    + apply get_None. unfold JsMap.keys in *. rewrite fmap_app in Hnd.
      apply NoDup_app in Hnd as (_ & Hd & _). intros Hk.
      apply (Hd k Hk). simpl. left.
Qed.

Lemma new_NoDup (es : list (string * V)) :
  NoDup (JsMap.keys es) → JsMap.new es = es.
Proof. intros. unfold JsMap.new. by rewrite new_app. Qed.
End facts.

Lemma sum_counts_app m1 m2 : sum_counts (m1 ++ m2) = sum_counts m1 + sum_counts m2.
Proof. induction m1 as [|[k c] m1 IH]; simpl in *; lia. Qed.

(** Raising one key's count by one raises the sum by one, whether the key
    was present or is created. *)
Lemma sum_counts_bump (k : string) (m : list (string * Z)) :
  sum_counts (JsMap.set k (default 0 (JsMap.get k m) + 1) m) = sum_counts m + 1.
Proof.
  induction m as [|[k' c'] m IH]; simpl; [done|].
  destruct (String.eqb_spec k' k) as [->|]; simpl; lia.
Qed.
End JsMapFacts.

(** * Facts about [Array_sort] under a descending comparator
      [(a, b) => key(b) - key(a)] *)

Section SortFacts.
Context {A : Type} (key : A → Z).
Implicit Types (x y : A) (l : list A).

Lemma sort_insert_perm x l : sort_insert (descending key) x l ≡ₚ x :: l.
Proof.
  induction l as [|y l IH]; simpl; [done|].
  destruct (descending key x y <=? 0); [done|].
  rewrite IH. apply perm_swap.
Qed.

Lemma Array_sort_perm l : Array_sort (descending key) l ≡ₚ l.
Proof.
  induction l as [|x l IH]; simpl; [done|].
  by rewrite sort_insert_perm, IH.
Qed.

Lemma sort_insert_sorted x l :
  StronglySorted (ge_key key) l → StronglySorted (ge_key key) (sort_insert (descending key) x l).
Proof.
  induction 1 as [|y l Hl IH Hy]; simpl.
  - repeat constructor.
  - unfold descending at 1. destruct (Z.leb_spec (key y - key x) 0).
    + constructor; [by constructor|].
      constructor; [unfold ge_key; lia|].
      eapply Forall_impl; [exact Hy|]. unfold ge_key. intros; simpl in *; lia.
    + constructor; [done|].
      rewrite sort_insert_perm. constructor; [unfold ge_key; lia | done].
Qed.

Lemma Array_sort_sorted l : StronglySorted (ge_key key) (Array_sort (descending key) l).
Proof.
  induction l as [|x l IH]; simpl; [constructor|]. by apply sort_insert_sorted.
Qed.

(** Stability: the elements of one key keep their relative order. *)
Lemma sort_insert_stable f x l :
  filter (λ a, has_key key f a = true) (sort_insert (descending key) x l)
  = filter (λ a, has_key key f a = true) (x :: l).
Proof.
  induction l as [|y l IH]; simpl; [done|].
  unfold descending at 1. destruct (Z.leb_spec (key y - key x) 0); [done|].
  rewrite !filter_cons in *. rewrite IH. unfold has_key.
  repeat case_decide; try done.
  exfalso. apply Z.eqb_eq in H0, H1. lia.
Qed.

Lemma Array_sort_stable f l :
  filter (λ a, has_key key f a = true) (Array_sort (descending key) l)
  = filter (λ a, has_key key f a = true) l.
Proof.
  induction l as [|x l IH]; simpl; [done|].
  rewrite sort_insert_stable, !filter_cons, IH. done.
Qed.

(** Sorting a sorted array changes nothing. *)
Lemma Array_sort_id l :
  StronglySorted (ge_key key) l → Array_sort (descending key) l = l.
Proof.
  induction 1 as [|x l Hl IH Hx]; simpl; [done|].
  rewrite IH. destruct l as [|y l]; simpl; [done|].
  apply Forall_cons in Hx as [Hxy _]. unfold ge_key in Hxy.
  unfold descending. destruct (Z.leb_spec (key y - key x) 0); [done|lia].
Qed.

(** The first element of the sorted array has the greatest key and is the
    first element of the input with that key. *)
Lemma Array_sort_head x l' l :
  Array_sort (descending key) l = x :: l' →
  x ∈ l ∧ (∀ y, y ∈ l → key y ≤ key x)
  ∧ head (filter (λ a, has_key key (key x) a = true) l) = Some x.
Proof.
  intros Hs. pose proof (Array_sort_perm l) as Hp.
  pose proof (Array_sort_sorted l) as Hsorted.
  pose proof (Array_sort_stable (key x) l) as Hst.
  rewrite Hs in Hp, Hsorted, Hst. split; [|split].
  - rewrite <-Hp. left.
  - intros y Hy. rewrite <-Hp in Hy. apply StronglySorted_inv in Hsorted as [_ Hall].
    apply elem_of_cons in Hy as [->|Hy]; [lia|].
    rewrite Forall_forall in Hall. by apply Hall.
  - rewrite <-Hst, filter_cons. case_decide as Hk; [done|].
    destruct Hk. apply Z.eqb_refl.
Qed.

Lemma Array_sort_nil l : Array_sort (descending key) l = [] → l = [].
Proof.
  intros Hs. pose proof (Array_sort_perm l) as Hp. rewrite Hs in Hp.
  symmetry in Hp. by apply Permutation_nil_r in Hp.
Qed.
End SortFacts.

(** * The registry: what the loop of [addWords] does, pair by pair *)

Section Registry.
Variable Math_random : nat → Q.

Local Abbreviation body := (addWords_body Math_random).
Local Abbreviation run_pairs := (foldl (λ s p, addWords_body Math_random p.1 p.2 s)).

(** The indexed [for] loop visits exactly the adjacent pairs, in order;
    its fuel never runs out. *)
Lemma addWords_loop_from (suf pre : list string) (fuel : nat) (s : LoopState) :
  (length suf ≤ fuel)%nat →
  addWords_loop Math_random fuel (pre ++ suf) (Z.of_nat (length pre)) s
  = run_pairs s (adjacent_pairs suf).
Proof.
  revert pre fuel s. induction suf as [|x suf IH]; intros pre fuel s Hfuel.
  - destruct fuel; simpl; [done|].
    rewrite app_nil_r. destruct (Z.ltb_spec (Z.of_nat (length pre)) (Z.of_nat (length pre) - 1)); [lia|done].
  - destruct fuel as [|fuel]; [simpl in Hfuel; lia|].
    destruct suf as [|y suf].
    + simpl. rewrite length_app. simpl.
      destruct (Z.ltb_spec (Z.of_nat (length pre)) (Z.of_nat (length pre + 1) - 1)); [lia|done].
    + cbn [addWords_loop adjacent_pairs foldl].
      rewrite length_app. cbn [length].
      destruct (Z.ltb_spec (Z.of_nat (length pre))
                  (Z.of_nat (length pre + S (S (length suf))) - 1)); [|lia].
      rewrite Nat2Z.id.
      replace (Z.to_nat (Z.of_nat (length pre) + 1)) with (S (length pre)) by lia.
      rewrite (lookup_app_r pre) by lia. rewrite Nat.sub_diag. cbn [lookup list_lookup].
      rewrite (lookup_app_r pre) by lia.
      replace (S (length pre) - length pre)%nat with 1%nat by lia. cbn [lookup list_lookup].
      specialize (IH (pre ++ [x]) fuel (body x y s)).
      rewrite <-app_assoc in IH. cbn [app] in IH.
      rewrite length_app in IH. cbn [length] in IH.
      replace (Z.of_nat (length pre) + 1) with (Z.of_nat (length pre + 1)) by lia.
      apply IH. simpl in *. lia.
Qed.

Lemma addWords_loop_pairs (newWords : list string) (s : LoopState) :
  addWords_loop Math_random (length newWords) newWords 0 s
  = run_pairs s (adjacent_pairs newWords).
Proof. apply (addWords_loop_from newWords [] (length newWords) s). done. Qed.

Implicit Types (c n k : string) (s : LoopState) (w : WordData).

(** The three branches of the loop body. *)
Lemma body_existing c n s r :
  JsMap.get c (wordMap s) = Some r →
  body c n s = {| l_heap := alter (record_next n) r (l_heap s);
                  wordMap := wordMap s;
                  l_draws := l_draws s |}.
Proof. intros H. unfold addWords_body, JsMap.has. by rewrite H. Qed.

Lemma body_create c n s :
  JsMap.get c (wordMap s) = None → JsMap.size (wordMap s) < MAX_WORDS →
  body c n s =
    {| l_heap := l_heap s ++ [ {| word := c; frequency := 1;
                                  hue := Math_random (l_draws s);
                                  saturation := (0.5 + Math_random (S (l_draws s)) * 0.5)%Q;
                                  nextWords := [(n, 1)] |} ];
       wordMap := wordMap s ++ [(c, length (l_heap s))];
       l_draws := (2 + l_draws s)%nat |}.
Proof.
  intros H Hsz. unfold addWords_body, JsMap.has. rewrite H.
  destruct (Z.ltb_spec (JsMap.size (wordMap s)) MAX_WORDS); [|lia].
  by rewrite JsMapFacts.set_absent.
Qed.

Lemma body_full c n s :
  JsMap.get c (wordMap s) = None → MAX_WORDS ≤ JsMap.size (wordMap s) →
  body c n s = s.
Proof.
  intros H Hsz. unfold addWords_body, JsMap.has. rewrite H.
  destruct (Z.ltb_spec (JsMap.size (wordMap s)) MAX_WORDS); [lia|done].
Qed.

(** One of the three branches always applies. *)
Lemma body_case c n s :
  (∃ r, JsMap.get c (wordMap s) = Some r)
  ∨ (JsMap.get c (wordMap s) = None ∧ JsMap.size (wordMap s) < MAX_WORDS)
  ∨ (JsMap.get c (wordMap s) = None ∧ MAX_WORDS ≤ JsMap.size (wordMap s)).
Proof.
  destruct (JsMap.get c (wordMap s)) as [r|]; [left; eauto|right].
  destruct (Z.lt_ge_cases (JsMap.size (wordMap s)) MAX_WORDS); [left|right]; done.
Qed.

Lemma tallied_record_next n w : tallied w → tallied (record_next n w).
Proof.
  intros [Hsum Hpos]. split; simpl; [|lia].
  rewrite JsMapFacts.sum_counts_bump. lia.
Qed.

Lemma extends_refl s : extends s s.
Proof.
  split.
  - exists []. rewrite app_nil_r. simpl. split; [done|]. split; [done|lia].
  - intros r w Hr. exists w. repeat split; [done|lia].
Qed.

Lemma extends_trans s1 s2 s3 : extends s1 s2 → extends s2 s3 → extends s1 s3.
Proof.
  intros [(n1 & Hm1 & Hr1 & Hl1) Ho1] [(n2 & Hm2 & Hr2 & Hl2) Ho2]. split.
  - exists (n1 ++ n2). rewrite Hm2, Hm1, <-app_assoc. split; [done|].
    rewrite fmap_app, length_app, Hr1, Hr2, Hl1, seq_app. split; [done|lia].
  - intros r w Hr. destruct (Ho1 r w Hr) as (w1 & Hr' & ? & ? & ? & ?).
    destruct (Ho2 r w1 Hr') as (w2 & ? & ? & ? & ? & ?).
    exists w2. repeat split; try congruence. lia.
Qed.

Lemma body_extends c n s : extends s (body c n s).
Proof.
  destruct (body_case c n s) as [[r H]|[[H Hsz]|[H Hsz]]].
  - rewrite (body_existing _ _ _ _ H). split; simpl.
    + exists []. rewrite app_nil_r, length_alter. simpl. split; [done|]. split; [done|lia].
    + intros r' w Hr'. destruct (decide (r = r')) as [<-|Hne].
      * exists (record_next n w). rewrite list_lookup_alter_eq, Hr'. simpl.
        repeat split; lia.
      * exists w. rewrite list_lookup_alter_ne by done. repeat split; [done|lia].
  - rewrite (body_create _ _ _ H Hsz). split; simpl.
    + exists [(c, length (l_heap s))]. rewrite length_app. simpl. done.
    + intros r w Hr. exists w. rewrite lookup_app_l by (by eapply lookup_lt_Some).
      repeat split; [done|lia].
  - rewrite (body_full _ _ _ H Hsz). apply extends_refl.
Qed.

Lemma run_pairs_extends ps s : extends s (run_pairs s ps).
Proof.
  revert s. induction ps as [|[c n] ps IH]; intros s; simpl; [apply extends_refl|].
  eapply extends_trans; [apply body_extends|apply IH].
Qed.

Lemma body_inv c n s : loop_inv s → loop_inv (body c n s).
Proof.
  intros [Hk Hr Hlive Hsz].
  destruct (body_case c n s) as [[r H]|[[H Hlt]|[H Hge]]].
  - rewrite (body_existing _ _ _ _ H). split; simpl; try done.
    intros k r' Hin. destruct (Hlive k r' Hin) as (w & Hw & Hword & Ht).
    destruct (decide (r = r')) as [<-|Hne].
    + exists (record_next n w). rewrite list_lookup_alter_eq, Hw.
      split; [done|]. split; [done|]. by apply tallied_record_next.
    + exists w. by rewrite list_lookup_alter_ne.
  - rewrite (body_create _ _ _ H Hlt). split; simpl.
    + rewrite <-(JsMapFacts.set_absent c (length (l_heap s))) by done.
      by apply JsMapFacts.NoDup_keys_set.
    + unfold JsMap.values in *. rewrite fmap_app. apply NoDup_app.
      split; [done|]. split; [|apply NoDup_singleton].
      intros r [[k r'] [-> Hin]]%list_elem_of_fmap. simpl.
      destruct (Hlive _ _ Hin) as (w & Hw & _). apply lookup_lt_Some in Hw.
      rewrite list_elem_of_singleton. lia.
    + intros k r [Hin|Hin%list_elem_of_singleton]%elem_of_app.
      * destruct (Hlive _ _ Hin) as (w & Hw & ? & ?). exists w.
        rewrite lookup_app_l by (by eapply lookup_lt_Some). done.
      * injection Hin as -> ->. eexists. rewrite list_lookup_middle by done.
        split; [done|]. split; [done|]. split; simpl; lia.
    + unfold JsMap.size in *. rewrite length_app. simpl. lia.
  - by rewrite (body_full _ _ _ H Hge).
Qed.

Lemma run_pairs_inv ps s : loop_inv s → loop_inv (run_pairs s ps).
Proof.
  revert s. induction ps as [|[c n] ps IH]; intros s Hs; simpl; [done|].
  apply IH. by apply body_inv.
Qed.

(** ** From the loop to the component state *)

Lemma by_frequency_descending (h : Heap) :
  by_frequency h = descending (λ r, frequency (load h r)).
Proof. done. Qed.

Lemma load_lookup (h : Heap) (r : ref) w : h !! r = Some w → load h r = w.
Proof. unfold load. by intros ->. Qed.

Lemma loop_start_inv st : state_inv st → loop_inv (loop_start st).
Proof.
  intros [Hr Hk Hlive Hsz _]. split; simpl.
  - unfold JsMap.keys. by rewrite <-list_fmap_compose.
  - unfold JsMap.values. rewrite <-list_fmap_compose. simpl. by rewrite list_fmap_id.
  - intros k r [r0 [[= -> ->] Hin]]%list_elem_of_fmap.
    destruct (Hlive _ Hin) as (w & Hw & Ht). exists w.
    by rewrite (load_lookup _ _ _ Hw).
  - unfold JsMap.size. by rewrite length_fmap.
Qed.

Lemma new_loop_start st :
  state_inv st →
  JsMap.new ((λ r, (word (load (heap st) r), r)) <$> words st) = wordMap (loop_start st).
Proof.
  intros Hst. apply JsMapFacts.new_NoDup. apply (li_keys _ (loop_start_inv _ Hst)).
Qed.

(** [addWords] as a whole: the pairs are run from [loop_start], then the
    values of the map are sorted and encoded. *)
Lemma addWords_eq newWords st :
  state_inv st →
  addWords Math_random newWords st =
    let s := final_loop Math_random newWords st in
    let updatedWords := Array_sort (by_frequency (l_heap s)) (JsMap.values (wordMap s)) in
    {| heap := l_heap s; words := updatedWords; draws := l_draws s;
       texture := updateWordData (l_heap s) updatedWords (texture st) |}.
Proof.
  intros Hst. unfold addWords, final_loop.
  rewrite (new_loop_start _ Hst), addWords_loop_pairs. done.
Qed.

Lemma values_keys s :
  loop_inv s →
  (λ r, word (load (l_heap s) r)) <$> JsMap.values (wordMap s) = JsMap.keys (wordMap s).
Proof.
  intros Hs. unfold JsMap.values, JsMap.keys. rewrite <-list_fmap_compose.
  apply list_fmap_ext. intros i [k r] Hi. simpl.
  destruct (li_live _ Hs k r) as (w & Hw & Hword & _); [by eapply list_elem_of_lookup_2|].
  by rewrite (load_lookup _ _ _ Hw).
Qed.

Lemma final_loop_inv newWords st : state_inv st → loop_inv (final_loop Math_random newWords st).
Proof. intros Hst. apply run_pairs_inv. by apply loop_start_inv. Qed.

Lemma words_addWords_perm newWords st :
  state_inv st →
  words (addWords Math_random newWords st)
  ≡ₚ JsMap.values (wordMap (final_loop Math_random newWords st)).
Proof.
  intros Hst. rewrite (addWords_eq _ _ Hst). simpl.
  rewrite by_frequency_descending. apply Array_sort_perm.
Qed.

Lemma addWords_inv newWords st :
  state_inv st → state_inv (addWords Math_random newWords st).
Proof.
  intros Hst. pose proof (final_loop_inv newWords st Hst) as Hs.
  pose proof (words_addWords_perm newWords st Hst) as Hp.
  split.
  - rewrite Hp. apply (li_refs _ Hs).
  - rewrite Hp. rewrite (addWords_eq _ _ Hst). simpl.
    rewrite (values_keys _ Hs). apply (li_keys _ Hs).
  - intros r Hr. rewrite Hp in Hr. rewrite (addWords_eq _ _ Hst). simpl.
    apply list_elem_of_fmap in Hr as [[k r'] [-> Hin]].
    destruct (li_live _ Hs _ _ Hin) as (w & ? & ? & ?). eauto.
  - rewrite Hp. unfold JsMap.values. rewrite length_fmap. apply (li_size _ Hs).
  - rewrite (addWords_eq _ _ Hst). simpl. rewrite by_frequency_descending.
    apply Array_sort_sorted.
Qed.

Lemma heap_mount webgl st : heap (mount Math_random webgl st) = heap st.
Proof. unfold mount. destruct webgl; reflexivity. Qed.

Lemma words_mount webgl st : words (mount Math_random webgl st) = words st.
Proof. unfold mount. destruct webgl; reflexivity. Qed.

Lemma mount_inv webgl st : state_inv st → state_inv (mount Math_random webgl st).
Proof.
  intros [? ? ? ? ?]. split; rewrite ?heap_mount, ?words_mount; done.
Qed.

Lemma initial_inv : state_inv initial_state.
Proof.
  split; simpl; try constructor.
  - intros r Hr. by apply elem_of_nil in Hr.
  - unfold MAX_WORDS. lia.
Qed.

Lemma reachable_inv st : reachable Math_random st → state_inv st.
Proof.
  induction 1;
    [apply initial_inv|by apply mount_inv|by apply addWords_inv|by apply addWords_inv].
Qed.

Lemma final_loop_extends newWords st : extends (loop_start st) (final_loop Math_random newWords st).
Proof. apply run_pairs_extends. Qed.

Lemma values_loop_start st : JsMap.values (wordMap (loop_start st)) = words st.
Proof.
  unfold JsMap.values. simpl. rewrite <-list_fmap_compose. apply list_fmap_id.
Qed.

(** The values of the final map: the previous array, then the references
    allocated by the call, in allocation order. *)
Lemma values_final_loop newWords st :
  ∃ created : nat, JsMap.values (wordMap (final_loop Math_random newWords st))
       = words st ++ seq (length (heap st)) created.
Proof.
  destruct (final_loop_extends newWords st) as [(new & Hm & Hr & _) _].
  exists (length new). unfold JsMap.values in *. rewrite Hm, fmap_app, Hr.
  f_equal. apply values_loop_start.
Qed.

Lemma length_snapshot st : length (snapshot st) = length (words st).
Proof. unfold snapshot. apply length_fmap. Qed.

(** Every object of the old array is in the new one, under the same text
    and colour. *)
Lemma old_words_persist newWords st (r : ref) :
  state_inv st → r ∈ words st →
  r ∈ words (addWords Math_random newWords st)
  ∧ word (load (heap (addWords Math_random newWords st)) r) = word (load (heap st) r)
  ∧ hue (load (heap (addWords Math_random newWords st)) r) = hue (load (heap st) r)
  ∧ saturation (load (heap (addWords Math_random newWords st)) r)
    = saturation (load (heap st) r).
Proof.
  intros Hst Hr. pose proof (words_addWords_perm newWords st Hst) as Hp.
  destruct (values_final_loop newWords st) as [created Hk]. split.
  { rewrite Hp, Hk. apply elem_of_app. by left. }
  destruct (si_live _ Hst r Hr) as (w & Hw & _).
  destruct (ex_old _ _ (final_loop_extends newWords st) r w Hw)
    as (w' & Hw' & ? & ? & ? & _).
  rewrite (addWords_eq _ _ Hst). simpl.
  rewrite (load_lookup _ _ _ Hw), (load_lookup _ _ _ Hw'). done.
Qed.

(** ** The invariants of the registry *)

(** C10: in every state reachable from the empty registry, the frequency of
    every Word equals the sum of the counts of its successor table. *)
Theorem frequency_is_sum_of_successor_counts st :
  reachable Math_random st →
  Forall (λ w, frequency w = sum_counts (nextWords w)) (snapshot st).
Proof.
  intros Hst%reachable_inv. unfold snapshot. rewrite Forall_fmap.
  apply Forall_forall. intros r Hr. simpl.
  destruct (si_live _ Hst r Hr) as (w & Hw & Ht & _).
  by rewrite (load_lookup _ _ _ Hw).
Qed.

(** C2: from the empty registry on, the registry never holds more than
    [MAX_WORDS] = 100000 Words, all of distinct text; a call of [addWords]
    never lowers the count, and every Word object of the old array is still
    in the new one under the same text and colour. *)
Theorem registry_bounded_and_monotone newWords st :
  reachable Math_random st →
  MAX_WORDS = 100000
  ∧ Z.of_nat (length (snapshot st)) ≤ MAX_WORDS
  ∧ NoDup (word <$> snapshot st)
  ∧ Z.of_nat (length (snapshot (addWords Math_random newWords st))) ≤ MAX_WORDS
  ∧ (length (snapshot st) ≤ length (snapshot (addWords Math_random newWords st)))%nat
  ∧ Forall (λ r, r ∈ words (addWords Math_random newWords st)
                 ∧ word (load (heap (addWords Math_random newWords st)) r)
                   = word (load (heap st) r)
                 ∧ hue (load (heap (addWords Math_random newWords st)) r)
                   = hue (load (heap st) r)
                 ∧ saturation (load (heap (addWords Math_random newWords st)) r)
                   = saturation (load (heap st) r))
           (words st).
Proof.
  intros Hst%reachable_inv. pose proof (addWords_inv newWords st Hst) as Hst'.
  pose proof (words_addWords_perm newWords st Hst) as Hp.
  destruct (values_final_loop newWords st) as [created Hk].
  split; [done|]. rewrite !length_snapshot.
  split; [apply (si_size _ Hst)|]. split.
  { unfold snapshot. rewrite <-list_fmap_compose. apply (si_keys _ Hst). }
  split; [apply (si_size _ Hst')|]. split.
  { rewrite Hp, Hk, length_app. lia. }
  apply Forall_forall. intros r Hr. by apply old_words_persist.
Qed.

(** ** Every step of the loop meets the contract of a pair *)

Lemma registry_get_Some s k r w :
  JsMap.get k (wordMap s) = Some r → l_heap s !! r = Some w →
  registry_get s k = Some w.
Proof. intros Hk Hr. unfold registry_get. rewrite Hk. done. Qed.

Lemma registry_get_None s k :
  JsMap.get k (wordMap s) = None → registry_get s k = None.
Proof. intros Hk. unfold registry_get. by rewrite Hk. Qed.

(** Under the invariant, two keys never share an object. *)
Lemma loop_inv_key s k1 k2 r :
  loop_inv s → (k1, r) ∈ wordMap s → (k2, r) ∈ wordMap s → k1 = k2.
Proof.
  intros Hs H1 H2.
  destruct (li_live _ Hs _ _ H1) as (w1 & Hw1 & <- & _).
  destruct (li_live _ Hs _ _ H2) as (w2 & Hw2 & <- & _).
  congruence.
Qed.

Section Contract.
Hypothesis random_unit : ∀ d, (0 <= Math_random d)%Q ∧ (Math_random d < 1)%Q.

Lemma saturation_range d :
  (0.5 <= 0.5 + Math_random d * 0.5)%Q ∧ (0.5 + Math_random d * 0.5 <= 1)%Q.
Proof. destruct (random_unit d). split; lra. Qed.

Lemma body_contract c n s : loop_inv s → pair_contract Math_random c n s (body c n s).
Proof.
  intros Hs. destruct (body_case c n s) as [[r H]|[[H Hlt]|[H Hge]]].
  - pose proof (JsMapFacts.get_Some_elem _ _ _ H) as Hin.
    destruct (li_live _ Hs _ _ Hin) as (w & Hw & Hword & _).
    rewrite (body_existing _ _ _ _ H).
    eapply (pair_existing Math_random c n _ _ w (record_next n w)); simpl; try done.
    + by eapply registry_get_Some.
    + unfold registry_get. simpl. rewrite H. simpl.
      by rewrite list_lookup_alter_eq, Hw.
    + apply JsMapFacts.get_set_eq.
    + intros k Hk. by apply JsMapFacts.get_set_ne.
    + intros k Hk. unfold registry_get. simpl.
      destruct (JsMap.get k (wordMap s)) as [r'|] eqn:Hk'; simpl; [|done].
      apply list_lookup_alter_ne. intros <-.
      apply Hk. eapply loop_inv_key; eauto using JsMapFacts.get_Some_elem.
  - rewrite (body_create _ _ _ H Hlt).
    eapply (pair_created Math_random c n _ _
              {| word := c; frequency := 1; hue := Math_random (l_draws s);
                 saturation := (0.5 + Math_random (S (l_draws s)) * 0.5)%Q;
                 nextWords := [(n, 1)] |}); simpl; try done.
    + by apply registry_get_None.
    + unfold registry_get. simpl.
      rewrite <-(JsMapFacts.set_absent c (length (l_heap s))) by done.
      rewrite JsMapFacts.get_set_eq. simpl. by apply list_lookup_middle.
    + apply saturation_range.
    + intros k Hk. unfold registry_get. simpl.
      rewrite <-(JsMapFacts.set_absent c (length (l_heap s))) by done.
      rewrite JsMapFacts.get_set_ne by done.
      destruct (JsMap.get k (wordMap s)) as [r'|] eqn:Hk'; simpl; [|done].
      apply JsMapFacts.get_Some_elem in Hk'.
      destruct (li_live _ Hs _ _ Hk') as (w & Hw & _).
      apply lookup_app_l. by eapply lookup_lt_Some.
    + unfold JsMap.keys. by rewrite fmap_app.
  - rewrite (body_full _ _ _ H Hge).
    apply pair_dropped; [by apply registry_get_None|done|done].
Qed.

Lemma run_pairs_contract ps s :
  loop_inv s → contract_run Math_random ps s (run_pairs s ps).
Proof.
  revert s. induction ps as [|[c n] ps IH]; intros s Hs; simpl; [constructor|].
  econstructor; [by apply body_contract|]. apply IH. by apply body_inv.
Qed.

(** C1: [addWords] handles the adjacent pairs [(tokens[i], tokens[i+1])] one
    after the other, each by the contract of a pair: an existing Word gets
    frequency + 1 and successors[next] + 1 (created at 1); a new Word, while
    fewer than [MAX_WORDS] exist, is created with frequency 1, a hue and a
    saturation drawn from the random source, the saturation in [0.5, 1], and
    successors {next: 1}; otherwise nothing changes.  The state [addWords]
    returns holds the heap and the draws of the end of that run, and the
    Words of its map, sorted. *)
Theorem addWords_runs_pair_contract newWords st :
  reachable Math_random st →
  ∃ s', contract_run Math_random (adjacent_pairs newWords) (loop_start st) s'
        ∧ addWords_loop Math_random (length newWords) newWords 0 (loop_start st) = s'
        ∧ heap (addWords Math_random newWords st) = l_heap s'
        ∧ draws (addWords Math_random newWords st) = l_draws s'
        ∧ words (addWords Math_random newWords st) ≡ₚ JsMap.values (wordMap s').
Proof.
  intros Hst%reachable_inv. exists (final_loop Math_random newWords st).
  split; [apply run_pairs_contract; by apply loop_start_inv|].
  split; [apply addWords_loop_pairs|].
  rewrite (addWords_eq _ _ Hst). simpl. split; [done|]. split; [done|].
  rewrite by_frequency_descending. apply Array_sort_perm.
Qed.
End Contract.

(** ** A full registry *)

Lemma alter_dangling (f : WordData → WordData) (h : Heap) (r : ref) :
  h !! r = None → alter f r h = h.
Proof.
  intros Hr. apply list_eq. intros i. rewrite list_lookup_alter.
  case_decide; [|done]. subst. by rewrite Hr.
Qed.

Lemma body_at_capacity c n s :
  MAX_WORDS ≤ JsMap.size (wordMap s) →
  wordMap (body c n s) = wordMap s ∧ l_draws (body c n s) = l_draws s.
Proof.
  intros Hsz. destruct (body_case c n s) as [[r H]|[[H Hlt]|[H Hge]]].
  - by rewrite (body_existing _ _ _ _ H).
  - lia.
  - by rewrite (body_full _ _ _ H Hge).
Qed.

Lemma run_pairs_at_capacity ps s :
  MAX_WORDS ≤ JsMap.size (wordMap s) →
  wordMap (run_pairs s ps) = wordMap s ∧ l_draws (run_pairs s ps) = l_draws s.
Proof.
  revert s. induction ps as [|[c n] ps IH]; intros s Hsz; simpl; [done|].
  destruct (body_at_capacity c n s Hsz) as [Hm Hd].
  destruct (IH (body c n s)) as [Hm' Hd']; [by rewrite Hm|].
  split; congruence.
Qed.

Lemma current_count_cons c c0 n0 ps :
  current_count c ((c0, n0) :: ps)
  = (if decide (c0 = c) then 1 else 0) + current_count c ps.
Proof.
  unfold current_count. rewrite filter_cons. simpl.
  destruct (decide (c0 = c)); simpl; lia.
Qed.

Lemma pair_count_cons c n c0 n0 ps :
  pair_count c n ((c0, n0) :: ps)
  = (if decide (c0 = c ∧ n0 = n) then 1 else 0) + pair_count c n ps.
Proof.
  unfold pair_count. rewrite filter_cons.
  destruct (decide ((c0, n0) = (c, n))) as [E|E], (decide (c0 = c ∧ n0 = n)) as [E'|E'];
    simpl; try lia.
  - destruct E'. by injection E.
  - destruct E. by destruct E' as [-> ->].
Qed.

Lemma pair_count_nonneg c n ps : 0 ≤ pair_count c n ps.
Proof. unfold pair_count. lia. Qed.

(** What one pair does to the Word of any key when the map is full. *)
Lemma body_at_capacity_get c0 n0 s :
  loop_inv s → MAX_WORDS ≤ JsMap.size (wordMap s) →
  (∀ c w, registry_get s c = Some w →
     ∃ w1, registry_get (body c0 n0 s) c = Some w1
           ∧ word w1 = word w ∧ hue w1 = hue w ∧ saturation w1 = saturation w
           ∧ frequency w1 = frequency w + (if decide (c0 = c) then 1 else 0)
           ∧ ∀ n, JsMap.get n (nextWords w1)
                  = if decide (c0 = c ∧ n0 = n)
                    then Some (default 0 (JsMap.get n (nextWords w)) + 1)
                    else JsMap.get n (nextWords w))
  ∧ (∀ c, registry_get s c = None → registry_get (body c0 n0 s) c = None).
Proof.
  intros Hs Hsz.
  destruct (body_case c0 n0 s) as [[r0 H0]|[[H0 Hlt]|[H0 Hge]]]; [|lia|].
  - rewrite (body_existing _ _ _ _ H0).
    pose proof (JsMapFacts.get_Some_elem _ _ _ H0) as Hin0.
    split.
    + intros c w Hw. unfold registry_get in *. cbn [wordMap l_heap].
      destruct (JsMap.get c (wordMap s)) as [r|] eqn:Hc; [|done]. simpl in *.
      pose proof (JsMapFacts.get_Some_elem _ _ _ Hc) as Hin.
      destruct (decide (c0 = c)) as [->|Hne].
      * assert (r0 = r) as -> by congruence.
        exists (record_next n0 w). rewrite list_lookup_alter_eq, Hw.
        split; [done|]. split; [done|]. split; [done|]. split; [done|].
        split; [done|]. intros n. simpl.
        destruct (decide (n0 = n)) as [->|Hn0].
        -- rewrite decide_True by done. apply JsMapFacts.get_set_eq.
        -- rewrite decide_False by (intros [_ ?]; done).
           by apply JsMapFacts.get_set_ne.
      * assert (r0 ≠ r) as Hr.
        { intros ->. apply Hne. by apply (loop_inv_key s c0 c r). }
        exists w. rewrite list_lookup_alter_ne by done.
        split; [done|]. split; [done|]. split; [done|]. split; [done|].
        split; [lia|]. intros n. rewrite decide_False by (intros [? _]; done). done.
    + intros c Hc. unfold registry_get in *. cbn [wordMap l_heap].
      destruct (JsMap.get c (wordMap s)) as [r|] eqn:Hget; [|done]. simpl in *.
      destruct (li_live _ Hs c r (JsMapFacts.get_Some_elem _ _ _ Hget)) as (w & Hw & _).
      congruence.
  - rewrite (body_full _ _ _ H0 Hge). split; [|done].
    intros c w Hw. exists w.
    assert (c0 ≠ c) as Hne.
    { intros ->. unfold registry_get in Hw. by rewrite H0 in Hw. }
    rewrite decide_False by done.
    split; [done|]. split; [done|]. split; [done|]. split; [done|].
    split; [lia|]. intros n. rewrite decide_False by (intros [? _]; done). done.
Qed.

(** What a whole run of pairs does to the Word of any key when the map is
    full: every pair that starts at the Word is counted, no other is. *)
Lemma run_pairs_at_capacity_get ps s :
  loop_inv s → MAX_WORDS ≤ JsMap.size (wordMap s) →
  (∀ c w, registry_get s c = Some w →
     ∃ w', registry_get (run_pairs s ps) c = Some w'
           ∧ word w' = word w ∧ hue w' = hue w ∧ saturation w' = saturation w
           ∧ frequency w' = frequency w + current_count c ps
           ∧ ∀ n, JsMap.get n (nextWords w')
                  = if pair_count c n ps =? 0 then JsMap.get n (nextWords w)
                    else Some (default 0 (JsMap.get n (nextWords w)) + pair_count c n ps))
  ∧ (∀ c, registry_get s c = None → registry_get (run_pairs s ps) c = None).
Proof.
  revert s. induction ps as [|[c0 n0] ps IH]; intros s Hs Hsz.
  - split; [|done]. intros c w Hw. exists w.
    split; [done|]. split; [done|]. split; [done|]. split; [done|].
    split; [unfold current_count; simpl; lia|]. done.
  - cbn [foldl fst snd].
    destruct (body_at_capacity_get c0 n0 s Hs Hsz) as [Hstep Hnone].
    destruct (body_at_capacity c0 n0 s Hsz) as [Hmap _].
    destruct (IH (body c0 n0 s)) as [IHget IHnone];
      [by apply body_inv|by rewrite Hmap|].
    split; [|by intros c Hc; apply IHnone, Hnone].
    intros c w Hw.
    destruct (Hstep c w Hw) as (w1 & Hw1 & Hword1 & Hhue1 & Hsat1 & Hf1 & Hn1).
    destruct (IHget c w1 Hw1) as (w' & Hw' & Hword' & Hhue' & Hsat' & Hf' & Hn').
    exists w'. split; [done|]. split; [congruence|]. split; [congruence|].
    split; [congruence|]. split.
    + rewrite current_count_cons, Hf', Hf1. lia.
    + intros n. rewrite Hn', Hn1, pair_count_cons.
      pose proof (pair_count_nonneg c n ps) as Hnn.
      destruct (decide (c0 = c ∧ n0 = n)) as [E|E].
      * replace (1 + pair_count c n ps =? 0) with false
          by (symmetry; apply Z.eqb_neq; lia).
        destruct (Z.eqb_spec (pair_count c n ps) 0) as [->|_]; simpl; f_equal; lia.
      * rewrite Z.add_0_l. done.
Qed.

(** C9: with exactly [MAX_WORDS] Words in the map, a call of the loop of
    [addWords] on any token list creates no Word and draws nothing from the
    random source, and it counts every pair whose current token names a
    Word: the frequency of each Word rises by the number of pairs it starts,
    and the count of each successor under it by the number of occurrences
    of that pair, a successor key that was not there being created, whether
    or not the successor names a Word (a text that names no Word names none
    afterwards either).  Pairs whose current token names no Word are
    dropped. *)
Theorem full_registry_still_counts (newWords : list string) s :
  loop_inv s →
  JsMap.size (wordMap s) = MAX_WORDS →
  wordMap (addWords_loop Math_random (length newWords) newWords 0 s) = wordMap s
  ∧ l_draws (addWords_loop Math_random (length newWords) newWords 0 s) = l_draws s
  ∧ (∀ c w, registry_get s c = Some w →
       ∃ w', registry_get (addWords_loop Math_random (length newWords) newWords 0 s) c
             = Some w'
             ∧ word w' = word w ∧ hue w' = hue w ∧ saturation w' = saturation w
             ∧ frequency w' = frequency w + current_count c (adjacent_pairs newWords)
             ∧ ∀ n, JsMap.get n (nextWords w')
                    = if pair_count c n (adjacent_pairs newWords) =? 0
                      then JsMap.get n (nextWords w)
                      else Some (default 0 (JsMap.get n (nextWords w))
                                 + pair_count c n (adjacent_pairs newWords)))
  ∧ (∀ c, registry_get s c = None →
       registry_get (addWords_loop Math_random (length newWords) newWords 0 s) c = None).
Proof.
  intros Hs Hsz. rewrite addWords_loop_pairs.
  destruct (run_pairs_at_capacity (adjacent_pairs newWords) s) as [Hmap Hdraws]; [lia|].
  destruct (run_pairs_at_capacity_get (adjacent_pairs newWords) s Hs) as [Hget Hnone];
    [lia|].
  done.
Qed.

(** ** The order of the snapshot *)

Lemma snapshot_sorted st :
  state_inv st →
  StronglySorted (λ w1 w2, frequency w2 ≤ frequency w1) (snapshot st).
Proof.
  intros Hst. unfold snapshot. pose proof (si_sorted _ Hst) as Hs.
  induction Hs as [|r l Hl IH Hr]; csimpl; constructor; [done|].
  rewrite Forall_fmap. eapply Forall_impl; [exact Hr|]. done.
Qed.

Lemma addWords_nil st :
  state_inv st →
  heap (addWords Math_random [] st) = heap st
  ∧ words (addWords Math_random [] st) = words st.
Proof.
  intros Hst. rewrite (addWords_eq _ _ Hst).
  change (final_loop Math_random [] st) with (loop_start st). cbv zeta. cbn [heap words].
  split; [done|]. rewrite values_loop_start, by_frequency_descending.
  apply Array_sort_id, (si_sorted _ Hst).
Qed.

(** C3 (amended): the snapshot is ordered by frequency, descending.  Words of
    equal frequency stand in the order of the array [addWords] sorted: the
    Words of the previous snapshot in their previous order, then the Words
    created by the call in creation order.  Reading the registry again, by
    sorting it again or through a call without pairs, gives the same
    sequence. *)
Theorem snapshot_order newWords st :
  reachable Math_random st →
  StronglySorted (λ w1 w2, frequency w2 ≤ frequency w1)
    (snapshot (addWords Math_random newWords st))
  ∧ (∃ created : nat,
       words (addWords Math_random newWords st)
       = Array_sort (by_frequency (heap (addWords Math_random newWords st)))
           (words st ++ seq (length (heap st)) created)
       ∧ ∀ f,
           filter (λ r, has_key (λ r, frequency (load (heap (addWords Math_random newWords st)) r)) f r = true)
             (words (addWords Math_random newWords st))
           = filter (λ r, has_key (λ r, frequency (load (heap (addWords Math_random newWords st)) r)) f r = true)
               (words st ++ seq (length (heap st)) created))
  ∧ Array_sort (by_frequency (heap (addWords Math_random newWords st)))
      (words (addWords Math_random newWords st))
    = words (addWords Math_random newWords st)
  ∧ snapshot (addWords Math_random [] (addWords Math_random newWords st))
    = snapshot (addWords Math_random newWords st).
Proof.
  intros Hst%reachable_inv. pose proof (addWords_inv newWords st Hst) as Hst'.
  split; [by apply snapshot_sorted|]. split; [|split].
  - destruct (values_final_loop newWords st) as [created Hk]. exists created.
    rewrite (addWords_eq _ _ Hst). simpl. rewrite Hk, by_frequency_descending.
    split; [done|]. intros f. apply Array_sort_stable.
  - rewrite by_frequency_descending. apply Array_sort_id, (si_sorted _ Hst').
  - destruct (addWords_nil _ Hst') as [Hh Hw]. unfold snapshot. by rewrite Hh, Hw.
Qed.

End Registry.

(** * The prediction walk *)

Lemma by_count_descending : by_count = descending snd.
Proof. done. Qed.

Lemma find_word_Some (h : Heap) (ws : list ref) (c : string) (w : WordData) :
  find_word h ws (Some c) = Some w →
  ∃ r, r ∈ ws ∧ w = load h r ∧ word (load h r) = c.
Proof.
  unfold find_word. intros Hf.
  destruct (List.find _ ws) as [r|] eqn:Hr; [|done]. injection Hf as <-.
  apply find_some in Hr as [Hin Heq]. exists r.
  split; [by apply list_elem_of_In|]. split; [done|]. by apply String.eqb_eq.
Qed.

(** The walk only ever appends to its output. *)
Lemma walk_chained (P : string → Prop) (h : Heap) (ws : list ref) :
  (∀ c w, find_word h ws (Some c) = Some w → P c) →
  ∀ n cur out, ∃ ext, walk n h ws cur out = out ++ ext ∧ chained P cur ext.
Proof.
  intros HP. induction n as [|n IH]; intros cur out; simpl.
  - exists []. by rewrite app_nil_r.
  - destruct (find_word h ws cur) as [wordData|] eqn:Hf;
      [|exists []; by rewrite app_nil_r].
    destruct (JsMap.size (nextWords wordData) =? 0);
      [exists []; by rewrite app_nil_r|].
    destruct (Array_sort by_count _) as [|[nextWord cnt] rest];
      [exists []; by rewrite app_nil_r|].
    destruct (IH (Some nextWord) (out ++ [nextWord])) as (ext & -> & Hext).
    exists (nextWord :: ext). rewrite <-app_assoc. split; [done|].
    split; [|done]. destruct cur as [c|]; [|done]. exists c. eauto.
Qed.

Section Walker.
Variable Math_random : nat → Q.

(** Through the old array the walk finds old Words only, whichever heap it
    reads: the one before or the one after the updater ran. *)
Lemma find_word_rendered eager newWords st c w :
  state_inv st →
  find_word (if eager : bool then heap (addWords Math_random newWords st) else heap st)
    (words st) (Some c) = Some w →
  c ∈ names st.
Proof.
  intros Hst (r & Hr & _ & Hc)%find_word_Some. unfold names, snapshot.
  rewrite <-list_fmap_compose. apply list_elem_of_fmap. exists r.
  split; [|done]. simpl. destruct eager; [|done].
  destruct (si_live _ Hst r Hr) as (w0 & Hw0 & _).
  destruct (ex_old _ _ (final_loop_extends Math_random newWords st) r w0 Hw0)
    as (w' & Hw' & Hword & _).
  rewrite (addWords_eq _ _ _ Hst) in Hc. simpl in Hc.
  rewrite (load_lookup _ _ _ Hw') in Hc. rewrite (load_lookup _ _ _ Hw0). congruence.
Qed.

Lemma chained_nil (P : string → Prop) cur out :
  (∀ c, cur = Some c → ¬ P c) → chained P cur out → out = [].
Proof. destruct out; [done|]. intros Hn [(c & Hc & HP) _]. by destruct (Hn c Hc). Qed.

(** X18: the walk of [processInput] looks words up in the array of the render
    that created the callback, which holds the Words that existed before the
    call: every word the walk finds is such an old Word; when the last token
    of the phrase is not an old Word the output is empty, and on an empty
    registry it is empty for every phrase. *)
Lemma walk_reads_rendered_words eager phraseWords st :
  reachable Math_random st →
  (processInput Math_random eager phraseWords st).1
    = addWords Math_random (take 10 phraseWords) st
  ∧ chained (λ c, c ∈ names st) (last (take 10 phraseWords))
      (processInput Math_random eager phraseWords st).2
  ∧ (∀ c, last (take 10 phraseWords) = Some c → c ∉ names st →
       (processInput Math_random eager phraseWords st).2 = [])
  ∧ (words st = [] → (processInput Math_random eager phraseWords st).2 = []).
Proof.
  intros Hst%reachable_inv. split; [done|].
  assert (chained (λ c, c ∈ names st) (last (take 10 phraseWords))
            (processInput Math_random eager phraseWords st).2) as Hch.
  { unfold processInput. cbn [snd].
    destruct (walk_chained (λ c, c ∈ names st)
                (if eager then heap (addWords Math_random (take 10 phraseWords) st)
                 else heap st) (words st)) with (n := 10%nat)
      (cur := last (take 10 phraseWords)) (out := @nil string) as (ext & -> & Hext).
    - intros c w. by apply find_word_rendered.
    - done. }
  split; [done|]. split.
  - intros c Hc Hnot. eapply chained_nil; [|exact Hch].
    intros c' Hc'. congruence.
  - intros Hnil. eapply chained_nil; [|exact Hch].
    intros c _. unfold names, snapshot. rewrite Hnil. apply not_elem_of_nil.
Qed.

Lemma names_addWords_incl newWords st c :
  state_inv st → c ∈ names st → c ∈ names (addWords Math_random newWords st).
Proof.
  intros Hst. unfold names, snapshot. rewrite <-!list_fmap_compose.
  intros (r & -> & Hr)%list_elem_of_fmap.
  destruct (old_words_persist Math_random newWords st r Hst Hr) as (Hr' & Hw & _).
  apply list_elem_of_fmap. exists r. simpl in *. by rewrite Hw.
Qed.

Lemma chained_mono (P Q : string → Prop) cur out :
  (∀ c, P c → Q c) → chained P cur out → chained Q cur out.
Proof.
  intros HPQ. revert cur. induction out as [|x out IH]; intros cur; [done|].
  intros [(c & Hc & HP) Hout]. split; [eauto|by apply IH].
Qed.

Lemma walk_length n h ws cur out :
  (length (walk n h ws cur out) ≤ length out + n)%nat.
Proof.
  revert cur out. induction n as [|n IH]; intros cur out; simpl; [lia|].
  destruct (find_word h ws cur) as [wordData|]; [|lia].
  destruct (JsMap.size (nextWords wordData) =? 0); [lia|].
  destruct (Array_sort by_count _) as [|[nextWord cnt] rest]; [lia|].
  etransitivity; [apply IH|]. rewrite length_app. simpl. lia.
Qed.

(** C4 (amended): [processInput] hands the phrase, cut to at most 10 tokens,
    to [addWords], and the walk starts from the last token of the cut
    phrase and from no other; it appends at most 10 words, each the
    successor taken from a word that names a Word after the phrase was
    ingested.  When the last token names no Word even then, or the phrase
    has no token, the output is empty. *)
Theorem processInput_ingests_then_walks_from_last eager phraseWords st :
  reachable Math_random st →
  (processInput Math_random eager phraseWords st).1
    = addWords Math_random (take 10 phraseWords) st
  ∧ (length (processInput Math_random eager phraseWords st).2 ≤ 10)%nat
  ∧ chained (λ c, c ∈ names (addWords Math_random (take 10 phraseWords) st))
      (last (take 10 phraseWords))
      (processInput Math_random eager phraseWords st).2
  ∧ (∀ c, last (take 10 phraseWords) = Some c →
       c ∉ names (addWords Math_random (take 10 phraseWords) st) →
       (processInput Math_random eager phraseWords st).2 = [])
  ∧ (last (take 10 phraseWords) = None →
     (processInput Math_random eager phraseWords st).2 = []).
Proof.
  intros Hst%reachable_inv. split; [done|].
  split; [apply (walk_length 10 _ _ _ [])|].
  destruct (walk_chained (λ c, c ∈ names st)
              (if eager then heap (addWords Math_random (take 10 phraseWords) st)
               else heap st) (words st)) with (n := 10%nat)
    (cur := last (take 10 phraseWords)) (out := @nil string) as (ext & Hwalk & Hext).
  { intros c w. by apply find_word_rendered. }
  apply (chained_mono _ (λ c, c ∈ names (addWords Math_random (take 10 phraseWords) st)))
    in Hext; [|intros c; by apply names_addWords_incl].
  unfold processInput. cbn [snd]. rewrite Hwalk. simpl. split; [done|]. split.
  - intros c Hc Hnot. eapply chained_nil; [|exact Hext].
    intros c' Hc'. congruence.
  - intros Hnone. eapply chained_nil; [|exact Hext]. intros c Hc. congruence.
Qed.

End Walker.

(** ** The walk does not depend on the random source *)

Lemma same_links_record_next n w1 w2 :
  same_links w1 w2 → same_links (record_next n w1) (record_next n w2).
Proof. intros (? & ? & Hn). unfold same_links. simpl. rewrite Hn. auto with congruence. Qed.

Lemma body_same_registry random1 random2 c n s1 s2 :
  same_registry s1 s2 →
  same_registry (addWords_body random1 c n s1) (addWords_body random2 c n s2).
Proof.
  intros [Hm Hh]. unfold addWords_body. rewrite <-Hm.
  destruct (JsMap.has c (wordMap s1)).
  - destruct (JsMap.get c (wordMap s1)) as [r|]; [|done].
    split; simpl; [done|]. apply Forall2_alter; [done|].
    intros. by apply same_links_record_next.
  - destruct (JsMap.size (wordMap s1) <? MAX_WORDS); [|done].
    split; simpl.
    + by rewrite (Forall2_length _ _ _ Hh).
    + apply Forall2_app; [done|]. by repeat constructor.
Qed.

Lemma run_same_registry random1 random2 ps s1 s2 :
  same_registry s1 s2 →
  same_registry (foldl (λ s p, addWords_body random1 p.1 p.2 s) s1 ps)
                (foldl (λ s p, addWords_body random2 p.1 p.2 s) s2 ps).
Proof.
  revert s1 s2. induction ps as [|[c n] ps IH]; intros s1 s2 Hs; simpl; [done|].
  apply IH. by apply body_same_registry.
Qed.

Lemma same_links_load h1 h2 r :
  Forall2 same_links h1 h2 → same_links (load h1 r) (load h2 r).
Proof.
  intros Hh. unfold load. destruct (h1 !! r) as [w1|] eqn:H1.
  - destruct (Forall2_lookup_l _ _ _ _ _ Hh H1) as (w2 & -> & Hw). done.
  - apply lookup_ge_None in H1. apply Forall2_length in Hh.
    rewrite (proj2 (lookup_ge_None h2 r)); [done|lia].
Qed.

Lemma find_word_same_links h1 h2 ws cur :
  Forall2 same_links h1 h2 →
  option_Forall2 same_links (find_word h1 ws cur) (find_word h2 ws cur).
Proof.
  intros Hh. destruct cur as [c|]; simpl; [|constructor].
  induction ws as [|r ws IH]; simpl; [constructor|].
  destruct (same_links_load h1 h2 r Hh) as (Hw & _). rewrite <-Hw.
  destruct (String.eqb (word (load h1 r)) c); [|done].
  simpl. constructor. by apply same_links_load.
Qed.

Lemma walk_same_links h1 h2 ws n cur out :
  Forall2 same_links h1 h2 → walk n h1 ws cur out = walk n h2 ws cur out.
Proof.
  intros Hh. revert cur out. induction n as [|n IH]; intros cur out; simpl; [done|].
  destruct (find_word_same_links h1 h2 ws cur Hh) as [w1 w2 (_ & _ & Hn)|]; [|done].
  rewrite <-Hn. destruct (JsMap.size (nextWords w1) =? 0); [done|].
  destruct (Array_sort by_count _) as [|[nextWord cnt] rest]; [done|]. apply IH.
Qed.

Lemma same_links_refl h : Forall2 same_links h h.
Proof. apply Forall_Forall2_diag, Forall_forall. intros w _. by repeat split. Qed.

(** The first entry with a property splits the list around it. *)
Lemma head_filter_split {A} (P : A → Prop) `{!∀ x, Decision (P x)} (l : list A) x :
  head (filter P l) = Some x →
  ∃ pre post, l = pre ++ x :: post ∧ Forall (λ y, ¬ P y) pre ∧ P x.
Proof.
  induction l as [|y l IH]; [done|]. rewrite filter_cons.
  case_decide as Hy; simpl.
  - intros [= ->]. exists [], l. by repeat split.
  - intros (pre & post & -> & Hpre & Hx)%IH. exists (y :: pre), post.
    split; [done|]. split; [by constructor|done].
Qed.

(** The successor the walk takes: of greatest count, and the first such in
    the iteration order of the table. *)
Lemma top_successor (entries : list (string * Z)) nextWord cnt rest :
  Array_sort by_count entries = (nextWord, cnt) :: rest →
  ∃ before after,
    entries = before ++ (nextWord, cnt) :: after
    ∧ Forall (λ e, e.2 < cnt) before
    ∧ Forall (λ e, e.2 ≤ cnt) after.
Proof.
  rewrite by_count_descending. intros (Hin & Hmax & Hfirst)%Array_sort_head.
  apply head_filter_split in Hfirst as (before & after & Hsplit & Hbefore & _).
  exists before, after. split; [done|].
  assert (∀ e, e ∈ entries → e.2 ≤ cnt) as Hle by (intros e He; by apply Hmax in He).
  rewrite Hsplit in Hle. split; apply Forall_forall.
  - intros e He. rewrite Forall_forall in Hbefore. specialize (Hbefore e He).
    unfold has_key in Hbefore. simpl in Hbefore.
    assert (e.2 ≤ cnt) by (apply Hle, elem_of_app; by left).
    destruct (Z.eqb_spec e.2 cnt); [done|lia].
  - intros e He. apply Hle, elem_of_app. right. by right.
Qed.

(** The words already output do not bear on the words to come. *)
Lemma walk_app n h ws cur out :
  walk n h ws cur out = out ++ walk n h ws cur [].
Proof.
  revert cur out. induction n as [|n IH]; intros cur out; simpl.
  - by rewrite app_nil_r.
  - destruct (find_word h ws cur) as [wordData|]; [|by rewrite app_nil_r].
    destruct (JsMap.size (nextWords wordData) =? 0); [by rewrite app_nil_r|].
    destruct (Array_sort by_count _) as [|[nextWord cnt] rest]; [by rewrite app_nil_r|].
    rewrite IH, (IH _ [nextWord]). by rewrite <- app_assoc.
Qed.

(** X19: the traversal uses no randomness and is greedy.  For one registry
    state, one phrase and one timing of the state update, the output of
    [processInput] is the same whatever the random source yields.  A step
    from a word that names a Word with successors outputs the successor of
    greatest count, the first such in the iteration order of the table, and
    goes on from it; a step from a word that names no Word, or a Word
    without successors, ends the walk. *)
Theorem walk_takes_first_top_successor (random1 random2 : nat → Q) (eager : bool)
    (phraseWords : list string) (st : State) :
  (processInput random1 eager phraseWords st).2
  = (processInput random2 eager phraseWords st).2
  ∧ (∀ n h ws c wordData,
       find_word h ws (Some c) = Some wordData →
       nextWords wordData ≠ [] →
       ∃ before nextWord cnt after,
         nextWords wordData = before ++ (nextWord, cnt) :: after
         ∧ Forall (λ e, e.2 < cnt) before
         ∧ Forall (λ e, e.2 ≤ cnt) after
         ∧ walk (S n) h ws (Some c) [] = nextWord :: walk n h ws (Some nextWord) [])
  ∧ (∀ n h ws c wordData,
       find_word h ws (Some c) = Some wordData → nextWords wordData = [] →
       walk n h ws (Some c) [] = [])
  ∧ (∀ n h ws cur, find_word h ws cur = None → walk n h ws cur [] = []).
Proof.
  split; [|split; [|split]].
  - unfold processInput. cbn [snd]. destruct eager; [|done].
    apply walk_same_links. unfold addWords. cbn [heap].
    rewrite !addWords_loop_pairs.
    apply run_same_registry. split; [done|]. apply same_links_refl.
  - intros n h ws c wordData Hf Hne. cbn [walk]. rewrite Hf.
    destruct (nextWords wordData) as [|e m] eqn:Hm; [done|].
    replace (JsMap.size (e :: m) =? 0) with false
      by (symmetry; apply Z.eqb_neq; unfold JsMap.size; simpl; lia).
    unfold JsMap.entries.
    destruct (Array_sort by_count (e :: m)) as [|[nextWord cnt] rest] eqn:Hs.
    { rewrite by_count_descending in Hs. by apply Array_sort_nil in Hs. }
    destruct (top_successor _ _ _ _ Hs) as (before & after & ? & ? & ?).
    exists before, nextWord, cnt, after.
    split; [done|]. split; [done|]. split; [done|]. by rewrite walk_app.
  - intros n h ws c wordData Hf Hnil. destruct n as [|n]; [done|].
    cbn [walk]. by rewrite Hf, Hnil.
  - intros n h ws cur Hf. destruct n as [|n]; [done|]. cbn [walk]. by rewrite Hf.
Qed.

(** * Binary rounding *)

Lemma pow2_pos (k : Z) : (0 < 2 ^ k)%Q.
Proof. by apply Qpower_0_lt. Qed.

Lemma pow2_nonzero (k : Z) : ¬ (2 ^ k == 0)%Q.
Proof. intros H. pose proof (pow2_pos k) as Hk. rewrite H in Hk. by apply Qlt_irrefl in Hk. Qed.

Lemma pow2_le (j k : Z) : j ≤ k → (2 ^ j <= 2 ^ k)%Q.
Proof. intros H. by apply Qpower_le_compat_l. Qed.

Lemma pow2_lt (j k : Z) : j < k → (2 ^ j < 2 ^ k)%Q.
Proof. intros H. by apply Qpower_lt_compat_l. Qed.

Lemma pow2_Z (k : Z) : 0 ≤ k → (2 ^ k == inject_Z (2 ^ k))%Q.
Proof. intros H. by rewrite Zpower_Qpower. Qed.

Lemma pow2_split (j k : Z) : (2 ^ j == 2 ^ (j - k) * 2 ^ k)%Q.
Proof. rewrite <- Qpower_plus by done. by replace (j - k + k) with j by lia. Qed.

Lemma ilog2_spec (a : Q) :
  (0 < a)%Q → (2 ^ ilog2 a <= a)%Q ∧ (a < 2 ^ (ilog2 a + 1))%Q.
Proof.
  intros Ha. unfold ilog2. destruct (Qle_bool 1 a) eqn:H1.
  - apply Qle_bool_iff in H1.
    assert (1 ≤ Qfloor a) as Hf.
    { change 1 with (Qfloor 1). by apply Qfloor_resp_le. }
    destruct (Z.log2_spec (Qfloor a)) as [Hlo Hhi]; [lia|].
    rewrite !pow2_Z by (pose proof (Z.log2_nonneg (Qfloor a)); lia).
    split.
    + eapply Qle_trans; [|apply Qfloor_le]. by rewrite <- Zle_Qle.
    + eapply Qlt_le_trans; [apply Qlt_floor|]. rewrite <- Zle_Qle.
      rewrite <- Z.add_1_r in Hhi. lia.
  - assert (a < 1)%Q as Hlt.
    { apply Qnot_le_lt. intros H. apply Qle_bool_iff in H. congruence. }
    assert (0 < / a)%Q as Hinv by (by apply Qinv_lt_0_compat).
    assert (1 < / a)%Q as Hx.
    { apply Qmult_lt_r with a; [done|]. rewrite Qmult_1_l.
      rewrite Qmult_comm, Qmult_inv_r; [done|].
      intros E. rewrite E in Ha. by apply Qlt_irrefl in Ha. }
    set (c := Qceiling (/ a)).
    assert (2 ≤ c) as Hc.
    { assert (1 < c); [|lia]. rewrite Zlt_Qlt. eapply Qlt_le_trans; [exact Hx|].
      apply Qle_ceiling. }
    destruct (Z.log2_up_spec c) as [Hlo Hhi]; [lia|].
    assert (1 ≤ Z.log2_up c) as HU by (pose proof (Z.log2_up_pos c); lia).
    replace (- Z.log2_up c + 1) with (- (Z.log2_up c - 1)) by lia.
    rewrite !Qpower_opp. rewrite !pow2_Z by lia.
    assert (0 < inject_Z (2 ^ Z.log2_up c))%Q as HpU.
    { rewrite <- pow2_Z by lia. apply pow2_pos. }
    assert (0 < inject_Z (2 ^ (Z.log2_up c - 1)))%Q as HpU1.
    { rewrite <- pow2_Z by lia. apply pow2_pos. }
    assert (¬ a == 0)%Q as Hnz.
    { intros E. rewrite E in Ha. by apply Qlt_irrefl in Ha. }
    split.
    + apply Qle_shift_inv_r; [done|].
      rewrite <- (Qmult_inv_r a) by done. apply Qmult_le_l; [done|].
      eapply Qle_trans; [apply Qle_ceiling|]. fold c. by rewrite <- Zle_Qle.
    + apply Qlt_shift_inv_l; [done|].
      rewrite <- (Qmult_inv_r a) by done. apply Qmult_lt_l; [done|].
      eapply Qle_lt_trans; [|apply Qceiling_lt]. fold c.
      rewrite <- Zle_Qle. rewrite <- Z.sub_1_r in Hlo. lia.
Qed.

Lemma round_half_even_le (x : Q) (n : Z) :
  (x <= inject_Z n)%Q → round_half_even x ≤ n.
Proof.
  intros Hx. unfold round_half_even.
  pose proof (Qfloor_le x) as Hf.
  assert (Qfloor x ≤ n) as Hfn.
  { rewrite Zle_Qle. by eapply Qle_trans. }
  destruct (decide (Qfloor x = n)) as [E|E].
  - assert (x - inject_Z (Qfloor x) <= 0)%Q as H0.
    { rewrite E. lra. }
    destruct (Qcompare_spec (x - inject_Z (Qfloor x)) (1 # 2)) as [H|H|H]; [lra|lia|lra].
  - destruct (_ ?= _)%Q; [destruct (Z.even _)|..]; lia.
Qed.

Lemma round_half_even_ge (x : Q) (n : Z) :
  (inject_Z n <= x)%Q → n ≤ round_half_even x.
Proof.
  intros Hx. unfold round_half_even.
  assert (n ≤ Qfloor x) as Hfn.
  { rewrite <- (Qfloor_Z n). by apply Qfloor_resp_le. }
  destruct (_ ?= _)%Q; [destruct (Z.even _)|..]; lia.
Qed.

Section Round.
Variables prec emin : Z.
Hypothesis prec_pos : 1 ≤ prec.

Lemma round_binary_Qeq (q q' : Q) :
  (q == q')%Q → round_binary prec emin q = round_binary prec emin q'.
Proof. intros H. unfold round_binary. by rewrite (Qred_complete _ _ H). Qed.

Lemma round_binary_nonneg (q : Q) : (0 <= q)%Q → (0 <= round_binary prec emin q)%Q.
Proof.
  intros Hq. unfold round_binary.
  assert (0 <= Qred q)%Q as Hq' by (by rewrite Qred_correct).
  destruct (Qeq_bool _ _); [done|]. rewrite Qred_correct.
  apply Qle_bool_iff in Hq' as ->.
  assert (0 <= inject_Z (round_half_even (Qabs (Qred q) / 2 ^ Z.max (ilog2 (Qabs (Qred q)) - (prec - 1)) emin)))%Q.
  { change 0%Q with (inject_Z 0). rewrite <- Zle_Qle. apply round_half_even_ge.
    apply Qle_shift_div_l; [apply pow2_pos|]. rewrite Qmult_0_l. apply Qabs_nonneg. }
  pose proof (pow2_pos (Z.max (ilog2 (Qabs (Qred q)) - (prec - 1)) emin)).
  rewrite Qmult_1_l. apply Qmult_le_0_compat; [done|]. by apply Qlt_le_weak.
Qed.

(** A positive value not above [2 ^ t] is not rounded above [2 ^ t]. *)
Lemma round_binary_le_pow2 (q : Q) (t : Z) :
  (0 <= q)%Q → (q <= 2 ^ t)%Q → emin ≤ t → (round_binary prec emin q <= 2 ^ t)%Q.
Proof.
  intros Hq Hqt Ht. unfold round_binary.
  assert (0 <= Qred q)%Q as Hq' by (by rewrite Qred_correct).
  destruct (Qeq_bool _ _) eqn:Hz; [by apply Qlt_le_weak, pow2_pos|].
  apply Qeq_bool_neq in Hz. rewrite Qred_correct.
  apply Qle_bool_iff in Hq' as Hb. rewrite Hb. clear Hb.
  set (a := Qabs (Qred q)) in *.
  assert (a == q)%Q as Ha by (unfold a; by rewrite Qabs_pos, Qred_correct).
  assert (0 < a)%Q as Hpos.
  { apply Qle_lt_or_eq in Hq as [H|H]; [by rewrite Ha|]. by rewrite Ha, <- H in Hz. }
  destruct (ilog2_spec a Hpos) as [Hlo Hhi].
  assert (ilog2 a ≤ t) as Hk.
  { apply Qpower_le_compat_l_inv with 2%Q; [|done].
    eapply Qle_trans; [exact Hlo|]. by rewrite Ha. }
  set (e := Z.max (ilog2 a - (prec - 1)) emin).
  assert (e ≤ t) as He by (unfold e; lia).
  assert (round_half_even (a / 2 ^ e) ≤ 2 ^ (t - e)) as Hm.
  { apply round_half_even_le. rewrite <- pow2_Z by lia.
    apply Qle_shift_div_r; [apply pow2_pos|].
    rewrite <- pow2_split. by rewrite Ha. }
  rewrite Qmult_1_l, (pow2_split t e).
  apply Qmult_le_compat_r; [|apply Qlt_le_weak, pow2_pos].
  rewrite (pow2_Z (t - e)) by lia. by rewrite <- Zle_Qle.
Qed.

(** A value not below [2 ^ t] is not rounded below [2 ^ t]. *)
Lemma round_binary_ge_pow2 (q : Q) (t : Z) :
  (2 ^ t <= q)%Q → emin ≤ t → (2 ^ t <= round_binary prec emin q)%Q.
Proof.
  intros Hqt Ht. unfold round_binary.
  assert (0 < q)%Q as Hq by (eapply Qlt_le_trans; [apply pow2_pos|exact Hqt]).
  assert (0 <= Qred q)%Q as Hq' by (rewrite Qred_correct; by apply Qlt_le_weak).
  set (a := Qabs (Qred q)) in *.
  assert (a == q)%Q as Ha by (unfold a; by rewrite Qabs_pos, Qred_correct).
  assert (0 < a)%Q as Hpos by (by rewrite Ha).
  destruct (Qeq_bool _ _) eqn:Hz.
  { apply Qeq_bool_iff in Hz. rewrite Hz in Hpos. by apply Qlt_irrefl in Hpos. }
  rewrite Qred_correct.
  apply Qle_bool_iff in Hq' as Hb. rewrite Hb. clear Hb.
  destruct (ilog2_spec a Hpos) as [Hlo Hhi].
  assert (t ≤ ilog2 a) as Hk.
  { assert (t < ilog2 a + 1); [|lia].
    apply Qpower_lt_compat_l_inv with 2%Q; [|done].
    eapply Qle_lt_trans; [|exact Hhi]. by rewrite Ha. }
  set (e := Z.max (ilog2 a - (prec - 1)) emin).
  assert (e ≤ ilog2 a) as He by (unfold e; lia).
  assert (2 ^ (ilog2 a - e) ≤ round_half_even (a / 2 ^ e)) as Hm.
  { apply round_half_even_ge. rewrite <- pow2_Z by lia.
    apply Qle_shift_div_l; [apply pow2_pos|].
    by rewrite <- pow2_split. }
  eapply Qle_trans; [apply (pow2_le t (ilog2 a)); lia|].
  rewrite Qmult_1_l, (pow2_split (ilog2 a) e).
  apply Qmult_le_compat_r; [|apply Qlt_le_weak, pow2_pos].
  rewrite (pow2_Z (ilog2 a - e)) by lia. by rewrite <- Zle_Qle.
Qed.

End Round.

Lemma binary32_1 : binary32 1 = 1%Q.
Proof. reflexivity. Qed.

Lemma binary32_0 : binary32 0 = 0%Q.
Proof. reflexivity. Qed.

(** Rounding keeps a value of [0, 1] in [0, 1], and a value of [1/2, 1]
    in [1/2, 1]. *)
Lemma round_binary_unit prec emin (q : Q) :
  1 ≤ prec → emin ≤ -1 → (0 <= q)%Q → (q <= 1)%Q →
  (0 <= round_binary prec emin q)%Q ∧ (round_binary prec emin q <= 1)%Q
  ∧ ((1 # 2 <= q)%Q → (1 # 2 <= round_binary prec emin q)%Q).
Proof.
  intros Hp He H0 H1. split; [by apply round_binary_nonneg|]. split.
  - apply (round_binary_le_pow2 prec emin Hp q 0); [done..|lia].
  - intros Hh. by apply (round_binary_ge_pow2 prec emin Hp q (-1)).
Qed.

(** * The visual encoder *)

Section Encoder.
Implicit Types (a wordData : Float32Array) (h : Heap) (i j index : Z).

Lemma f32_length_set a i v : f32_length (f32_set a i v) = f32_length a.
Proof. unfold f32_set. by destruct (_ && _). Qed.

Lemma f32_at_set_eq a i v :
  0 ≤ i < f32_length a → f32_at (f32_set a i v) i = binary32 v.
Proof.
  intros Hi. unfold f32_set.
  destruct (Z.leb_spec 0 i); [|lia]. destruct (Z.ltb_spec i (f32_length a)); [|lia].
  simpl. by rewrite Z.eqb_refl.
Qed.

Lemma f32_at_set_ne a i j v : j ≠ i → f32_at (f32_set a i v) j = f32_at a j.
Proof.
  intros Hne. unfold f32_set. destruct (_ && _); [|done]. simpl.
  destruct (Z.eqb_spec j i); [done|done].
Qed.

Lemma forEach_length h all rest index wordData :
  f32_length (forEach_word h all rest index wordData) = f32_length wordData.
Proof.
  revert index wordData. induction rest as [|r rest IH]; intros index wordData; simpl; [done|].
  by rewrite IH, !f32_length_set.
Qed.

(** The loop writes the cells [index .. index + length rest - 1] only. *)
Lemma forEach_outside h all rest index wordData j :
  j < index * 4 ∨ (index + Z.of_nat (length rest)) * 4 ≤ j →
  f32_at (forEach_word h all rest index wordData) j = f32_at wordData j.
Proof.
  revert index wordData. induction rest as [|r rest IH]; intros index wordData Hj; simpl; [done|].
  rewrite IH by (simpl in Hj; lia).
  rewrite !f32_at_set_ne by (simpl in Hj; lia). done.
Qed.

Lemma forEach_cell h all rest index wordData k r :
  rest !! k = Some r → 0 ≤ index →
  (index + Z.of_nat k) * 4 + 3 < f32_length wordData →
  let t := forEach_word h all rest index wordData in
  let base := (index + Z.of_nat k) * 4 in
  f32_at t base
    = binary32
        match Math_max ((λ w, frequency (load h w)) <$> all) with
        | Some m => binary64 (inject_Z (frequency (load h r)) / inject_Z m)
        | None => 0%Q
        end
  ∧ f32_at t (base + 1) = binary32 (hue (load h r))
  ∧ f32_at t (base + 2) = binary32 (saturation (load h r))
  ∧ f32_at t (base + 3) = 1%Q.
Proof.
  revert index wordData k. induction rest as [|r0 rest IH]; intros index wordData k Hk Hidx Hlen;
    [done|].
  destruct k as [|k]; simpl in Hk.
  - injection Hk as ->. cbn zeta. cbn [forEach_word].
    replace ((index + Z.of_nat 0) * 4) with (index * 4) by lia.
    replace ((index + Z.of_nat 0) * 4) with (index * 4) in Hlen by lia.
    rewrite !forEach_outside by lia.
    rewrite (f32_at_set_ne _ _ (index * 4)) by lia.
    rewrite (f32_at_set_ne _ _ (index * 4)) by lia.
    rewrite (f32_at_set_ne _ _ (index * 4)) by lia.
    rewrite (f32_at_set_eq _ (index * 4)) by lia.
    rewrite (f32_at_set_ne _ _ (index * 4 + 1)) by lia.
    rewrite (f32_at_set_ne _ _ (index * 4 + 1)) by lia.
    rewrite (f32_at_set_eq _ (index * 4 + 1)) by (rewrite !f32_length_set; lia).
    rewrite (f32_at_set_ne _ _ (index * 4 + 2)) by lia.
    rewrite (f32_at_set_eq _ (index * 4 + 2)) by (rewrite !f32_length_set; lia).
    rewrite (f32_at_set_eq _ (index * 4 + 3)) by (rewrite !f32_length_set; lia).
    by rewrite binary32_1.
  - cbn zeta. cbn [forEach_word].
    replace (index + Z.of_nat (S k)) with ((index + 1) + Z.of_nat k) by lia.
    apply (IH (index + 1)); [done|lia|].
    rewrite !f32_length_set. lia.
Qed.

Lemma Math_max_Some (xs : list Z) :
  xs ≠ [] → ∃ m, Math_max xs = Some m ∧ m ∈ xs ∧ Forall (λ x, x ≤ m) xs.
Proof.
  induction xs as [|x xs IH]; [done|]. intros _. simpl.
  destruct xs as [|y xs].
  - exists x. split; [done|]. split; [left|]. repeat constructor. lia.
  - destruct IH as (m & Hm & Hin & Hall); [done|].
    change (foldr _ None (y :: xs)) with (Math_max (y :: xs)). rewrite Hm.
    exists (x `max` m). split; [done|]. split.
    + destruct (Z.max_spec x m) as [[_ ->]|[_ ->]]; [by right|left].
    + constructor; [lia|]. eapply Forall_impl; [exact Hall|]. simpl. lia.
Qed.

Lemma binary64_ratio_1 (m : Z) : 1 ≤ m → binary64 (inject_Z m / inject_Z m) = 1%Q.
Proof.
  intros Hm. change 1%Q with (binary64 1). apply round_binary_Qeq.
  unfold Qdiv, Qeq, Qmult, Qinv, inject_Z. destruct m; simpl; lia.
Qed.

Lemma ratio_unit (f m : Z) :
  1 ≤ f → f ≤ m → (0 <= inject_Z f / inject_Z m)%Q ∧ (inject_Z f / inject_Z m <= 1)%Q.
Proof.
  intros Hf Hm.
  assert (0 < inject_Z m)%Q as Hpos.
  { change 0%Q with (inject_Z 0). rewrite <- Zlt_Qlt. lia. }
  split.
  - apply Qle_shift_div_l; [done|]. rewrite Qmult_0_l.
    change 0%Q with (inject_Z 0). rewrite <- Zle_Qle. lia.
  - apply Qle_shift_div_r; [done|]. rewrite Qmult_1_l. by rewrite <- Zle_Qle.
Qed.

(** C7 (amended): after an update that reached the texture, the cell of the
    word at rank [rank] (inside the grid) of a snapshot whose frequencies
    are at least 1 holds, each rounded to binary32 by the store: channel 0 =
    its frequency divided by the greatest frequency of the snapshot, which
    is exactly 1 when the word has that greatest frequency (as the word of
    cell 0 of a sorted snapshot has); channel 1 = its hue; channel 2 = its
    saturation; channel 3 = 1.  The colours are taken where every Word has
    them, the hue in [0, 1) and the saturation in [0.5, 1]; all four
    channels then lie in [0, 1]. *)
Theorem encoded_cell h (newWords : list ref) (tex : option Float32Array)
    (t : Float32Array) (rank : nat) (r : ref) :
  updateWordData h newWords tex = Some t →
  newWords !! rank = Some r →
  Z.of_nat rank < TEXTURE_SIZE * TEXTURE_SIZE →
  Forall (λ r', 1 ≤ frequency (load h r')) newWords →
  coloured (load h r) →
  ∃ m, Math_max ((λ r', frequency (load h r')) <$> newWords) = Some m
       ∧ Forall (λ r', frequency (load h r') ≤ m) newWords
       ∧ Exists (λ r', frequency (load h r') = m) newWords
       ∧ f32_at t (Z.of_nat rank * 4)
         = binary32 (binary64 (inject_Z (frequency (load h r)) / inject_Z m))
       ∧ f32_at t (Z.of_nat rank * 4 + 1) = binary32 (hue (load h r))
       ∧ f32_at t (Z.of_nat rank * 4 + 2) = binary32 (saturation (load h r))
       ∧ f32_at t (Z.of_nat rank * 4 + 3) = 1%Q
       ∧ (frequency (load h r) = m → f32_at t (Z.of_nat rank * 4) = 1%Q)
       ∧ Forall (λ ch, (0 <= f32_at t (Z.of_nat rank * 4 + ch))%Q
                       ∧ (f32_at t (Z.of_nat rank * 4 + ch) <= 1)%Q) [0; 1; 2; 3].
Proof.
  intros Hup Hr Hrank Hpos (Hh0 & Hh1 & Hs0 & Hs1). unfold updateWordData in Hup.
  destruct tex as [t0|]; [|done]. injection Hup as <-.
  destruct (Math_max_Some ((λ r', frequency (load h r')) <$> newWords))
    as (m & Hm & Hin & Hall).
  { intros Hnil. apply fmap_nil_inv in Hnil. by subst. }
  exists m. split; [done|]. split; [by rewrite Forall_fmap in Hall|]. split.
  { apply list_elem_of_fmap in Hin as (r' & -> & Hr'). apply Exists_exists. eauto. }
  destruct (forEach_cell h newWords newWords 0
              (Float32Array_new (TEXTURE_SIZE * TEXTURE_SIZE * 4)) rank r Hr)
    as (H0 & H1 & H2 & H3); [lia|simpl; lia|].
  rewrite Hm in H0. cbn zeta in *.
  replace ((0 + Z.of_nat rank) * 4) with (Z.of_nat rank * 4) in * by lia.
  repeat (split; [done|]).
  assert (1 ≤ frequency (load h r)) as Hf.
  { rewrite Forall_forall in Hpos. apply Hpos. by eapply list_elem_of_lookup_2. }
  assert (frequency (load h r) ≤ m) as Hle.
  { rewrite Forall_fmap, Forall_forall in Hall.
    apply (Hall r). by eapply list_elem_of_lookup_2. }
  split.
  - intros Heq. rewrite H0, Heq, binary64_ratio_1 by lia. apply binary32_1.
  - destruct (ratio_unit _ _ Hf Hle) as [Hr0 Hr1].
    destruct (round_binary_unit 53 (-1074) _ ltac:(lia) ltac:(lia) Hr0 Hr1)
      as (Hd0 & Hd1 & _).
    destruct (round_binary_unit 24 (-149) _ ltac:(lia) ltac:(lia) Hd0 Hd1)
      as (Hc0 & Hc1 & _).
    destruct (round_binary_unit 24 (-149) (hue (load h r)) ltac:(lia) ltac:(lia) Hh0)
      as (Hb0 & Hb1 & _); [by apply Qlt_le_weak|].
    destruct (round_binary_unit 24 (-149) (saturation (load h r)) ltac:(lia) ltac:(lia))
      as (Hb2 & Hb3 & _); [|done|].
    { apply Qle_trans with (0.5)%Q; [by vm_compute|done]. }
    repeat constructor.
    + rewrite Z.add_0_r, H0. exact Hc0.
    + rewrite Z.add_0_r, H0. exact Hc1.
    + rewrite H1. exact Hb0.
    + rewrite H1. exact Hb1.
    + rewrite H2. exact Hb2.
    + rewrite H2. exact Hb3.
    + by rewrite H3.
    + by rewrite H3.
Qed.

(** C5 (amended): an update that reaches the texture uploads a freshly
    created, zero-filled buffer over the whole grid: every channel of the
    grid at an index at or beyond four times the word count holds 0
    afterwards, whatever the texture held before. *)
Theorem unused_cells_are_zeroed h (newWords : list ref) (tex : option Float32Array)
    (t : Float32Array) i :
  updateWordData h newWords tex = Some t →
  4 * Z.of_nat (length newWords) ≤ i < TEXTURE_SIZE * TEXTURE_SIZE * 4 →
  f32_length t = TEXTURE_SIZE * TEXTURE_SIZE * 4 ∧ f32_at t i = 0%Q.
Proof.
  intros Hup Hi. unfold updateWordData in Hup.
  destruct tex as [t0|]; [|done]. injection Hup as <-.
  rewrite forEach_length, forEach_outside by lia. done.
Qed.

End Encoder.

(** ** The texture the mounting effect leaves *)

Section Mount.
Variable Math_random : nat → Q.

Lemma init_loop_length fuel i d a :
  f32_length (init_loop Math_random fuel i d a).1 = f32_length a.
Proof.
  revert i d a. induction fuel as [|fuel IH]; intros i d a; simpl; [done|].
  destruct (i <? f32_length a); [|done]. by rewrite IH, !f32_length_set.
Qed.

Lemma init_loop_below fuel i d a j :
  j < i → f32_at (init_loop Math_random fuel i d a).1 j = f32_at a j.
Proof.
  revert i d a. induction fuel as [|fuel IH]; intros i d a Hj; simpl; [done|].
  destruct (i <? f32_length a); [|done].
  rewrite IH by lia. rewrite !f32_at_set_ne by lia. done.
Qed.

(** Channel 3 of every cell the loop reaches is 1. *)
Lemma init_loop_alpha fuel i d a (k : nat) :
  0 ≤ i → (k < fuel)%nat → i + 4 * Z.of_nat k + 3 < f32_length a →
  f32_at (init_loop Math_random fuel i d a).1 (i + 4 * Z.of_nat k + 3) = 1%Q.
Proof.
  revert i d a k. induction fuel as [|fuel IH]; intros i d a k Hi Hk Hlen; [lia|].
  cbn [init_loop]. destruct (Z.ltb_spec i (f32_length a)); [|lia].
  destruct k as [|k].
  - rewrite init_loop_below by lia.
    replace (i + 4 * Z.of_nat 0 + 3) with (i + 3) in * by lia.
    rewrite f32_at_set_eq by (rewrite !f32_length_set; lia). apply binary32_1.
  - replace (i + 4 * Z.of_nat (S k) + 3) with ((i + 4) + 4 * Z.of_nat k + 3) by lia.
    apply IH; [lia|lia|]. rewrite !f32_length_set. lia.
Qed.

Lemma texture_mount st :
  texture (mount Math_random true st) = Some (initial_wordData Math_random (draws st)).1.
Proof. reflexivity. Qed.

Lemma initial_wordData_alpha d (cell : nat) :
  Z.of_nat cell < TEXTURE_SIZE * TEXTURE_SIZE →
  f32_at (initial_wordData Math_random d).1 (Z.of_nat cell * 4 + 3) = 1%Q.
Proof.
  intros Hcell. unfold initial_wordData. cbv zeta.
  replace (Z.of_nat cell * 4 + 3) with (0 + 4 * Z.of_nat cell + 3) by lia.
  apply init_loop_alpha; [done| |].
  - change (f32_length (Float32Array_new (TEXTURE_SIZE * TEXTURE_SIZE * 4)))
      with (TEXTURE_SIZE * TEXTURE_SIZE * 4).
    apply Nat2Z.inj_lt. rewrite Z2Nat.id by done. lia.
  - change (f32_length (Float32Array_new (TEXTURE_SIZE * TEXTURE_SIZE * 4)))
      with (TEXTURE_SIZE * TEXTURE_SIZE * 4). lia.
Qed.

(** The snapshots [addWords] hands to the encoder meet what [encoded_cell]
    asks for: frequencies of at least 1 and ranks inside the grid. *)
Lemma reachable_encodable newWords st :
  reachable Math_random st →
  texture (addWords Math_random newWords st)
  = updateWordData (heap (addWords Math_random newWords st))
      (words (addWords Math_random newWords st)) (texture st)
  ∧ Forall (λ r, 1 ≤ frequency (load (heap (addWords Math_random newWords st)) r))
      (words (addWords Math_random newWords st))
  ∧ Z.of_nat (length (words (addWords Math_random newWords st)))
    < TEXTURE_SIZE * TEXTURE_SIZE
  ∧ StronglySorted (ge_key (λ r, frequency (load (heap (addWords Math_random newWords st)) r)))
      (words (addWords Math_random newWords st)).
Proof.
  intros Hst%reachable_inv. pose proof (addWords_inv Math_random newWords st Hst) as Hst'.
  split; [done|]. split; [|split].
  - apply Forall_forall. intros r Hr.
    destruct (si_live _ Hst' r Hr) as (w & Hw & _ & Hpos).
    by rewrite (load_lookup _ _ _ Hw).
  - pose proof (si_size _ Hst'). unfold MAX_WORDS, TEXTURE_SIZE in *. lia.
  - apply (si_sorted _ Hst').
Qed.

End Mount.

(** * Runs on concrete inputs *)

Local Open Scope string_scope.
Local Open Scope Z_scope.

(** A map of [count] Words named by the numerals 0 .. [count - 1] meets the
    invariant of the loop. *)
Lemma numbered_loop_inv (count : nat) :
  Z.of_nat count ≤ MAX_WORDS →
  loop_inv
    {| l_heap := (λ r : nat, {| word := pretty r; frequency := 1; hue := 1 # 2;
                                saturation := 3 # 4; nextWords := [("0", 1)] |})
                   <$> seq 0 count;
       wordMap := (λ r : nat, (pretty r, r)) <$> seq 0 count;
       l_draws := 0 |}.
Proof.
  intros Hcount. split; cbn [l_heap wordMap l_draws].
  - unfold JsMap.keys. rewrite <- list_fmap_compose.
    apply NoDup_fmap_2; [|apply NoDup_seq].
    intros x y H. by apply (inj pretty).
  - unfold JsMap.values. rewrite <- list_fmap_compose.
    apply NoDup_fmap_2; [|apply NoDup_seq]. by intros x y H.
  - intros k r (x & [= -> ->] & Hx)%list_elem_of_fmap.
    apply elem_of_seq in Hx. eexists. split.
    + rewrite list_lookup_fmap, lookup_seq_lt by lia. reflexivity.
    + split; [done|]. split; [reflexivity|]. simpl. lia.
  - unfold JsMap.size. rewrite length_fmap, length_seq. done.
Qed.

Lemma half_unit d : (0 <= half d)%Q ∧ (half d < 1)%Q.
Proof. unfold half. split; lra. Qed.

(** C6 (amended): from the empty registry, feeding ["a","b","a","b"] twice
    and then ["a","b"] once leaves two Words, whatever the random source:
    "a" with frequency 5 and successors {"b": 5}, and "b" with frequency 2
    and successors {"a": 2} ("b" is the current token of the pair
    ("b","a") of each four-token batch). *)
Theorem abab_twice_then_ab (Math_random : nat → Q) :
  (λ w, (word w, frequency w, nextWords w))
    <$> snapshot (addWords Math_random ["a"; "b"]
                    (addWords Math_random abab
                       (addWords Math_random abab initial_state)))
  = [("a", 5, [("b", 5)]); ("b", 2, [("a", 2)])].
Proof. vm_compute. reflexivity. Qed.

(** The run of C6 on the code: "a" ends with frequency 5, not 3, and "b" is
    a Word of its own. *)
Lemma abab_counts_five_and_b_is_a_word :
  let st := addWords half ["a"; "b"] (addWords half abab (addWords half abab initial_state)) in
  adjacent_pairs abab = [("a", "b"); ("b", "a"); ("a", "b")]
  ∧ frequency <$> find_word (heap st) (words st) (Some "a") = Some 5
  ∧ nextWords <$> find_word (heap st) (words st) (Some "a") = Some [("b", 5)]
  ∧ frequency <$> find_word (heap st) (words st) (Some "b") = Some 2
  ∧ nextWords <$> find_word (heap st) (words st) (Some "b") = Some [("a", 2)].
Proof. vm_compute. repeat split. Qed.

(** The run against C3: "a" is created before "b" (the heap is in creation
    order), both reach frequency 2, and "b" stands first. *)
Lemma tie_keeps_previous_order_not_insertion_order :
  let st1 := addWords half ["a"; "b"; "b"; "b"] initial_state in
  let st2 := addWords half ["a"; "c"] st1 in
  word <$> heap st2 = ["a"; "b"]
  ∧ (λ w, (word w, frequency w)) <$> snapshot st1 = [("b", 2); ("a", 1)]
  ∧ (λ w, (word w, frequency w)) <$> snapshot st2 = [("b", 2); ("a", 2)]
  ∧ words st2 = [1%nat; 0%nat].
Proof. vm_compute. repeat split. Qed.

(** The runs against C4: on the empty registry the phrase "a a" creates the
    Word "a" with successor "a", and a walk over the updated registry would
    go on from it, but [processInput] returns nothing; for the phrase "a b"
    the walk starts from "b", which names no Word even after the update. *)
Lemma seed_words_are_not_seen_by_the_walk :
  let run := processInput half true ["a"; "a"] initial_state in
  let run' := processInput half true ["a"; "b"] initial_state in
  run.2 = []
  ∧ (processInput half false ["a"; "a"] initial_state).2 = []
  ∧ word <$> snapshot run.1 = ["a"]
  ∧ walk 10 (heap run.1) (words run.1) (Some "a") []
    = ["a"; "a"; "a"; "a"; "a"; "a"; "a"; "a"; "a"; "a"]
  ∧ run'.2 = []
  ∧ word <$> snapshot run'.1 = ["a"]
  ∧ last (take 10 ["a"; "b"]) = Some "b"
  ∧ find_word (heap run'.1) (words run'.1) (Some "b") = None.
Proof. vm_compute. repeat split. Qed.

(** The run against C5: after mounting, channel 3 of cell 1 holds 1; the
    first update, with one Word, leaves 0 there. *)
Lemma first_update_zeroes_the_initial_cells :
  let st0 := mount half true initial_state in
  let st1 := addWords half ["a"; "b"] st0 in
  ∃ t0 t1, texture st0 = Some t0 ∧ texture st1 = Some t1
           ∧ length (words st1) = 1%nat
           ∧ f32_at t0 7 = 1%Q ∧ f32_at t1 7 = 0%Q.
Proof.
  cbv zeta. eexists _, _. split; [apply texture_mount|].
  split; [reflexivity|]. split; [reflexivity|]. split; [|reflexivity].
  apply (initial_wordData_alpha half _ 1). done.
Qed.

(** The run against C7: with "a" of frequency 1 under a greatest frequency
    of 3, channel 0 of the cell of "a" holds 11184811 / 2^25, the binary32
    number nearest to 1/3, and not 1/3. *)
Lemma encoded_ratio_is_rounded :
  let st0 := mount half true initial_state in
  let st1 := addWords half ["a"; "b"; "b"; "b"; "b"] st0 in
  ∃ t, texture st1 = Some t
       ∧ word <$> snapshot st1 = ["b"; "a"]
       ∧ frequency <$> snapshot st1 = [3; 1]
       ∧ f32_at t 4 = (11184811 # 33554432)%Q
       ∧ ¬ (f32_at t 4 == inject_Z 1 / inject_Z 3)%Q.
Proof.
  cbv zeta. eexists. split; [reflexivity|].
  split; [reflexivity|]. split; [reflexivity|].
  set (v := f32_at _ 4).
  assert (v = (11184811 # 33554432)%Q) as E by reflexivity.
  split; [exact E|]. rewrite E. vm_compute. discriminate.
Qed.

(** C8 (the code departs from the claim): one registry, built from "light
    based neural network light based system", and one phrase, "based system
    based", give two outputs.  When React runs the queued updater inside
    [setWords], before the walk, the walk reads the Word "based" after the
    pair (based, system) was counted and stops at "system", which the
    rendered array does not hold; when React defers the updater the walk
    reads the Word as rendered and follows "neural" for ten steps.  The
    state after the call is the same in both cases. *)
Theorem walk_output_depends_on_update_timing :
  let st := addWords half light_based initial_state in
  let phraseWords := ["based"; "system"; "based"] in
  (processInput half true phraseWords st).2 = ["system"]
  ∧ (processInput half false phraseWords st).2
    = ["neural"; "network"; "light"; "based"; "neural"; "network"; "light"; "based";
       "neural"; "network"]
  ∧ (processInput half true phraseWords st).1 = (processInput half false phraseWords st).1
  ∧ nextWords <$> snapshot st
    = [[("based", 2)]; [("neural", 1); ("system", 1)]; [("network", 1)]; [("light", 1)]].
Proof. cbv zeta. repeat split; reflexivity. Qed.

(** ** The theorems at concrete inputs *)

Lemma frequency_is_sum_of_successor_counts_at_abab :
  Forall (λ w, frequency w = sum_counts (nextWords w))
    (snapshot (addWords half abab initial_state)).
Proof.
  apply (frequency_is_sum_of_successor_counts half).
  apply reach_addWords, reach_initial.
Defined.

Lemma registry_bounded_and_monotone_at_abab :
  let st := addWords half abab initial_state in
  let st' := addWords half ["b"; "c"; "a"] st in
  MAX_WORDS = 100000
  ∧ Z.of_nat (length (snapshot st)) ≤ MAX_WORDS
  ∧ NoDup (word <$> snapshot st)
  ∧ Z.of_nat (length (snapshot st')) ≤ MAX_WORDS
  ∧ (length (snapshot st) ≤ length (snapshot st'))%nat
  ∧ Forall (λ r, r ∈ words st'
                 ∧ word (load (heap st') r) = word (load (heap st) r)
                 ∧ hue (load (heap st') r) = hue (load (heap st) r)
                 ∧ saturation (load (heap st') r) = saturation (load (heap st) r))
           (words st).
Proof.
  apply (registry_bounded_and_monotone half ["b"; "c"; "a"]).
  apply reach_addWords, reach_initial.
Defined.

Lemma addWords_runs_pair_contract_at_abab :
  let st := addWords half ["a"; "b"] initial_state in
  ∃ s', contract_run half (adjacent_pairs abab) (loop_start st) s'
        ∧ addWords_loop half (length abab) abab 0 (loop_start st) = s'
        ∧ heap (addWords half abab st) = l_heap s'
        ∧ draws (addWords half abab st) = l_draws s'
        ∧ words (addWords half abab st) ≡ₚ JsMap.values (wordMap s').
Proof.
  apply (addWords_runs_pair_contract half half_unit abab).
  apply reach_addWords, reach_initial.
Defined.

Lemma snapshot_order_at_tie :
  let st := addWords half ["a"; "b"; "b"; "b"] initial_state in
  let st' := addWords half ["a"; "c"] st in
  StronglySorted (λ w1 w2, frequency w2 ≤ frequency w1) (snapshot st')
  ∧ (∃ created : nat,
       words st' = Array_sort (by_frequency (heap st'))
                     (words st ++ seq (length (heap st)) created)%list
       ∧ ∀ f,
           filter (λ r, has_key (λ r, frequency (load (heap st') r)) f r = true) (words st')
           = filter (λ r, has_key (λ r, frequency (load (heap st') r)) f r = true)
               (words st ++ seq (length (heap st)) created)%list)
  ∧ Array_sort (by_frequency (heap st')) (words st') = words st'
  ∧ snapshot (addWords half [] st') = snapshot st'.
Proof.
  apply (snapshot_order half ["a"; "c"]).
  apply reach_addWords, reach_initial.
Defined.

Lemma processInput_ingests_then_walks_from_last_at_ab :
  (processInput half true ["a"; "b"] initial_state).1
    = addWords half (take 10 ["a"; "b"]) initial_state
  ∧ (length (processInput half true ["a"; "b"] initial_state).2 ≤ 10)%nat
  ∧ chained (λ c, c ∈ names (addWords half (take 10 ["a"; "b"]) initial_state))
      (last (take 10 ["a"; "b"]))
      (processInput half true ["a"; "b"] initial_state).2
  ∧ (∀ c, last (take 10 ["a"; "b"]) = Some c →
       c ∉ names (addWords half (take 10 ["a"; "b"]) initial_state) →
       (processInput half true ["a"; "b"] initial_state).2 = [])
  ∧ (last (take 10 ["a"; "b"]) = None →
     (processInput half true ["a"; "b"] initial_state).2 = []).
Proof.
  apply (processInput_ingests_then_walks_from_last half true ["a"; "b"]).
  apply reach_initial.
Defined.

Lemma walk_reads_rendered_words_at_light :
  let st := addWords half light_based initial_state in
  (processInput half true ["light"; "speed"] st).1
    = addWords half (take 10 ["light"; "speed"]) st
  ∧ chained (λ c, c ∈ names st) (last (take 10 ["light"; "speed"]))
      (processInput half true ["light"; "speed"] st).2
  ∧ (∀ c, last (take 10 ["light"; "speed"]) = Some c → c ∉ names st →
       (processInput half true ["light"; "speed"] st).2 = [])
  ∧ (words st = [] → (processInput half true ["light"; "speed"] st).2 = []).
Proof.
  apply (walk_reads_rendered_words half true ["light"; "speed"]).
  apply reach_addWords, reach_initial.
Defined.

Lemma full_registry_still_counts_at_capacity :
  let newWords := ["7"; "never"; "7"; "8"; "7"; "never"] in
  wordMap (addWords_loop half (length newWords) newWords 0 full_loop_state)
  = wordMap full_loop_state
  ∧ l_draws (addWords_loop half (length newWords) newWords 0 full_loop_state)
    = l_draws full_loop_state
  ∧ (∀ c w, registry_get full_loop_state c = Some w →
       ∃ w', registry_get (addWords_loop half (length newWords) newWords 0 full_loop_state) c
             = Some w'
             ∧ word w' = word w ∧ hue w' = hue w ∧ saturation w' = saturation w
             ∧ frequency w' = frequency w + current_count c (adjacent_pairs newWords)
             ∧ ∀ n, JsMap.get n (nextWords w')
                    = if pair_count c n (adjacent_pairs newWords) =? 0
                      then JsMap.get n (nextWords w)
                      else Some (default 0 (JsMap.get n (nextWords w))
                                 + pair_count c n (adjacent_pairs newWords)))
  ∧ (∀ c, registry_get full_loop_state c = None →
       registry_get (addWords_loop half (length newWords) newWords 0 full_loop_state) c
       = None).
Proof.
  apply (full_registry_still_counts half ["7"; "never"; "7"; "8"; "7"; "never"]
           full_loop_state).
  - apply numbered_loop_inv. rewrite Z2Nat.id by done. done.
  - unfold JsMap.size, full_loop_state, wordMap.
    rewrite length_fmap, length_seq. apply Z2Nat.id. unfold MAX_WORDS. lia.
Defined.

Lemma encoded_cell_at_rank_1 :
  let st := addWords half ["a"; "b"; "b"; "b"] initial_state in
  let t := forEach_word (heap st) (words st) (words st) 0
             (Float32Array_new (TEXTURE_SIZE * TEXTURE_SIZE * 4)) in
  ∃ m, Math_max ((λ r', frequency (load (heap st) r')) <$> words st) = Some m
       ∧ Forall (λ r', frequency (load (heap st) r') ≤ m) (words st)
       ∧ Exists (λ r', frequency (load (heap st) r') = m) (words st)
       ∧ f32_at t (Z.of_nat 1 * 4)
         = binary32 (binary64 (inject_Z (frequency (load (heap st) 0%nat)) / inject_Z m))
       ∧ f32_at t (Z.of_nat 1 * 4 + 1) = binary32 (hue (load (heap st) 0%nat))
       ∧ f32_at t (Z.of_nat 1 * 4 + 2) = binary32 (saturation (load (heap st) 0%nat))
       ∧ f32_at t (Z.of_nat 1 * 4 + 3) = 1%Q
       ∧ (frequency (load (heap st) 0%nat) = m → f32_at t (Z.of_nat 1 * 4) = 1%Q)
       ∧ Forall (λ ch, (0 <= f32_at t (Z.of_nat 1 * 4 + ch))%Q
                       ∧ (f32_at t (Z.of_nat 1 * 4 + ch) <= 1)%Q) [0; 1; 2; 3].
Proof.
  apply (encoded_cell _ _ (Some (Float32Array_new (TEXTURE_SIZE * TEXTURE_SIZE * 4)))).
  - reflexivity.
  - reflexivity.
  - vm_compute. reflexivity.
  - apply (bool_decide_unpack _). vm_compute. exact I.
  - repeat split; by vm_compute.
Defined.

Lemma unused_cells_are_zeroed_at_cell_2 :
  let st := addWords half ["a"; "b"; "b"; "b"] initial_state in
  let t := forEach_word (heap st) (words st) (words st) 0
             (Float32Array_new (TEXTURE_SIZE * TEXTURE_SIZE * 4)) in
  f32_length t = TEXTURE_SIZE * TEXTURE_SIZE * 4 ∧ f32_at t 8 = 0%Q.
Proof.
  apply (unused_cells_are_zeroed (heap (addWords half ["a"; "b"; "b"; "b"] initial_state))
           (words (addWords half ["a"; "b"; "b"; "b"] initial_state))
           (Some (Float32Array_new (TEXTURE_SIZE * TEXTURE_SIZE * 4)))).
  - reflexivity.
  - split; [vm_compute; discriminate|reflexivity].
Defined.

Local Close Scope string_scope.

(** * Further properties of the registry *)

Section RegistryMore.
Variable Math_random : nat → Q.
Implicit Types (c n k : string) (s : LoopState) (w : WordData) (st : State).

Local Abbreviation body := (addWords_body Math_random).
Local Abbreviation run_pairs := (foldl (λ s p, addWords_body Math_random p.1 p.2 s)).

(** A property of Words that the update of a Word keeps and a new Word has
    holds of every object of the heap. *)
Lemma body_heap_Forall (P : WordData → Prop) c n s :
  (∀ n' w, P w → P (record_next n' w)) →
  (∀ d, P {| word := c; frequency := 1; hue := Math_random d;
             saturation := (0.5 + Math_random (S d) * 0.5)%Q;
             nextWords := [(n, 1)] |}) →
  Forall P (l_heap s) → Forall P (l_heap (body c n s)).
Proof.
  intros Hupd Hnew Hh.
  destruct (body_case c n s) as [[r H]|[[H Hlt]|[H Hge]]].
  - rewrite (body_existing _ _ _ _ _ H). simpl. apply Forall_alter; [done|]. auto.
  - rewrite (body_create _ _ _ _ H Hlt). simpl. apply Forall_app. split; [done|].
    by repeat constructor.
  - by rewrite (body_full _ _ _ _ H Hge).
Qed.

Lemma run_pairs_heap_Forall (P : WordData → Prop) ps s :
  (∀ n' w, P w → P (record_next n' w)) →
  (∀ c n d, P {| word := c; frequency := 1; hue := Math_random d;
                 saturation := (0.5 + Math_random (S d) * 0.5)%Q;
                 nextWords := [(n, 1)] |}) →
  Forall P (l_heap s) → Forall P (l_heap (run_pairs s ps)).
Proof.
  intros Hupd Hnew. revert s. induction ps as [|[c n] ps IH]; intros s Hs; simpl; [done|].
  apply IH. apply body_heap_Forall; auto.
Qed.

Lemma reachable_heap_Forall (P : WordData → Prop) st :
  (∀ n' w, P w → P (record_next n' w)) →
  (∀ c n d, P {| word := c; frequency := 1; hue := Math_random d;
                 saturation := (0.5 + Math_random (S d) * 0.5)%Q;
                 nextWords := [(n, 1)] |}) →
  reachable Math_random st → Forall P (heap st).
Proof.
  intros Hupd Hnew. induction 1 as [|webgl st Hst IH|newWords st Hst IH|eager ph st Hst IH].
  - constructor.
  - by rewrite heap_mount.
  - rewrite (addWords_eq _ _ _ (reachable_inv _ _ Hst)). simpl.
    by apply run_pairs_heap_Forall.
  - change (processInput Math_random eager ph st).1
      with (addWords Math_random (take 10 ph) st).
    rewrite (addWords_eq _ _ _ (reachable_inv _ _ Hst)). simpl.
    by apply run_pairs_heap_Forall.
Qed.

(** The Words of the snapshot are objects of the heap. *)
Lemma snapshot_in_heap st w : state_inv st → w ∈ snapshot st → w ∈ heap st.
Proof.
  intros Hst (r & -> & Hr)%list_elem_of_fmap.
  destruct (si_live _ Hst r Hr) as (w & Hw & _).
  rewrite (load_lookup _ _ _ Hw). by eapply list_elem_of_lookup_2.
Qed.

Lemma reachable_snapshot_Forall (P : WordData → Prop) st :
  (∀ n' w, P w → P (record_next n' w)) →
  (∀ c n d, P {| word := c; frequency := 1; hue := Math_random d;
                 saturation := (0.5 + Math_random (S d) * 0.5)%Q;
                 nextWords := [(n, 1)] |}) →
  reachable Math_random st → Forall P (snapshot st).
Proof.
  intros Hupd Hnew Hst. apply Forall_forall. intros w Hw.
  pose proof (reachable_heap_Forall P st Hupd Hnew Hst) as Hall.
  rewrite Forall_forall in Hall. apply Hall.
  eapply snapshot_in_heap; [|done]. by apply reachable_inv in Hst.
Qed.

Lemma counted_record_next n w : counted w → counted (record_next n w).
Proof.
  intros (Hne & Hnd & Hpos). split; [|split]; simpl.
  - destruct (nextWords w) as [|[k v] m]; [done|]. simpl.
    by destruct (String.eqb k n).
  - by apply JsMapFacts.NoDup_keys_set.
  - assert (1 ≤ default 0 (JsMap.get n (nextWords w)) + 1) as Hv.
    { destruct (JsMap.get n (nextWords w)) as [v|] eqn:Hg; simpl; [|lia].
      apply JsMapFacts.get_Some_elem in Hg. rewrite Forall_forall in Hpos.
      specialize (Hpos _ Hg). simpl in Hpos. lia. }
    revert Hv. generalize (default 0 (JsMap.get n (nextWords w)) + 1). intros v Hv.
    clear Hne Hnd. induction Hpos as [|[k c] m Hc Hm IH]; simpl.
    + by repeat constructor.
    + destruct (String.eqb k n); constructor; done.
Qed.

(** X3: in every reachable state the successor table of every Word is not
    empty, holds no key twice and only counts of at least 1. *)
Theorem successor_tables_are_counted st :
  reachable Math_random st → Forall counted (snapshot st).
Proof.
  apply reachable_snapshot_Forall.
  - intros. by apply counted_record_next.
  - intros c n d. split; [done|]. split; simpl.
    + apply NoDup_singleton.
    + by repeat constructor.
Qed.

(** X2: while [Math.random()] yields values in [0, 1), every Word of every
    reachable state has its hue in [0, 1) and its saturation in [0.5, 1]. *)
Theorem words_are_coloured st :
  (∀ d, (0 <= Math_random d)%Q ∧ (Math_random d < 1)%Q) →
  reachable Math_random st → Forall coloured (snapshot st).
Proof.
  intros Hunit. apply reachable_snapshot_Forall.
  - intros n w Hw. exact Hw.
  - intros c n d. destruct (Hunit d), (Hunit (S d)).
    unfold coloured. simpl. repeat split; lra.
Qed.

Lemma adjacent_pairs_short (newWords : list string) :
  (length newWords ≤ 1)%nat → adjacent_pairs newWords = [].
Proof. destruct newWords as [|a [|b l]]; simpl; [done|done|lia]. Qed.

Lemma length_adjacent_pairs (newWords : list string) :
  length (adjacent_pairs newWords) = (length newWords - 1)%nat.
Proof.
  induction newWords as [|a l IH]; [done|].
  destruct l as [|b l]; [done|]. cbn [adjacent_pairs length] in *. lia.
Qed.

(** X1: a call of [addWords] with no token or a single token has no pair to
    process: in a reachable state it leaves the heap, the array [words] and
    the cursor of the random source as they were. *)
Theorem addWords_without_pairs newWords st :
  reachable Math_random st → (length newWords ≤ 1)%nat →
  heap (addWords Math_random newWords st) = heap st
  ∧ words (addWords Math_random newWords st) = words st
  ∧ draws (addWords Math_random newWords st) = draws st.
Proof.
  intros Hst%reachable_inv Hlen. rewrite (addWords_eq _ _ _ Hst).
  unfold final_loop. rewrite (adjacent_pairs_short _ Hlen).
  cbv zeta. cbn [foldl heap words draws]. split; [done|]. split; [|done].
  rewrite values_loop_start, by_frequency_descending.
  apply Array_sort_id, (si_sorted _ Hst).
Qed.

(** ** The vocabulary *)

Lemma names_loop_start st : names st = JsMap.keys (wordMap (loop_start st)).
Proof.
  unfold names, snapshot, JsMap.keys. simpl. by rewrite <-!list_fmap_compose.
Qed.

Lemma names_addWords_perm newWords st :
  state_inv st →
  names (addWords Math_random newWords st)
  ≡ₚ JsMap.keys (wordMap (final_loop Math_random newWords st)).
Proof.
  intros Hst. rewrite <-(values_keys _ (final_loop_inv _ newWords st Hst)).
  unfold names, snapshot. rewrite <-list_fmap_compose.
  rewrite (words_addWords_perm _ newWords st Hst).
  by rewrite (addWords_eq _ _ _ Hst).
Qed.

Lemma keys_body c n s :
  JsMap.keys (wordMap (body c n s)) = JsMap.keys (wordMap s)
  ∨ (JsMap.get c (wordMap s) = None
     ∧ JsMap.keys (wordMap (body c n s)) = JsMap.keys (wordMap s) ++ [c]).
Proof.
  destruct (body_case c n s) as [[r H]|[[H Hlt]|[H Hge]]].
  - left. by rewrite (body_existing _ _ _ _ _ H).
  - right. split; [done|]. rewrite (body_create _ _ _ _ H Hlt). simpl.
    unfold JsMap.keys. by rewrite fmap_app.
  - left. by rewrite (body_full _ _ _ _ H Hge).
Qed.

Lemma run_pairs_keys_incl ps s x :
  x ∈ JsMap.keys (wordMap (run_pairs s ps)) →
  x ∈ JsMap.keys (wordMap s) ∨ x ∈ ps.*1.
Proof.
  revert s. induction ps as [|[c n] ps IH]; intros s; simpl; [by left|].
  intros [Hx|Hx]%IH; [|right; by right].
  destruct (keys_body c n s) as [Hk|[_ Hk]]; rewrite Hk in Hx; [by left|].
  apply elem_of_app in Hx as [Hx|Hx%list_elem_of_singleton]; [by left|].
  right. subst. left.
Qed.

Lemma run_pairs_keys_mono ps s x :
  x ∈ JsMap.keys (wordMap s) → x ∈ JsMap.keys (wordMap (run_pairs s ps)).
Proof.
  intros Hx. destruct (run_pairs_extends Math_random ps s) as [(new & -> & _) _].
  unfold JsMap.keys in *. rewrite fmap_app. apply elem_of_app. by left.
Qed.

Lemma size_body c n s :
  JsMap.size (wordMap s) ≤ JsMap.size (wordMap (body c n s)) ≤ JsMap.size (wordMap s) + 1.
Proof.
  destruct (body_case c n s) as [[r H]|[[H Hlt]|[H Hge]]].
  - rewrite (body_existing _ _ _ _ _ H). simpl. lia.
  - rewrite (body_create _ _ _ _ H Hlt). unfold JsMap.size. simpl.
    rewrite length_app. simpl. lia.
  - rewrite (body_full _ _ _ _ H Hge). lia.
Qed.

Lemma run_pairs_size ps s :
  JsMap.size (wordMap s) ≤ JsMap.size (wordMap (run_pairs s ps))
  ≤ JsMap.size (wordMap s) + Z.of_nat (length ps).
Proof.
  revert s. induction ps as [|[c n] ps IH]; intros s; simpl; [lia|].
  pose proof (size_body c n s). pose proof (IH (body c n s)). lia.
Qed.

Lemma key_after_body c n s :
  JsMap.size (wordMap s) < MAX_WORDS → c ∈ JsMap.keys (wordMap (body c n s)).
Proof.
  intros Hlt. destruct (body_case c n s) as [[r H]|[[H _]|[H Hge]]]; [| |lia].
  - rewrite (body_existing _ _ _ _ _ H). simpl.
    destruct (decide (c ∈ JsMap.keys (wordMap s))) as [|Hn]; [done|].
    apply JsMapFacts.get_None in Hn. congruence.
  - rewrite (body_create _ _ _ _ H Hlt). simpl. unfold JsMap.keys.
    rewrite fmap_app. apply elem_of_app. right. left.
Qed.

Lemma run_pairs_currents ps s c :
  JsMap.size (wordMap s) + Z.of_nat (length ps) ≤ MAX_WORDS →
  c ∈ ps.*1 → c ∈ JsMap.keys (wordMap (run_pairs s ps)).
Proof.
  revert s. induction ps as [|[c0 n0] ps IH]; intros s Hroom Hc; simpl in *.
  { by apply elem_of_nil in Hc. }
  apply elem_of_cons in Hc as [->|Hc].
  - apply run_pairs_keys_mono, key_after_body. lia.
  - apply IH; [|done]. pose proof (size_body c0 n0 s). lia.
Qed.

(** X4: the Words after a call of [addWords] are the Words before it and
    current tokens of the batch (a token that only ends the batch creates
    no Word); when the registry has room for one Word per pair, every
    current token names a Word afterwards. *)
Theorem vocabulary_after_addWords newWords st :
  reachable Math_random st →
  Forall (λ x, x ∈ names st ∨ x ∈ currents newWords)
    (names (addWords Math_random newWords st))
  ∧ Forall (λ x, x ∈ names (addWords Math_random newWords st)) (names st)
  ∧ (Z.of_nat (length (words st)) + Z.of_nat (length newWords - 1) ≤ MAX_WORDS →
     Forall (λ c, c ∈ names (addWords Math_random newWords st)) (currents newWords)).
Proof.
  intros Hst%reachable_inv.
  pose proof (names_addWords_perm newWords st Hst) as Hp.
  split; [|split].
  - apply Forall_forall. intros x Hx. rewrite Hp in Hx.
    apply run_pairs_keys_incl in Hx. by rewrite names_loop_start.
  - apply Forall_forall. intros x Hx. rewrite Hp.
    apply run_pairs_keys_mono. by rewrite <-names_loop_start.
  - intros Hroom. apply Forall_forall. intros c Hc. rewrite Hp.
    apply run_pairs_currents; [|done]. rewrite length_adjacent_pairs.
    unfold JsMap.size. simpl. rewrite length_fmap. lia.
Qed.

(** ** The frequency mass *)

Lemma sumZ_app (l1 l2 : list Z) : sumZ (l1 ++ l2) = sumZ l1 + sumZ l2.
Proof. induction l1 as [|x l1 IH]; simpl in *; lia. Qed.

Lemma sumZ_perm (l1 l2 : list Z) : l1 ≡ₚ l2 → sumZ l1 = sumZ l2.
Proof. induction 1; simpl in *; lia. Qed.

Lemma load_alter_ne (f : WordData → WordData) (h : Heap) (r x : ref) :
  x ≠ r → load (alter f r h) x = load h x.
Proof. intros Hne. unfold load. by rewrite list_lookup_alter_ne. Qed.

Lemma load_alter_eq (f : WordData → WordData) (h : Heap) (r : ref) w :
  h !! r = Some w → load (alter f r h) r = f w.
Proof. intros Hr. unfold load. by rewrite list_lookup_alter_eq, Hr. Qed.

Lemma load_snoc (h : Heap) w : load (h ++ [w]) (length h) = w.
Proof. unfold load. by rewrite list_lookup_middle. Qed.

Lemma mass_alter_other n (h : Heap) (r : ref) (l : list ref) :
  r ∉ l →
  sumZ ((λ x, frequency (load (alter (record_next n) r h) x)) <$> l)
  = sumZ ((λ x, frequency (load h x)) <$> l).
Proof.
  induction l as [|x l IH]; [done|]. rewrite not_elem_of_cons. intros [Hx Hl].
  csimpl. rewrite load_alter_ne by done. rewrite IH by done. done.
Qed.

Lemma mass_alter n (h : Heap) (r : ref) w (l : list ref) :
  NoDup l → r ∈ l → h !! r = Some w →
  sumZ ((λ x, frequency (load (alter (record_next n) r h) x)) <$> l)
  = sumZ ((λ x, frequency (load h x)) <$> l) + 1.
Proof.
  intros Hnd Hr Hw. induction Hnd as [|x l Hx Hnd IH]; [by apply elem_of_nil in Hr|].
  csimpl. apply elem_of_cons in Hr as [->|Hr].
  - rewrite (load_alter_eq _ _ _ _ Hw), mass_alter_other by done.
    rewrite (load_lookup _ _ _ Hw). simpl. lia.
  - rewrite load_alter_ne by (intros ->; done). rewrite IH by done. lia.
Qed.

Lemma mass_body c n s :
  loop_inv s →
  loop_mass s ≤ loop_mass (body c n s) ≤ loop_mass s + 1
  ∧ (JsMap.size (wordMap s) < MAX_WORDS → loop_mass (body c n s) = loop_mass s + 1).
Proof.
  intros Hs. unfold loop_mass.
  destruct (body_case c n s) as [[r H]|[[H Hlt]|[H Hge]]].
  - rewrite (body_existing _ _ _ _ _ H). simpl.
    pose proof (JsMapFacts.get_Some_elem _ _ _ H) as Hin.
    destruct (li_live _ Hs _ _ Hin) as (w & Hw & _).
    rewrite (mass_alter n _ r w); [lia|apply (li_refs _ Hs)| |done].
    unfold JsMap.values. apply list_elem_of_fmap. by exists (c, r).
  - rewrite (body_create _ _ _ _ H Hlt). simpl. unfold JsMap.values.
    rewrite !fmap_app, sumZ_app. csimpl. rewrite load_snoc. simpl.
    replace (sumZ ((λ r, frequency (load (l_heap s ++ _) r)) <$> (wordMap s).*2))
      with (sumZ ((λ r, frequency (load (l_heap s) r)) <$> (wordMap s).*2)); [lia|].
    f_equal. apply list_fmap_ext. intros i r Hi.
    apply list_elem_of_lookup_2, list_elem_of_fmap in Hi as ([k r'] & -> & Hin).
    destruct (li_live _ Hs _ _ Hin) as (w & Hw & _). simpl.
    unfold load. rewrite lookup_app_l by (by eapply lookup_lt_Some). done.
  - rewrite (body_full _ _ _ _ H Hge). lia.
Qed.

Lemma mass_run_pairs ps s :
  loop_inv s →
  loop_mass s ≤ loop_mass (run_pairs s ps) ≤ loop_mass s + Z.of_nat (length ps)
  ∧ (JsMap.size (wordMap s) + Z.of_nat (length ps) ≤ MAX_WORDS →
     loop_mass (run_pairs s ps) = loop_mass s + Z.of_nat (length ps)).
Proof.
  revert s. induction ps as [|[c n] ps IH]; intros s Hs; simpl; [lia|].
  destruct (mass_body c n s Hs) as [Hle Heq].
  destruct (IH (body c n s) (body_inv _ c n s Hs)) as [Hle' Heq'].
  pose proof (size_body c n s). split; [lia|]. intros Hroom.
  rewrite Heq', Heq by lia. lia.
Qed.

Lemma total_frequency_start st : total_frequency st = loop_mass (loop_start st).
Proof.
  unfold total_frequency, loop_mass, snapshot. rewrite values_loop_start.
  by rewrite <-list_fmap_compose.
Qed.

Lemma total_frequency_final newWords st :
  state_inv st →
  total_frequency (addWords Math_random newWords st)
  = loop_mass (final_loop Math_random newWords st).
Proof.
  intros Hst. unfold total_frequency, loop_mass, snapshot.
  rewrite <-list_fmap_compose. apply sumZ_perm.
  rewrite (words_addWords_perm _ newWords st Hst).
  by rewrite (addWords_eq _ _ _ Hst).
Qed.

Lemma addWords_mass newWords st :
  state_inv st →
  total_frequency st ≤ total_frequency (addWords Math_random newWords st)
    ≤ total_frequency st + Z.of_nat (length newWords - 1)
  ∧ (length (words (addWords Math_random newWords st))
     ≤ length (words st) + (length newWords - 1))%nat
  ∧ (Z.of_nat (length (words st)) + Z.of_nat (length newWords - 1) ≤ MAX_WORDS →
     total_frequency (addWords Math_random newWords st)
     = total_frequency st + Z.of_nat (length newWords - 1)).
Proof.
  intros Hst.
  rewrite (total_frequency_final _ _ Hst), total_frequency_start.
  rewrite <-length_adjacent_pairs.
  destruct (mass_run_pairs (adjacent_pairs newWords) (loop_start st)
              (loop_start_inv _ Hst)) as [Hle Heq].
  split; [exact Hle|]. split.
  - rewrite (words_addWords_perm _ newWords st Hst).
    pose proof (run_pairs_size (adjacent_pairs newWords) (loop_start st)) as Hsz.
    unfold JsMap.size, JsMap.values, final_loop in *. simpl in Hsz.
    rewrite !length_fmap in *. lia.
  - intros Hroom. apply Heq. unfold JsMap.size. simpl. rewrite length_fmap. lia.
Qed.


(** X5: a call of [addWords] on [n] tokens raises the sum of all frequencies
    by at most [n - 1], one for each pair, and creates at most [n - 1]
    Words; when the registry has room for one Word per pair no pair is
    dropped and the sum rises by exactly [n - 1]. *)
Theorem addWords_counts_every_pair_once newWords st :
  reachable Math_random st →
  total_frequency st ≤ total_frequency (addWords Math_random newWords st)
    ≤ total_frequency st + Z.of_nat (length newWords - 1)
  ∧ (length (words (addWords Math_random newWords st))
     ≤ length (words st) + (length newWords - 1))%nat
  ∧ (Z.of_nat (length (words st)) + Z.of_nat (length newWords - 1) ≤ MAX_WORDS →
     total_frequency (addWords Math_random newWords st)
     = total_frequency st + Z.of_nat (length newWords - 1)).
Proof. intros Hst%reachable_inv. by apply addWords_mass. Qed.

End RegistryMore.

(** * Further properties of the walk *)

Lemma last_lookup_cons cur x out :
  last_lookup cur (x :: out) = last_lookup (Some x) out.
Proof.
  unfold last_lookup. destruct out as [|y out]; [done|].
  change (last (x :: y :: out)) with (last (y :: out)).
  destruct (last (y :: out)) eqn:E; [done|]. by apply last_None in E.
Qed.

(** When no Word it finds has an empty successor table, the walk ends
    early only at a word it does not find. *)
Lemma walk_stops (h : Heap) (ws : list ref) :
  (∀ c w, find_word h ws (Some c) = Some w → nextWords w ≠ []) →
  ∀ n cur out,
    ∃ ext, walk n h ws cur out = (out ++ ext)%list
           ∧ (length ext ≤ n)%nat
           ∧ ((length ext < n)%nat → find_word h ws (last_lookup cur ext) = None).
Proof.
  intros Hne. induction n as [|n IH]; intros cur out.
  - exists []. rewrite app_nil_r. simpl. split; [done|]. split; lia.
  - cbn [walk]. destruct (find_word h ws cur) as [wordData|] eqn:Hf.
    2:{ exists []. rewrite app_nil_r. simpl. split; [done|]. split; [lia|done]. }
    assert (nextWords wordData ≠ []) as Hn.
    { destruct cur as [c|]; [by eapply Hne|done]. }
    destruct (nextWords wordData) as [|e m] eqn:Hm; [done|].
    replace (JsMap.size (e :: m) =? 0) with false
      by (symmetry; apply Z.eqb_neq; unfold JsMap.size; simpl; lia).
    unfold JsMap.entries.
    destruct (Array_sort by_count (e :: m)) as [|[nextWord cnt] rest] eqn:Hs.
    { rewrite by_count_descending in Hs. by apply Array_sort_nil in Hs. }
    destruct (IH (Some nextWord) (out ++ [nextWord])%list) as (ext & -> & Hlen & Hstop).
    exists (nextWord :: ext). rewrite <-app_assoc. split; [done|]. simpl.
    split; [lia|]. intros Hlt. rewrite last_lookup_cons. apply Hstop. lia.
Qed.

Section WalkerMore.
Variable Math_random : nat → Q.

Lemma counted_heap st : reachable Math_random st → Forall counted (heap st).
Proof.
  apply reachable_heap_Forall.
  - intros. by apply counted_record_next.
  - intros c n d. split; [done|]. split; simpl; [apply NoDup_singleton|by repeat constructor].
Qed.

(** Through the old array the walk finds Words with a successor, whichever
    heap it reads. *)
Lemma find_word_has_successor eager newWords st c w :
  reachable Math_random st →
  find_word (if eager : bool then heap (addWords Math_random newWords st) else heap st)
    (words st) (Some c) = Some w →
  nextWords w ≠ [].
Proof.
  intros Hreach (r & Hr & -> & _)%find_word_Some.
  pose proof (reachable_inv _ _ Hreach) as Hst.
  destruct (si_live _ Hst r Hr) as (w0 & Hw0 & _).
  assert (∀ st' w', reachable Math_random st' → heap st' !! r = Some w' →
            nextWords (load (heap st') r) ≠ []) as Hgo.
  { intros st' w' Hst' Hw'. rewrite (load_lookup _ _ _ Hw').
    pose proof (counted_heap st' Hst') as Hall.
    apply (Forall_lookup_1 _ _ _ _ Hall Hw'). }
  destruct eager; [|by eapply Hgo].
  destruct (ex_old _ _ (final_loop_extends Math_random newWords st) r w0 Hw0)
    as (w' & Hw' & _).
  apply (Hgo _ w'); [by constructor|]. by rewrite (addWords_eq _ _ _ Hst).
Qed.

(** A word the walk does not find through the old array names no old Word. *)
Lemma find_word_None_rendered eager newWords st c :
  state_inv st →
  find_word (if eager : bool then heap (addWords Math_random newWords st) else heap st)
    (words st) (Some c) = None →
  c ∉ names st.
Proof.
  intros Hst Hf Hin. unfold names, snapshot in Hin.
  rewrite <-list_fmap_compose in Hin.
  apply list_elem_of_fmap in Hin as (r & Hc & Hr). simpl in Hc.
  unfold find_word in Hf.
  destruct (List.find _ (words st)) as [r'|] eqn:Hfind; [done|].
  pose proof (find_none _ _ Hfind r (proj1 (list_elem_of_In _ _) Hr)) as Hno. simpl in Hno.
  apply String.eqb_neq in Hno. apply Hno. subst c. destruct eager; [|done].
  by destruct (old_words_persist Math_random newWords st r Hst Hr) as (_ & Hw & _).
Qed.

(** X6: in a reachable state every Word has a successor, so the test for an
    empty successor table never ends the walk: the output of [processInput]
    has at most 10 words, and when it has fewer the word looked up last (the
    last output word, or the last token of the phrase when there is no
    output) names no Word of the registry before the call. *)
Theorem walk_ends_only_at_unknown_word eager phraseWords st :
  reachable Math_random st →
  (length (processInput Math_random eager phraseWords st).2 ≤ 10)%nat
  ∧ ((length (processInput Math_random eager phraseWords st).2 < 10)%nat →
     Forall (λ c, c ∉ names st)
       (option_list (last_lookup (last (take 10 phraseWords))
                       (processInput Math_random eager phraseWords st).2))).
Proof.
  intros Hreach. pose proof (reachable_inv _ _ Hreach) as Hst.
  unfold processInput. cbn [snd].
  destruct (walk_stops
              (if eager then heap (addWords Math_random (take 10 phraseWords) st)
               else heap st) (words st)) with (n := 10%nat)
    (cur := last (take 10 phraseWords)) (out := @nil string) as (ext & -> & Hlen & Hstop).
  { intros c w. by apply find_word_has_successor. }
  simpl. split; [done|]. intros Hlt. specialize (Hstop Hlt).
  destruct (last_lookup _ ext) as [c|]; simpl; [|constructor].
  repeat constructor. by eapply find_word_None_rendered.
Qed.

End WalkerMore.

(** * Further properties of the encoder *)

Section EncoderMore.
Variable Math_random : nat → Q.

(** The cell [k] iterations ahead of the loop gets three draws and a 1. *)
Lemma init_loop_cell fuel i d (a : Float32Array) (k : nat) :
  0 ≤ i → (k < fuel)%nat → i + 4 * Z.of_nat k + 3 < f32_length a →
  f32_at (init_loop Math_random fuel i d a).1 (i + 4 * Z.of_nat k)
    = binary32 (Math_random (d + 3 * k)%nat)
  ∧ f32_at (init_loop Math_random fuel i d a).1 (i + 4 * Z.of_nat k + 1)
    = binary32 (Math_random (d + 3 * k + 1)%nat)
  ∧ f32_at (init_loop Math_random fuel i d a).1 (i + 4 * Z.of_nat k + 2)
    = binary32 (Math_random (d + 3 * k + 2)%nat).
Proof.
  revert i d a k. induction fuel as [|fuel IH]; intros i d a k Hi Hk Hlen; [lia|].
  cbn [init_loop]. destruct (Z.ltb_spec i (f32_length a)); [|lia].
  destruct k as [|k].
  - rewrite !init_loop_below by lia.
    replace (i + 4 * Z.of_nat 0) with i by lia.
    replace (d + 3 * 0)%nat with d by lia.
    replace (d + 1)%nat with (S d) by lia. replace (d + 2)%nat with (S (S d)) by lia.
    split; [|split].
    + rewrite !f32_at_set_ne by lia. apply f32_at_set_eq. lia.
    + rewrite !f32_at_set_ne by lia. apply f32_at_set_eq. rewrite !f32_length_set. lia.
    + rewrite !f32_at_set_ne by lia. apply f32_at_set_eq. rewrite !f32_length_set. lia.
  - replace (i + 4 * Z.of_nat (S k)) with ((i + 4) + 4 * Z.of_nat k) by lia.
    replace (d + 3 * S k)%nat with ((3 + d) + 3 * k)%nat by lia.
    apply IH; [lia|lia|]. rewrite !f32_length_set. lia.
Qed.

(** The cursor after the loop: three draws for each cell. *)
Lemma init_loop_draws fuel i d (a : Float32Array) (m : nat) :
  f32_length a = i + 4 * Z.of_nat m → (m ≤ fuel)%nat →
  (init_loop Math_random fuel i d a).2 = (d + 3 * m)%nat.
Proof.
  revert i d a m. induction fuel as [|fuel IH]; intros i d a m Hlen Hm.
  - simpl. lia.
  - cbn [init_loop]. destruct (Z.ltb_spec i (f32_length a)).
    + destruct m as [|m]; [lia|]. rewrite (IH _ _ _ m); [lia| |lia].
      rewrite !f32_length_set. lia.
    + simpl. lia.
Qed.

Lemma initial_wordData_draws d :
  (initial_wordData Math_random d).2
  = (d + 3 * Z.to_nat (TEXTURE_SIZE * TEXTURE_SIZE))%nat.
Proof.
  unfold initial_wordData. cbv zeta. apply init_loop_draws.
  - change (f32_length (Float32Array_new (TEXTURE_SIZE * TEXTURE_SIZE * 4)))
      with (TEXTURE_SIZE * TEXTURE_SIZE * 4).
    rewrite Z2Nat.id by done. lia.
  - change (f32_length (Float32Array_new (TEXTURE_SIZE * TEXTURE_SIZE * 4)))
      with (TEXTURE_SIZE * TEXTURE_SIZE * 4).
    apply Nat2Z.inj_le. rewrite !Z2Nat.id by done. unfold TEXTURE_SIZE. lia.
Qed.

Lemma draws_mount st :
  draws (mount Math_random true st) = (initial_wordData Math_random (draws st)).2.
Proof. reflexivity. Qed.

Lemma binary32_unit (q : Q) :
  (0 <= q)%Q → (q <= 1)%Q →
  (0 <= binary32 q)%Q ∧ (binary32 q <= 1)%Q ∧ ((1 # 2 <= q)%Q → (1 # 2 <= binary32 q)%Q).
Proof. intros H0 H1. by apply round_binary_unit. Qed.

(** X7: when the browser gives the mounting effect all it needs, it leaves
    a texture of [TEXTURE_SIZE * TEXTURE_SIZE] cells in which every cell
    holds three consecutive draws of the random source, rounded to binary32,
    in channels 0 to 2 (so a value of [0, 1], and 1 itself for a draw close
    enough to 1) and 1 in channel 3; it draws three numbers per cell, leaves
    the registry as it was and reports no error.  When the effect returns
    early the state is as it was, and an error is reported, each cause with
    its own message, unless it is the canvas that is missing. *)
Theorem mount_fills_texture st (cell : nat) (setup : Setup) :
  (∀ d, (0 <= Math_random d)%Q ∧ (Math_random d < 1)%Q) →
  Z.of_nat cell < TEXTURE_SIZE * TEXTURE_SIZE →
  (∃ t, texture (mount_effect Math_random ready st).1 = Some t
        ∧ f32_length t = TEXTURE_SIZE * TEXTURE_SIZE * 4
        ∧ f32_at t (Z.of_nat cell * 4) = binary32 (Math_random (draws st + 3 * cell)%nat)
        ∧ f32_at t (Z.of_nat cell * 4 + 1)
          = binary32 (Math_random (draws st + 3 * cell + 1)%nat)
        ∧ f32_at t (Z.of_nat cell * 4 + 2)
          = binary32 (Math_random (draws st + 3 * cell + 2)%nat)
        ∧ f32_at t (Z.of_nat cell * 4 + 3) = 1%Q
        ∧ Forall (λ ch, (0 <= f32_at t (Z.of_nat cell * 4 + ch))%Q
                        ∧ (f32_at t (Z.of_nat cell * 4 + ch) <= 1)%Q) [0; 1; 2; 3])
  ∧ Z.of_nat (draws (mount_effect Math_random ready st).1)
    = Z.of_nat (draws st) + 3 * (TEXTURE_SIZE * TEXTURE_SIZE)
  ∧ heap (mount_effect Math_random ready st).1 = heap st
  ∧ words (mount_effect Math_random ready st).1 = words st
  ∧ (mount_effect Math_random ready st).2 = None
  ∧ (setup ≠ ready → (mount_effect Math_random setup st).1 = st)
  ∧ (mount_effect Math_random no_canvas st).2 = None
  ∧ (mount_effect Math_random no_context st).2
    = Some "WebGL is not supported in your browser."%string
  ∧ (mount_effect Math_random no_shaders st).2 = Some "Failed to compile shaders."%string
  ∧ (mount_effect Math_random no_program st).2
    = Some "Failed to create shader program."%string.
Proof.
  intros Hunit Hcell. cbn [mount_effect fst snd].
  assert (∀ d, (0 <= binary32 (Math_random d))%Q ∧ (binary32 (Math_random d) <= 1)%Q)
    as Hb.
  { intros d. destruct (Hunit d) as [Hd0 Hd1].
    destruct (binary32_unit (Math_random d) Hd0) as (H0 & H1 & _);
      [by apply Qlt_le_weak|]. by split. }
  split; [|split; [|split; [apply heap_mount|split; [apply words_mount|split; [done|]]]]].
  3:{ split; [|by repeat split]. intros Hsetup. by destruct setup. }
  - exists (initial_wordData Math_random (draws st)).1.
    split; [apply texture_mount|].
    assert (f32_length (Float32Array_new (TEXTURE_SIZE * TEXTURE_SIZE * 4))
            = TEXTURE_SIZE * TEXTURE_SIZE * 4) as Hlen by reflexivity.
    assert (cell < Z.to_nat (f32_length (Float32Array_new (TEXTURE_SIZE * TEXTURE_SIZE * 4))))%nat
      as Hfuel.
    { rewrite Hlen. apply Nat2Z.inj_lt. rewrite Z2Nat.id by done. lia. }
    split; [unfold initial_wordData; cbv zeta; by rewrite init_loop_length|].
    destruct (init_loop_cell
                (Z.to_nat (f32_length (Float32Array_new (TEXTURE_SIZE * TEXTURE_SIZE * 4))))
                0 (draws st) (Float32Array_new (TEXTURE_SIZE * TEXTURE_SIZE * 4)) cell)
      as (H0 & H1 & H2); [done|exact Hfuel|rewrite Hlen; lia|].
    replace (0 + 4 * Z.of_nat cell) with (Z.of_nat cell * 4) in * by lia.
    pose proof (initial_wordData_alpha Math_random (draws st) cell Hcell) as H3.
    set (t := (initial_wordData Math_random (draws st)).1) in *.
    assert (f32_at t (Z.of_nat cell * 4)
            = binary32 (Math_random (draws st + 3 * cell)%nat)) as H0' by exact H0.
    assert (f32_at t (Z.of_nat cell * 4 + 1)
            = binary32 (Math_random (draws st + 3 * cell + 1)%nat)) as H1' by exact H1.
    assert (f32_at t (Z.of_nat cell * 4 + 2)
            = binary32 (Math_random (draws st + 3 * cell + 2)%nat)) as H2' by exact H2.
    clear H0 H1 H2.
    split; [exact H0'|]. split; [exact H1'|]. split; [exact H2'|]. split; [exact H3|].
    repeat constructor.
    + rewrite Z.add_0_r, H0'. apply Hb.
    + rewrite Z.add_0_r, H0'. apply Hb.
    + rewrite H1'. apply Hb.
    + rewrite H1'. apply Hb.
    + rewrite H2'. apply Hb.
    + rewrite H2'. apply Hb.
    + by rewrite H3.
    + by rewrite H3.
  - rewrite draws_mount, initial_wordData_draws.
    rewrite Nat2Z.inj_add, Nat2Z.inj_mul, Z2Nat.id by done. lia.
Qed.

Lemma coloured_heap st :
  (∀ d, (0 <= Math_random d)%Q ∧ (Math_random d < 1)%Q) →
  reachable Math_random st → Forall coloured (heap st).
Proof.
  intros Hunit. apply reachable_heap_Forall.
  - intros n w Hw. exact Hw.
  - intros c n d. destruct (Hunit d), (Hunit (S d)).
    unfold coloured. simpl. repeat split; lra.
Qed.

(** X8: while [Math.random()] yields values in [0, 1), the cell that
    [addWords] encodes for the Word at any rank holds a channel 0 in
    [0, 1], a channel 1 in [0, 1] (the store rounds a hue close enough to 1
    up to 1), a channel 2 in [0.5, 1] and 1 in channel 3; channel 0 is
    positive as long as no frequency exceeds 2^53, the range in which the
    counts of the component are exact. *)
Theorem encoded_channels_are_normalised newWords st (t : Float32Array)
    (rank : nat) (r : ref) :
  (∀ d, (0 <= Math_random d)%Q ∧ (Math_random d < 1)%Q) →
  reachable Math_random st →
  texture (addWords Math_random newWords st) = Some t →
  words (addWords Math_random newWords st) !! rank = Some r →
  (0 <= f32_at t (Z.of_nat rank * 4))%Q
  ∧ (f32_at t (Z.of_nat rank * 4) <= 1)%Q
  ∧ (0 <= f32_at t (Z.of_nat rank * 4 + 1))%Q
  ∧ (f32_at t (Z.of_nat rank * 4 + 1) <= 1)%Q
  ∧ (0.5 <= f32_at t (Z.of_nat rank * 4 + 2))%Q
  ∧ (f32_at t (Z.of_nat rank * 4 + 2) <= 1)%Q
  ∧ f32_at t (Z.of_nat rank * 4 + 3) = 1%Q
  ∧ (Forall (λ w, frequency w ≤ 2 ^ 53) (snapshot (addWords Math_random newWords st)) →
     (0 < f32_at t (Z.of_nat rank * 4))%Q).
Proof.
  intros Hunit Hreach Htex Hr.
  assert (reachable Math_random (addWords Math_random newWords st)) as Hreach'
    by by constructor.
  pose proof (reachable_inv _ _ Hreach') as Hst'.
  destruct (reachable_encodable _ newWords st Hreach) as (Hupd & Hpos & Hgrid & _).
  rewrite Hupd in Htex. unfold updateWordData in Htex.
  destruct (texture st) as [t0|]; [|done]. apply (inj Some) in Htex. subst t.
  pose proof (lookup_lt_Some _ _ _ Hr) as Hlt.
  destruct (forEach_cell (heap (addWords Math_random newWords st))
              (words (addWords Math_random newWords st))
              (words (addWords Math_random newWords st)) 0
              (Float32Array_new (TEXTURE_SIZE * TEXTURE_SIZE * 4)) rank r Hr)
    as (H0 & H1 & H2 & H3); [lia|simpl; lia|].
  cbv zeta in H0, H1, H2, H3.
  replace ((0 + Z.of_nat rank) * 4) with (Z.of_nat rank * 4) in * by lia.
  destruct (Math_max_Some ((λ r', frequency (load (heap (addWords Math_random newWords st)) r'))
                             <$> words (addWords Math_random newWords st)))
    as (m & Hm & Hmin & Hall).
  { intros Hnil. apply fmap_nil_inv in Hnil. by rewrite Hnil in Hr. }
  rewrite Hm in H0. rewrite Forall_fmap in Hall.
  pose proof (list_elem_of_lookup_2 _ _ _ Hr) as Hin.
  rewrite Forall_forall in Hall, Hpos.
  destruct (ratio_unit _ m (Hpos r Hin) (Hall r Hin)) as [Hlo Hhi].
  destruct (round_binary_unit 53 (-1074) _ ltac:(lia) ltac:(lia) Hlo Hhi) as (Hd0 & Hd1 & _).
  destruct (binary32_unit _ Hd0 Hd1) as (Hc0 & Hc1 & _).
  destruct (si_live _ Hst' r Hin) as (w & Hw & _).
  pose proof (Forall_lookup_1 _ _ _ _ (coloured_heap _ Hunit Hreach') Hw)
    as (Hh0 & Hh1 & Hs0 & Hs1).
  rewrite (load_lookup _ _ _ Hw) in H1, H2.
  destruct (binary32_unit (hue w) Hh0) as (Hb0 & Hb1 & _); [lra|].
  destruct (binary32_unit (saturation w)) as (_ & Hb2 & Hb3); [lra|done|].
  rewrite H0, H1, H2, H3.
  split; [exact Hc0|]. split; [exact Hc1|]. split; [exact Hb0|]. split; [exact Hb1|].
  split; [apply Qle_trans with (1 # 2)%Q; [by vm_compute|apply Hb3; lra]|].
  split; [exact Hb2|]. split; [done|].
  intros Hsafe.
  assert (m ≤ 2 ^ 53) as Hm53.
  { apply list_elem_of_fmap in Hmin as (r' & -> & Hr').
    rewrite Forall_forall in Hsafe. apply Hsafe. unfold snapshot.
    apply list_elem_of_fmap. eauto. }
  eapply Qlt_le_trans; [apply (pow2_pos (-53))|].
  apply (round_binary_ge_pow2 24 (-149) ltac:(lia) _ (-53)); [|lia].
  apply (round_binary_ge_pow2 53 (-1074) ltac:(lia) _ (-53)); [|lia].
  pose proof (Hpos r Hin) as Hf. pose proof (Hall r Hin) as Hfm.
  assert (1 ≤ m) as Hm1 by (eapply Z.le_trans; [exact Hf|exact Hfm]).
  assert (0 < inject_Z m)%Q as Hmpos.
  { change 0%Q with (inject_Z 0). rewrite <- Zlt_Qlt. lia. }
  apply Qle_shift_div_l; [done|].
  apply Qle_trans with (inject_Z 1).
  - change (2 ^ (-53))%Q with (1 # 9007199254740992)%Q.
    unfold Qle, Qmult, inject_Z. simpl. lia.
  - rewrite <- Zle_Qle. exact Hf.
Qed.

End EncoderMore.

(** * The text functions *)

Section Strings.
Implicit Types (s t p : string) (c : ascii).

Lemma append_nil_l s : EmptyString +:+ s = s.
Proof. reflexivity. Qed.

Lemma append_cons c s t : String c s +:+ t = String c (s +:+ t).
Proof. reflexivity. Qed.

Lemma append_nil_r s : s +:+ EmptyString = s.
Proof. induction s as [|c s IH]; [done|]. by rewrite append_cons, IH. Qed.

Lemma append_assoc s t p : (s +:+ t) +:+ p = s +:+ (t +:+ p).
Proof. induction s as [|c s IH]; [done|]. by rewrite !append_cons, IH. Qed.

Lemma length_append s t : String.length (s +:+ t) = (String.length s + String.length t)%nat.
Proof. induction s as [|c s IH]; [done|]. rewrite append_cons. simpl. by rewrite IH. Qed.

Lemma string_map_append f s t :
  string_map f (s +:+ t) = string_map f s +:+ string_map f t.
Proof. induction s as [|c s IH]; [done|]. rewrite append_cons. simpl. by rewrite IH. Qed.

Lemma all_chars_append q s t :
  all_chars q (s +:+ t) = all_chars q s && all_chars q t.
Proof.
  induction s as [|c s IH]; [done|]. rewrite append_cons. simpl.
  by rewrite IH, andb_assoc.
Qed.

Lemma all_chars_map q f s : all_chars q (string_map f s) = all_chars (λ c, q (f c)) s.
Proof. induction s as [|c s IH]; [done|]. simpl. by rewrite IH. Qed.

Lemma all_chars_true q s : (∀ c, q c = true) → all_chars q s = true.
Proof. intros Hq. induction s as [|c s IH]; [done|]. simpl. by rewrite Hq, IH. Qed.

Lemma all_chars_impl (q1 q2 : ascii → bool) s :
  (∀ c, q1 c = true → q2 c = true) → all_chars q1 s = true → all_chars q2 s = true.
Proof.
  intros Hq. induction s as [|c s IH]; [done|]. simpl.
  intros [H1 H2]%andb_true_iff. by rewrite (Hq _ H1), IH.
Qed.

(** *** [substring] and [endsWith] *)

Lemma substring_all s : String.substring 0 (String.length s) s = s.
Proof. induction s as [|c s IH]; [done|]. simpl. by rewrite IH. Qed.

Lemma substring_append_r p s :
  String.substring (String.length p) (String.length s) (p +:+ s) = s.
Proof.
  induction p as [|c p IH]; [apply substring_all|].
  rewrite append_cons. simpl. exact IH.
Qed.

Lemma substring_split (k : nat) s :
  (k ≤ String.length s)%nat →
  s = String.substring 0 k s +:+ String.substring k (String.length s - k) s.
Proof.
  revert k. induction s as [|c s IH]; intros [|k] Hk; simpl in *; try lia.
  - done.
  - rewrite append_nil_l. by rewrite substring_all.
  - rewrite append_cons. f_equal. apply IH. lia.
Qed.

Lemma endsWith_append p s t :
  String.length s = String.length t → endsWith (p +:+ s) t = String.eqb s t.
Proof.
  intros Hlen. unfold endsWith. rewrite length_append, <- Hlen.
  replace (String.length s <=? String.length p + String.length s)%nat with true
    by (symmetry; apply Nat.leb_le; lia).
  replace (String.length p + String.length s - String.length s)%nat
    with (String.length p) by lia.
  by rewrite substring_append_r.
Qed.

Lemma endsWith_true s t : endsWith s t = true ↔ ∃ p, s = p +:+ t.
Proof.
  split.
  - unfold endsWith. intros [Hle Heq]%andb_true_iff.
    apply Nat.leb_le in Hle. apply String.eqb_eq in Heq.
    exists (String.substring 0 (String.length s - String.length t) s).
    pose proof (substring_split (String.length s - String.length t) s) as Hs.
    replace (String.length s - (String.length s - String.length t))%nat
      with (String.length t) in Hs by lia.
    rewrite Heq in Hs. apply Hs. lia.
  - intros [p ->]. rewrite endsWith_append by done. apply String.eqb_refl.
Qed.

End Strings.

(** *** [split_whitespace] *)

Section Split.
Implicit Types (s t : string) (c : ascii).

Lemma split_whitespace_nonempty s : split_whitespace s ≠ [].
Proof.
  induction s as [|c s IH]; [done|]. simpl. destruct (isSpace c).
  - destruct s as [|c' s']; [done|]. by destruct (isSpace c').
  - by destruct (split_whitespace s).
Qed.

Lemma split_whitespace_space c s :
  isSpace c = true →
  split_whitespace (String c s)
  = if starts_with isSpace s then split_whitespace s
    else EmptyString :: split_whitespace s.
Proof. intros Hc. simpl. rewrite Hc. by destruct s. Qed.

Lemma split_whitespace_char c s :
  isSpace c = false →
  ∃ piece pieces, split_whitespace s = piece :: pieces ∧
    split_whitespace (String c s) = String c piece :: pieces.
Proof.
  intros Hc. simpl. rewrite Hc.
  pose proof (split_whitespace_nonempty s) as Hne.
  destruct (split_whitespace s) as [|piece pieces]; [done|]. eauto.
Qed.

(** Every character of a token is a character of the phrase. *)
Lemma split_whitespace_chars q s :
  all_chars q s = true → Forall (λ t, all_chars q t = true) (split_whitespace s).
Proof.
  induction s as [|c s IH]; [by repeat constructor|].
  intros [Hc Hs]%andb_true_iff. specialize (IH Hs).
  destruct (isSpace c) eqn:Ec.
  - rewrite split_whitespace_space by done.
    destruct (starts_with isSpace s); [done|]. by constructor.
  - destruct (split_whitespace_char c s Ec) as (piece & pieces & E & ->).
    rewrite E in IH. inversion_clear IH as [|? ? Hp Hps].
    constructor; [|done]. simpl. by rewrite Hc, Hp.
Qed.

Lemma split_whitespace_space_free s : Forall space_free (split_whitespace s).
Proof.
  induction s as [|c s IH]; [by repeat constructor|].
  destruct (isSpace c) eqn:Ec.
  - rewrite split_whitespace_space by done.
    destruct (starts_with isSpace s); [done|]. by constructor.
  - destruct (split_whitespace_char c s Ec) as (piece & pieces & E & ->).
    rewrite E in IH. inversion_clear IH as [|? ? Hp Hps].
    constructor; [|done]. unfold space_free in *. simpl. by rewrite Ec, Hp.
Qed.

Lemma split_whitespace_head s :
  starts_with isSpace s = false → s ≠ EmptyString →
  ∃ c piece pieces, split_whitespace s = String c piece :: pieces.
Proof.
  destruct s as [|c s]; [done|]. intros Ec _. change (isSpace c = false) in Ec.
  destruct (split_whitespace_char c s Ec) as (piece & pieces & _ & ->). eauto.
Qed.

Lemma split_whitespace_interior s i :
  split_whitespace s !! S i = Some EmptyString →
  S (S i) = length (split_whitespace s).
Proof.
  revert i. induction s as [|c s IH]; intros i; [done|].
  destruct (isSpace c) eqn:Ec.
  - rewrite split_whitespace_space by done.
    destruct (starts_with isSpace s) eqn:Es; [apply IH|].
    simpl. destruct s as [|c' s'].
    + by destruct i as [|[|i]].
    + destruct (split_whitespace_head (String c' s') Es) as (d & piece & pieces & E);
        [done|].
      destruct i as [|i]; [by rewrite E|].
      intros Hi. f_equal. by apply IH.
  - destruct (split_whitespace_char c s Ec) as (piece & pieces & E & ->).
    intros Hi. simpl in Hi. simpl. specialize (IH i). rewrite E in IH.
    by apply IH.
Qed.

Lemma split_whitespace_tokens s : phrase_tokens (split_whitespace s).
Proof.
  split; [apply split_whitespace_nonempty|].
  split; [apply split_whitespace_space_free|]. apply split_whitespace_interior.
Qed.

(** A token without white space is one piece. *)
Lemma split_whitespace_id t : space_free t → split_whitespace t = [t].
Proof.
  unfold space_free. induction t as [|c t IH]; [done|]. simpl.
  intros [Hc Ht]%andb_true_iff. apply negb_true_iff in Hc.
  rewrite Hc, (IH Ht). done.
Qed.

Lemma split_whitespace_sep t s :
  space_free t → starts_with isSpace s = false →
  split_whitespace (t +:+ String " " s) = t :: split_whitespace s.
Proof.
  unfold space_free. intros Ht Hs. induction t as [|c t IH].
  - rewrite append_nil_l. rewrite split_whitespace_space by done. by rewrite Hs.
  - simpl in Ht. apply andb_true_iff in Ht as [Hc Ht]. apply negb_true_iff in Hc.
    rewrite append_cons.
    destruct (split_whitespace_char c (t +:+ String " " s) Hc)
      as (piece & pieces & E & ->).
    rewrite (IH Ht) in E. by injection E as <- <-.
Qed.

Lemma concat_cons sep t u l :
  String.concat sep (t :: u :: l) = t +:+ (sep +:+ String.concat sep (u :: l)).
Proof. reflexivity. Qed.

Lemma starts_with_concat (ws : list string) :
  Forall space_free ws →
  (∀ i, ws !! i = Some EmptyString → S i = length ws) →
  starts_with isSpace (String.concat " " ws) = false.
Proof.
  intros Hfree Hint. destruct ws as [|t [|u l]]; [done| |].
  - apply Forall_inv in Hfree. destruct t as [|c t]; [done|].
    unfold space_free in Hfree. simpl in *.
    apply andb_true_iff in Hfree as [Hc _]. by apply negb_true_iff in Hc.
  - rewrite concat_cons. apply Forall_inv in Hfree.
    destruct t as [|c t]; [by specialize (Hint 0%nat eq_refl)|].
    unfold space_free in Hfree. rewrite append_cons. simpl in *.
    apply andb_true_iff in Hfree as [Hc _]. by apply negb_true_iff in Hc.
Qed.

Lemma split_whitespace_concat (ws : list string) :
  phrase_tokens ws → split_whitespace (String.concat " " ws) = ws.
Proof.
  intros (Hne & Hfree & Hint).
  induction ws as [|t [|u l] IH]; [done| |].
  - apply split_whitespace_id. by apply Forall_inv in Hfree.
  - rewrite concat_cons.
    change (" " +:+ ?x) with (String " " x).
    inversion_clear Hfree as [|? ? Ht Hl].
    rewrite split_whitespace_sep; [f_equal; apply IH; [done..|]| done |].
    + intros i Hi. specialize (Hint (S i) Hi). simpl in *. lia.
    + apply starts_with_concat; [done|].
      intros i Hi. specialize (Hint i Hi). simpl in *. lia.
Qed.

End Split.

(** *** [toLowerCase] *)

Lemma lowerChar_not_upper c : isUpper (lowerChar c) = false.
Proof. by destruct c as [[] [] [] [] [] [] [] []]. Qed.

Lemma lowerChar_word c :
  isWordChar (lowerChar c) = true → isLowerWordChar (lowerChar c) = true.
Proof. by destruct c as [[] [] [] [] [] [] [] []]. Qed.

Lemma lowerChar_idem c : lowerChar (lowerChar c) = lowerChar c.
Proof. by destruct c as [[] [] [] [] [] [] [] []]. Qed.

Lemma lowerChar_space c : isSpace (lowerChar c) = isSpace c.
Proof. by destruct c as [[] [] [] [] [] [] [] []]. Qed.

Lemma toLowerCase_append s t : toLowerCase (s +:+ t) = toLowerCase s +:+ toLowerCase t.
Proof. apply string_map_append. Qed.

Lemma toLowerCase_idem s : toLowerCase (toLowerCase s) = toLowerCase s.
Proof.
  unfold toLowerCase. induction s as [|c s IH]; [done|]. simpl.
  by rewrite lowerChar_idem, IH.
Qed.

Lemma starts_with_toLowerCase s :
  starts_with isSpace (toLowerCase s) = starts_with isSpace s.
Proof. destruct s as [|c s]; [done|]. apply lowerChar_space. Qed.

Lemma split_whitespace_leading s :
  starts_with isSpace s = true → head (split_whitespace s) = Some EmptyString.
Proof.
  induction s as [|c s IH]; [done|]. intros Hc. change (isSpace c = true) in Hc.
  rewrite split_whitespace_space by done.
  destruct (starts_with isSpace s); [by apply IH|done].
Qed.

Lemma split_whitespace_trailing p c :
  isSpace c = true →
  ∃ l, l ≠ [] ∧ split_whitespace (p +:+ String c EmptyString) = (l ++ [EmptyString])%list.
Proof.
  intros Hc. induction p as [|d p (l & Hl & IH)].
  - exists [EmptyString]. split; [done|]. rewrite append_nil_l. simpl. by rewrite Hc.
  - rewrite append_cons. destruct (isSpace d) eqn:Hd.
    + rewrite split_whitespace_space by done. rewrite IH.
      destruct (starts_with isSpace _); [by exists l|].
      exists (EmptyString :: l). by split.
    + destruct (split_whitespace_char d (p +:+ String c EmptyString) Hd)
        as (piece & pieces & E & ->).
      rewrite IH in E. destruct l as [|x l]; [done|]. injection E as <- <-.
      exists (String d x :: l). by split.
Qed.

(** X9 (line 276): the tokens [processInput] makes of a phrase. There is
    at least one, even for the empty phrase; no token holds white space or a
    capital letter A-Z; and only the first and the last token can be empty
    (they are when the phrase starts or ends with white space). *)
Theorem phrase_is_split_into_tokens (phrase : string) :
  let tokens := split_whitespace (toLowerCase phrase) in
  phrase_tokens tokens ∧
  Forall (λ t, all_chars (λ c, negb (isUpper c)) t = true) tokens ∧
  (starts_with isSpace phrase = true → head tokens = Some EmptyString) ∧
  (∀ p c, phrase = p +:+ String c EmptyString → isSpace c = true →
          last tokens = Some EmptyString).
Proof.
  intros tokens. split; [apply split_whitespace_tokens|]. split; [|split].
  - apply split_whitespace_chars. unfold toLowerCase. rewrite all_chars_map.
    apply all_chars_true. intros c. by rewrite lowerChar_not_upper.
  - intros Hp. apply split_whitespace_leading. by rewrite starts_with_toLowerCase.
  - intros p c -> Hc. unfold tokens. rewrite toLowerCase_append.
    destruct (split_whitespace_trailing (toLowerCase p) (lowerChar c)) as (l & _ & E).
    { by rewrite lowerChar_space. }
    change (toLowerCase (String c EmptyString)) with (String (lowerChar c) EmptyString).
    rewrite E. apply last_snoc.
Qed.


(** X10 (lines 276, 291): joining with single spaces and splitting again
    are inverse on the lists of tokens [split] can return: at least one
    token, no white space in a token, no empty token strictly inside. *)
Theorem joined_tokens_split_back (ws : list string) :
  phrase_tokens ws → split_whitespace (String.concat " " ws) = ws.
Proof. apply split_whitespace_concat. Qed.

Lemma toLowerCase_fixed s :
  all_chars (λ c, negb (isUpper c) && Ascii.eqb (lowerChar c) c) s = true →
  toLowerCase s = s.
Proof.
  unfold toLowerCase. induction s as [|c s IH]; [done|]. simpl.
  intros [[_ Hc%Ascii.eqb_eq]%andb_true_iff Hs]%andb_true_iff.
  by rewrite Hc, (IH Hs).
Qed.

Lemma all_chars_concat q (ws : list string) :
  q " "%char = true → Forall (λ t, all_chars q t = true) ws →
  all_chars q (String.concat " " ws) = true.
Proof.
  intros Hq. induction ws as [|t [|u l] IH]; [done| |].
  - by intros ?%Forall_inv.
  - intros Hall. inversion_clear Hall as [|? ? Ht Hl].
    rewrite concat_cons, !all_chars_append, Ht, (IH Hl). simpl. by rewrite Hq.
Qed.

Section Phrases.
Variable Math_random : nat → Q.

(** X11 (lines 275-292): [processInput] reads a phrase up to the case of its
    letters and the length of its runs of white space: the phrase and its
    normal form, the lower-case tokens joined by single spaces, give the
    same state and the same output. *)
Theorem phrase_is_read_up_to_case_and_spacing (eager : bool) (phrase : string)
    (st : State) :
  processInput_phrase Math_random eager
    (String.concat " " (split_whitespace (toLowerCase phrase))) st
  = processInput_phrase Math_random eager phrase st.
Proof.
  unfold processInput_phrase.
  rewrite toLowerCase_fixed.
  - by rewrite (split_whitespace_concat _ (split_whitespace_tokens _)).
  - apply all_chars_concat; [done|]. apply split_whitespace_chars.
    unfold toLowerCase. rewrite all_chars_map. apply all_chars_true.
    intros c. by destruct c as [[] [] [] [] [] [] [] []].
Qed.

End Phrases.

(** *** [match_words] *)

Section Match.
Implicit Types (s t : string) (c : ascii).

Lemma match_words_skip c s :
  isWordChar c = false → match_words (String c s) = match_words s.
Proof. intros Hc. simpl. by rewrite Hc. Qed.

Lemma match_words_end c s :
  isWordChar c = true → starts_with isWordChar s = false →
  match_words (String c s) = String c EmptyString :: match_words s.
Proof.
  intros Hc Hs. simpl. rewrite Hc. destruct s as [|c' s']; [done|].
  simpl in Hs. by rewrite Hs.
Qed.

Lemma match_words_starts s :
  starts_with isWordChar s = true → match_words s ≠ [].
Proof.
  destruct s as [|c s]; [done|]. intros Hc. simpl in *. rewrite Hc.
  destruct s as [|c' s']; [done|]. destruct (isWordChar c'); [|done].
  by destruct (match_words (String c' s')).
Qed.

Lemma match_words_glue c s :
  isWordChar c = true → starts_with isWordChar s = true →
  ∃ w ws, match_words s = w :: ws ∧ match_words (String c s) = String c w :: ws.
Proof.
  intros Hc Hs. pose proof (match_words_starts s Hs) as Hne.
  destruct s as [|c' s']; [done|]. change (isWordChar c' = true) in Hs.
  change (match_words (String c (String c' s'))) with
    (if isWordChar c then
       if isWordChar c' then
         match match_words (String c' s') with
         | w :: ws => String c w :: ws
         | [] => [String c EmptyString]
         end
       else String c EmptyString :: match_words (String c' s')
     else match_words (String c' s')).
  rewrite Hc, Hs. destruct (match_words (String c' s')) as [|w ws]; [done|]. eauto.
Qed.

(** Every word is a non-empty run of word characters of the text. *)
Lemma match_words_chars (q : ascii → bool) s :
  all_chars (λ c, implb (isWordChar c) (q c)) s = true →
  Forall (λ w, w ≠ EmptyString ∧ all_chars q w = true) (match_words s).
Proof.
  induction s as [|c s IH]; [by constructor|].
  intros [Hc Hs]%andb_true_iff. specialize (IH Hs).
  destruct (isWordChar c) eqn:Ec; [|by rewrite match_words_skip].
  simpl in Hc. destruct (starts_with isWordChar s) eqn:Es.
  - destruct (match_words_glue c s Ec Es) as (w & ws & E & ->).
    rewrite E in IH. inversion_clear IH as [|? ? [_ Hw] Hws].
    constructor; [|done]. split; [done|]. simpl. by rewrite Hc, Hw.
  - rewrite match_words_end by done. constructor; [|done].
    split; [done|]. simpl. by rewrite Hc.
Qed.

(** A character that is no word character separates the words on its two
    sides. *)
Lemma match_words_append s t :
  starts_with isWordChar t = false →
  match_words (s +:+ t) = (match_words s ++ match_words t)%list.
Proof.
  intros Ht. induction s as [|c s IH]; [done|]. rewrite append_cons.
  destruct (isWordChar c) eqn:Ec; [|by rewrite !match_words_skip].
  destruct (starts_with isWordChar s) eqn:Es.
  - assert (starts_with isWordChar (s +:+ t) = true) as Est by (by destruct s).
    destruct (match_words_glue c s Ec Es) as (w & ws & E & ->).
    destruct (match_words_glue c _ Ec Est) as (w' & ws' & E' & ->).
    rewrite IH, E in E'. by injection E' as <- <-.
  - assert (starts_with isWordChar (s +:+ t) = false) as Est.
    { destruct s; [by rewrite append_nil_l|done]. }
    rewrite !match_words_end by done. by rewrite IH.
Qed.

(** Replacing characters that are no word characters by others that are
    none either changes no word. *)
Lemma match_words_map (f : ascii → ascii) s :
  (∀ c, isWordChar (f c) = isWordChar c) →
  (∀ c, isWordChar c = true → f c = c) →
  match_words (string_map f s) = match_words s.
Proof.
  intros Hf Hid.
  assert (∀ t, starts_with isWordChar (string_map f t) = starts_with isWordChar t)
    as Hstart by (by intros [|c t]; [|apply Hf]).
  induction s as [|c s IH]; [done|]. simpl string_map.
  destruct (isWordChar c) eqn:Ec.
  - rewrite (Hid c Ec). destruct (starts_with isWordChar s) eqn:Es.
    + destruct (match_words_glue c s Ec Es) as (w & ws & E & ->).
      destruct (match_words_glue c (string_map f s) Ec) as (w' & ws' & E' & ->);
        [by rewrite Hstart|].
      rewrite IH, E in E'. by injection E' as <- <-.
    + rewrite !match_words_end; [by rewrite IH|done..|by rewrite Hstart].
  - rewrite !match_words_skip; [done..|by rewrite Hf].
Qed.

End Match.

(** *** The words of a file *)

Lemma words_of_text_append_space s t :
  words_of_text (s +:+ String " " t) = (words_of_text s ++ words_of_text t)%list.
Proof.
  unfold words_of_text. rewrite toLowerCase_append.
  change (toLowerCase (String " " t)) with (String " " (toLowerCase t)).
  rewrite match_words_append by done. by rewrite match_words_skip.
Qed.

Lemma words_of_text_space_r s : words_of_text (s +:+ " ") = words_of_text s.
Proof.
  rewrite words_of_text_append_space. apply app_nil_r.
Qed.

Lemma words_of_text_concat (items : list string) :
  words_of_text (String.concat " " items) = items ≫= words_of_text.
Proof.
  induction items as [|t [|u l] IH]; [done| |].
  - simpl. by rewrite app_nil_r.
  - rewrite concat_cons. change (" " +:+ ?x) with (String " " x).
    rewrite words_of_text_append_space, IH. done.
Qed.

(** X12 (line 326): every word taken from a file is a non-empty string over
    [a-z0-9_], whatever the text. *)
Theorem file_words_are_lower_case_runs (text : string) :
  Forall lower_word (words_of_text text).
Proof.
  apply match_words_chars. unfold toLowerCase. rewrite all_chars_map.
  apply all_chars_true. intros c.
  destruct (isWordChar (lowerChar c)) eqn:E; [|done].
  by rewrite (lowerChar_word c E).
Qed.

(** X13 (lines 294-305, 326): the words of a PDF are the words of its text
    items, page after page and item after item; no word runs over two
    items. *)
Theorem pdf_words_are_the_words_of_the_items (pages : list (list string)) :
  words_of_text (processPDF pages) = pages ≫= (λ items, items ≫= words_of_text).
Proof.
  unfold processPDF.
  assert (∀ text, text = EmptyString ∨ (∃ t, text = t +:+ " ") →
    words_of_text
      (foldl (λ text items, text +:+ (String.concat " " items +:+ " ")) text pages)
    = (words_of_text text ++ (pages ≫= (λ items, items ≫= words_of_text)))%list)
    as Hloop.
  { induction pages as [|items pages IH]; intros text Htext.
    - simpl. by rewrite app_nil_r.
    - simpl foldl. rewrite IH.
      + rewrite <- append_assoc, words_of_text_space_r.
        rewrite bind_cons, app_assoc. f_equal.
        destruct Htext as [->|[t ->]].
        * by rewrite append_nil_l, words_of_text_concat.
        * rewrite append_assoc. change (" " +:+ ?x) with (String " " x).
          by rewrite words_of_text_append_space, words_of_text_space_r,
            words_of_text_concat.
      + right. eexists. by rewrite <- append_assoc. }
  by rewrite Hloop by (by left).
Qed.

(** ** The dispatch on the file name *)

Lemma append_suffixes p q t u :
  p +:+ t = q +:+ u → (String.length t ≤ String.length u)%nat → ∃ r, u = r +:+ t.
Proof.
  revert q. induction p as [|c p IH]; intros [|d q] E Hlen.
  - exists EmptyString. by rewrite !append_nil_l in *.
  - rewrite append_nil_l in E. subst t.
    rewrite append_cons in Hlen. simpl in Hlen. rewrite length_append in Hlen. lia.
  - rewrite append_nil_l in E. subst u. by exists (String c p).
  - rewrite !append_cons in E. injection E as _ E. by apply (IH q).
Qed.

(** Two suffixes of one name: the shorter is a suffix of the longer. *)
Lemma endsWith_suffixes s t u :
  endsWith s t = true → endsWith s u = true →
  (String.length t ≤ String.length u)%nat → endsWith u t = true.
Proof.
  intros [p ->]%endsWith_true [q E]%endsWith_true Hlen.
  apply endsWith_true. by apply (append_suffixes p q).
Qed.

Lemma endsWith_exclusive s t u :
  endsWith s t = true →
  (if (String.length t <=? String.length u)%nat then endsWith u t else endsWith t u) = false →
  endsWith s u = false.
Proof.
  intros Ht Hex. destruct (endsWith s u) eqn:Hu; [|done].
  destruct (String.length t <=? String.length u)%nat eqn:Hlen.
  - apply Nat.leb_le in Hlen. by rewrite (endsWith_suffixes s t u) in Hex.
  - apply Nat.leb_gt in Hlen. rewrite (endsWith_suffixes s u t) in Hex; [done..|lia].
Qed.

Lemma replace_commas_lower s :
  toLowerCase (replace_commas s) = replace_commas (toLowerCase s).
Proof.
  unfold toLowerCase, replace_commas. induction s as [|c s IH]; [done|]. simpl.
  rewrite IH. f_equal. by destruct c as [[] [] [] [] [] [] [] []].
Qed.

Lemma words_of_text_commas s : words_of_text (replace_commas s) = words_of_text s.
Proof.
  unfold words_of_text. rewrite replace_commas_lower. apply match_words_map.
  - intros c. by destruct c as [[] [] [] [] [] [] [] []].
  - intros c. by destruct c as [[] [] [] [] [] [] [] []].
Qed.

Lemma extract_text_txt file :
  endsWith (file_name file) ".txt" = true → extract_text file = Some (file_text file).
Proof. intros H. unfold extract_text. by rewrite H. Qed.

Lemma extract_text_csv file :
  endsWith (file_name file) ".csv" = true →
  extract_text file = Some (replace_commas (file_text file)).
Proof.
  intros H. unfold extract_text.
  rewrite (endsWith_exclusive _ _ ".txt" H), (endsWith_exclusive _ _ ".pdf" H),
    (endsWith_exclusive _ _ ".doc" H), (endsWith_exclusive _ _ ".docx" H), H by done.
  done.
Qed.

Lemma extract_text_doc file :
  endsWith (file_name file) ".doc" || endsWith (file_name file) ".docx" = true →
  extract_text file = Some "DOC/DOCX processing not implemented in this example"%string.
Proof.
  intros H. unfold extract_text. rewrite H.
  apply orb_true_iff in H as [H|H];
    by rewrite (endsWith_exclusive _ _ ".txt" H), (endsWith_exclusive _ _ ".pdf" H).
Qed.

Section Files.
Variable Math_random : nat → Q.

(** X14 (lines 311-324, 326): a CSV file is ingested as the text file of the
    same content: the commas that are replaced by spaces separate words
    either way. *)
Theorem csv_is_read_as_text (file file' : File) (st : State) :
  endsWith (file_name file) ".csv" = true →
  endsWith (file_name file') ".txt" = true →
  file_text file' = file_text file →
  processFile Math_random file st = processFile Math_random file' st.
Proof.
  intros Hcsv Htxt Htext. unfold processFile.
  rewrite (extract_text_csv _ Hcsv), (extract_text_txt _ Htxt), Htext.
  by rewrite words_of_text_commas.
Qed.

(** X15 (lines 315-318, 326-335): whatever a file named [.doc] or [.docx]
    holds, the eight words of the placeholder sentence are what the registry
    ingests, in one batch, and no error is reported. *)
Theorem doc_file_ingests_the_placeholder (file : File) (st : State) :
  endsWith (file_name file) ".doc" || endsWith (file_name file) ".docx" = true →
  out_state (processFile Math_random file st)
  = addWords Math_random
      ["doc"; "docx"; "processing"; "not"; "implemented"; "in"; "this"; "example"]%string
      st
  ∧ out_error (processFile Math_random file st) = None.
Proof.
  intros Hdoc. unfold processFile. rewrite (extract_text_doc _ Hdoc).
  split; reflexivity.
Qed.

(** *** The loop over the batches *)

Lemma batch_loop_progress fuel l i st progress :
  batch_loop Math_random fuel l i st progress
  = ((batch_loop Math_random fuel l i st []).1,
     (progress ++ (batch_loop Math_random fuel l i st []).2)%list).
Proof.
  revert i st progress. induction fuel as [|fuel IH]; intros i st progress; simpl.
  - by rewrite app_nil_r.
  - destruct (i <? Z.of_nat (length l)); [|by rewrite app_nil_r].
    rewrite IH. rewrite (IH _ _ [_]). simpl. by rewrite <- app_assoc.
Qed.

Lemma batch_loop_step fuel l i st :
  i < Z.of_nat (length l) →
  batch_loop Math_random (S fuel) l i st []
  = ((batch_loop Math_random fuel l (i + 1000)
        (addWords Math_random (take 1000 (drop (Z.to_nat i) l)) st) []).1,
     batch_progress i (take 1000 (drop (Z.to_nat i) l)) (Z.of_nat (length l))
     :: (batch_loop Math_random fuel l (i + 1000)
           (addWords Math_random (take 1000 (drop (Z.to_nat i) l)) st) []).2).
Proof.
  intros Hi. simpl. apply Z.ltb_lt in Hi. rewrite Hi.
  by rewrite batch_loop_progress.
Qed.

Lemma batch_loop_done fuel l i st :
  Z.of_nat (length l) ≤ i → batch_loop Math_random fuel l i st [] = (st, []).
Proof.
  intros Hi. destruct fuel as [|fuel]; [done|]. simpl.
  apply Z.ltb_ge in Hi. by rewrite Hi.
Qed.

Lemma length_batch (l : list string) i :
  0 ≤ i →
  Z.of_nat (length (take 1000 (drop (Z.to_nat i) l)))
  = Z.min 1000 (Z.max 0 (Z.of_nat (length l) - i)).
Proof. intros Hi. rewrite length_take, length_drop. lia. Qed.

Lemma batch_loop_reachable fuel l i st :
  reachable Math_random st →
  reachable Math_random (batch_loop Math_random fuel l i st []).1.
Proof.
  revert i st. induction fuel as [|fuel IH]; intros i st Hst; [done|].
  destruct (decide (i < Z.of_nat (length l))) as [Hi|Hi].
  - rewrite batch_loop_step by done. apply IH. by constructor.
  - rewrite batch_loop_done by lia. done.
Qed.

Lemma batch_count_step r :
  0 < r →
  r - batch_count r
  = (Z.min 1000 r - 1) + (Z.max 0 (r - 1000) - batch_count (Z.max 0 (r - 1000))).
Proof. unfold batch_count. intros Hr. Z.div_mod_to_equations. lia. Qed.

Lemma batch_loop_mass fuel l i st :
  state_inv st → 0 ≤ i → Z.max 0 (Z.of_nat (length l) - i) ≤ 1000 * Z.of_nat fuel →
  let pairs := Z.max 0 (Z.of_nat (length l) - i)
               - batch_count (Z.max 0 (Z.of_nat (length l) - i)) in
  let st' := (batch_loop Math_random fuel l i st []).1 in
  total_frequency st ≤ total_frequency st' ≤ total_frequency st + pairs
  ∧ Z.of_nat (length (words st')) ≤ Z.of_nat (length (words st)) + pairs
  ∧ (Z.of_nat (length (words st)) + pairs ≤ MAX_WORDS →
     total_frequency st' = total_frequency st + pairs).
Proof.
  revert i st. induction fuel as [|fuel IH]; intros i st Hst Hi Hfuel.
  - replace (Z.max 0 (Z.of_nat (length l) - i)) with 0 by lia.
    rewrite batch_loop_done by lia. change (batch_count 0) with 0. cbn [fst]. lia.
  - destruct (decide (i < Z.of_nat (length l))) as [Hlt|Hge].
    + rewrite batch_loop_step by done. cbv zeta. cbn [fst].
      set (batch := take 1000 (drop (Z.to_nat i) l)).
      pose proof (length_batch l i Hi) as Hb. fold batch in Hb.
      destruct (addWords_mass Math_random batch st Hst) as (Hle & Hlen & Heq).
      specialize (IH (i + 1000) _ (addWords_inv Math_random batch st Hst)).
      cbv zeta in IH. destruct IH as (Hle' & Hlen' & Heq'); [lia|lia|].
      rewrite (batch_count_step (Z.max 0 (Z.of_nat (length l) - i))) by lia.
      replace (Z.max 0 (Z.of_nat (length l) - (i + 1000)))
        with (Z.max 0 (Z.max 0 (Z.of_nat (length l) - i) - 1000)) in * by lia.
      set (rest := Z.max 0 (Z.max 0 (Z.of_nat (length l) - i) - 1000)
                   - batch_count (Z.max 0 (Z.max 0 (Z.of_nat (length l) - i) - 1000)))
        in *.
      assert (0 ≤ rest) as Hrest.
      { unfold rest, batch_count. Z.div_mod_to_equations. lia. }
      split; [lia|]. split; [lia|]. intros Hroom.
      rewrite Heq', Heq by lia. lia.
    + replace (Z.max 0 (Z.of_nat (length l) - i)) with 0 by lia.
      rewrite batch_loop_done by lia. change (batch_count 0) with 0. cbn [fst]. lia.
Qed.

(** X16 (lines 326-335): what a file adds to the registry. The words go to
    [addWords] in slices of 1000, so the pair made of the last word of a
    slice and the first word of the next is never recorded: a text of [n]
    words raises the sum of all frequencies by at most [n] minus the number
    of slices, and by exactly that much when the registry has room. A text
    of at most 1000 words is one call of [addWords]; a text without words
    is no call at all. *)
Theorem file_counts_pairs_within_batches (file : File) (text : string) (st : State) :
  reachable Math_random st →
  extract_text file = Some text →
  let n := Z.of_nat (length (words_of_text text)) in
  let st' := out_state (processFile Math_random file st) in
  reachable Math_random st'
  ∧ total_frequency st ≤ total_frequency st' ≤ total_frequency st + (n - batch_count n)
  ∧ (Z.of_nat (length (words st)) + (n - batch_count n) ≤ MAX_WORDS →
     total_frequency st' = total_frequency st + (n - batch_count n))
  ∧ (0 < n ≤ 1000 → st' = addWords Math_random (words_of_text text) st)
  ∧ (n = 0 → st' = st).
Proof.
  intros Hst Htext n st'. unfold st', processFile. rewrite Htext. cbn [out_state].
  set (l := words_of_text text) in *.
  split; [by apply batch_loop_reachable|].
  destruct (batch_loop_mass (length l) l 0 st (reachable_inv _ _ Hst)) as (Hle & _ & Heq);
    [lia|lia|].
  cbv zeta in Hle, Heq. rewrite Z.sub_0_r, Z.max_r in Hle, Heq by lia.
  split; [exact Hle|]. split; [exact Heq|]. split.
  - intros Hn. destruct (length l) as [|k] eqn:Hk; [lia|].
    rewrite batch_loop_step by lia. cbn [fst].
    rewrite batch_loop_done by lia. cbn [fst].
    change (Z.to_nat 0) with 0%nat. rewrite drop_0, take_ge; [done|lia].
  - intros Hn. by rewrite batch_loop_done by lia.
Qed.

(** *** The values handed to [setProgress] *)

Lemma inject_Z_pos n : 0 < n → (0 < inject_Z n)%Q.
Proof. intros Hn. change 0%Q with (inject_Z 0). by rewrite <- Zlt_Qlt. Qed.

Lemma batch_progress_lt i j (b b' : list string) n :
  0 < n → i + Z.of_nat (length b) < j + Z.of_nat (length b') →
  (batch_progress i b n < batch_progress j b' n)%Q.
Proof.
  intros Hn Hlt. unfold batch_progress, Qdiv.
  apply Qmult_lt_compat_r; [done|]. apply Qmult_lt_compat_r.
  - apply Qinv_lt_0_compat. by apply inject_Z_pos.
  - by rewrite <- Zlt_Qlt.
Qed.

Lemma batch_progress_full i (b : list string) n :
  0 < n → i + Z.of_nat (length b) = n → (batch_progress i b n == 100)%Q.
Proof.
  intros Hn E. unfold batch_progress. rewrite E. field.
  intros H. apply (Qlt_irrefl 0). rewrite <- H at 2. by apply inject_Z_pos.
Qed.

Lemma batch_progress_le i (b : list string) n :
  0 < n → i + Z.of_nat (length b) ≤ n → (batch_progress i b n <= 100)%Q.
Proof.
  intros Hn Hle. apply Qle_trans with (batch_progress n [] n).
  - unfold batch_progress, Qdiv. apply Qmult_le_compat_r; [|done].
    apply Qmult_le_compat_r.
    + rewrite <- Zle_Qle. simpl. lia.
    + by apply Qlt_le_weak, Qinv_lt_0_compat, inject_Z_pos.
  - apply Qle_lteq. right. apply batch_progress_full; simpl; lia.
Qed.

Lemma batch_loop_values fuel l i st :
  0 ≤ i → Z.max 0 (Z.of_nat (length l) - i) ≤ 1000 * Z.of_nat fuel →
  let values := (batch_loop Math_random fuel l i st []).2 in
  Z.of_nat (length values) = batch_count (Z.max 0 (Z.of_nat (length l) - i))
  ∧ Forall (λ v, (batch_progress i [] (Z.of_nat (length l)) < v)%Q ∧ (v <= 100)%Q) values
  ∧ StronglySorted Qlt values
  ∧ (i < Z.of_nat (length l) → ∃ v, last values = Some v ∧ (v == 100)%Q).
Proof.
  revert i st. induction fuel as [|fuel IH]; intros i st Hi Hfuel.
  - replace (Z.max 0 (Z.of_nat (length l) - i)) with 0 by lia.
    rewrite batch_loop_done by lia. cbv zeta. cbn [snd].
    split; [done|]. split; [constructor|]. split; [constructor|]. lia.
  - destruct (decide (i < Z.of_nat (length l))) as [Hlt|Hge].
    + rewrite batch_loop_step by done. cbv zeta. cbn [snd].
      set (batch := take 1000 (drop (Z.to_nat i) l)).
      pose proof (length_batch l i Hi) as Hb. fold batch in Hb.
      specialize (IH (i + 1000) (addWords Math_random batch st)).
      cbv zeta in IH. destruct IH as (Hlen & Hall & Hsorted & Hlast); [lia|lia|].
      set (values := (batch_loop Math_random fuel l (i + 1000) _ []).2) in *.
      assert (0 < Z.of_nat (length l)) as Hn by lia.
      split; [|split; [|split]].
      * rewrite length_cons, Nat2Z.inj_succ, Hlen. unfold batch_count.
        Z.div_mod_to_equations. lia.
      * constructor.
        -- split; [apply batch_progress_lt; simpl; lia|apply batch_progress_le; lia].
        -- eapply Forall_impl; [exact Hall|]. intros v [Hv ?]. split; [|done].
           eapply Qlt_trans; [|exact Hv]. apply batch_progress_lt; simpl; lia.
      * constructor; [done|].
        eapply Forall_impl; [exact Hall|]. intros v [Hv ?].
        eapply Qle_lt_trans; [|exact Hv].
        destruct (decide (i + Z.of_nat (length batch) = i + 1000)) as [E|E].
        -- unfold batch_progress. rewrite E. simpl length. rewrite Z.add_0_r.
           apply Qle_refl.
        -- apply Qlt_le_weak, batch_progress_lt; simpl; lia.
      * intros _. destruct (decide (i + 1000 < Z.of_nat (length l))) as [Hmore|Hend].
        -- destruct (Hlast Hmore) as (v & Hv & E). exists v. split; [|done].
           destruct values; [done|]. done.
        -- assert (values = []) as ->.
           { unfold values. by rewrite batch_loop_done by lia. }
           eexists. split; [done|]. apply batch_progress_full; lia.
    + replace (Z.max 0 (Z.of_nat (length l) - i)) with 0 by lia.
      rewrite batch_loop_done by lia. cbv zeta. cbn [snd].
      split; [done|]. split; [constructor|]. split; [constructor|]. lia.
Qed.

(** X17 (lines 330-335): the progress a file reports while its words are
    ingested, one value for each slice of 1000 words. The values rise
    strictly, stay above 0 and at most 100, and the last one is 100; a file
    without words reports none, so its progress stays at the 0 it was set to
    at the start. *)
Theorem file_progress_rises_to_100 (file : File) (text : string) (st : State) :
  extract_text file = Some text →
  let n := Z.of_nat (length (words_of_text text)) in
  let values := out_progress (processFile Math_random file st) in
  Z.of_nat (length values) = batch_count n
  ∧ StronglySorted Qlt values
  ∧ Forall (λ v, (0 < v)%Q ∧ (v <= 100)%Q) values
  ∧ (0 < n → ∃ v, last values = Some v ∧ (v == 100)%Q).
Proof.
  intros Htext n values. unfold values, processFile. rewrite Htext. cbn [out_progress].
  set (l := words_of_text text) in *.
  destruct (batch_loop_values (length l) l 0 st) as (Hlen & Hall & Hsorted & Hlast);
    [lia|lia|].
  cbv zeta in Hlen. rewrite Z.sub_0_r, Z.max_r in Hlen by lia.
  split; [exact Hlen|]. split; [exact Hsorted|]. split; [|exact Hlast].
  eapply Forall_impl; [exact Hall|]. intros v [Hv ?]. split; [|done].
  eapply Qle_lt_trans; [|exact Hv]. unfold batch_progress, Qdiv. simpl length.
  destruct (decide (0 < n)) as [Hn|Hn].
  - apply Qmult_le_0_compat; [|done]. apply Qmult_le_0_compat; [done|].
    apply Qlt_le_weak, Qinv_lt_0_compat. by apply inject_Z_pos.
  - replace (Z.of_nat (length l)) with 0 by lia. done.
Qed.

End Files.

(** * The further properties on concrete inputs *)

Local Open Scope string_scope.
Local Open Scope Z_scope.

Lemma addWords_without_pairs_at_single :
  let st := addWords half abab initial_state in
  heap (addWords half ["a"] st) = heap st
  ∧ words (addWords half ["a"] st) = words st
  ∧ draws (addWords half ["a"] st) = draws st.
Proof.
  apply (addWords_without_pairs half ["a"] (addWords half abab initial_state)).
  - apply reach_addWords, reach_initial.
  - simpl. lia.
Defined.

Lemma words_are_coloured_at_abab :
  Forall coloured (snapshot (addWords half abab initial_state)).
Proof.
  apply (words_are_coloured half (addWords half abab initial_state) half_unit).
  apply reach_addWords, reach_initial.
Defined.

Lemma successor_tables_are_counted_at_abab :
  Forall counted (snapshot (addWords half abab initial_state)).
Proof.
  apply (successor_tables_are_counted half (addWords half abab initial_state)).
  apply reach_addWords, reach_initial.
Defined.

Lemma vocabulary_after_addWords_at_light :
  let st := addWords half abab initial_state in
  Forall (λ x, x ∈ names st ∨ x ∈ currents light_based)
    (names (addWords half light_based st))
  ∧ Forall (λ x, x ∈ names (addWords half light_based st)) (names st)
  ∧ (Z.of_nat (length (words st)) + Z.of_nat (length light_based - 1) ≤ MAX_WORDS →
     Forall (λ c, c ∈ names (addWords half light_based st)) (currents light_based)).
Proof.
  apply (vocabulary_after_addWords half light_based (addWords half abab initial_state)).
  apply reach_addWords, reach_initial.
Defined.

Lemma addWords_counts_every_pair_once_at_light :
  let st := addWords half abab initial_state in
  total_frequency st ≤ total_frequency (addWords half light_based st)
    ≤ total_frequency st + Z.of_nat (length light_based - 1)
  ∧ (length (words (addWords half light_based st))
     ≤ length (words st) + (length light_based - 1))%nat
  ∧ (Z.of_nat (length (words st)) + Z.of_nat (length light_based - 1) ≤ MAX_WORDS →
     total_frequency (addWords half light_based st)
     = total_frequency st + Z.of_nat (length light_based - 1)).
Proof.
  apply (addWords_counts_every_pair_once half light_based
           (addWords half abab initial_state)).
  apply reach_addWords, reach_initial.
Defined.

Lemma walk_ends_only_at_unknown_word_at_light :
  let st := addWords half light_based initial_state in
  (length (processInput half false ["neural"] st).2 ≤ 10)%nat
  ∧ ((length (processInput half false ["neural"] st).2 < 10)%nat →
     Forall (λ c, c ∉ names st)
       (option_list (last_lookup (last (take 10 ["neural"]))
                       (processInput half false ["neural"] st).2))).
Proof.
  apply (walk_ends_only_at_unknown_word half false ["neural"]
           (addWords half light_based initial_state)).
  apply reach_addWords, reach_initial.
Defined.

Lemma mount_fills_texture_at_cell_5 :
  (∃ t, texture (mount_effect half ready initial_state).1 = Some t
        ∧ f32_length t = TEXTURE_SIZE * TEXTURE_SIZE * 4
        ∧ f32_at t (Z.of_nat 5 * 4) = binary32 (half (draws initial_state + 3 * 5)%nat)
        ∧ f32_at t (Z.of_nat 5 * 4 + 1)
          = binary32 (half (draws initial_state + 3 * 5 + 1)%nat)
        ∧ f32_at t (Z.of_nat 5 * 4 + 2)
          = binary32 (half (draws initial_state + 3 * 5 + 2)%nat)
        ∧ f32_at t (Z.of_nat 5 * 4 + 3) = 1%Q
        ∧ Forall (λ ch, (0 <= f32_at t (Z.of_nat 5 * 4 + ch))%Q
                        ∧ (f32_at t (Z.of_nat 5 * 4 + ch) <= 1)%Q) [0; 1; 2; 3])
  ∧ Z.of_nat (draws (mount_effect half ready initial_state).1)
    = Z.of_nat (draws initial_state) + 3 * (TEXTURE_SIZE * TEXTURE_SIZE)
  ∧ heap (mount_effect half ready initial_state).1 = heap initial_state
  ∧ words (mount_effect half ready initial_state).1 = words initial_state
  ∧ (mount_effect half ready initial_state).2 = None
  ∧ (no_context ≠ ready → (mount_effect half no_context initial_state).1 = initial_state)
  ∧ (mount_effect half no_canvas initial_state).2 = None
  ∧ (mount_effect half no_context initial_state).2
    = Some "WebGL is not supported in your browser."
  ∧ (mount_effect half no_shaders initial_state).2 = Some "Failed to compile shaders."
  ∧ (mount_effect half no_program initial_state).2
    = Some "Failed to create shader program.".
Proof.
  apply (mount_fills_texture half initial_state 5 no_context half_unit).
  unfold TEXTURE_SIZE. lia.
Defined.

Lemma encoded_channels_are_normalised_at_rank_0 :
  let st := mount half true initial_state in
  let st' := addWords half abab st in
  let t := forEach_word (heap st') (words st') (words st') 0
             (Float32Array_new (TEXTURE_SIZE * TEXTURE_SIZE * 4)) in
  (0 <= f32_at t (Z.of_nat 0 * 4))%Q
  ∧ (f32_at t (Z.of_nat 0 * 4) <= 1)%Q
  ∧ (0 <= f32_at t (Z.of_nat 0 * 4 + 1))%Q
  ∧ (f32_at t (Z.of_nat 0 * 4 + 1) <= 1)%Q
  ∧ (0.5 <= f32_at t (Z.of_nat 0 * 4 + 2))%Q
  ∧ (f32_at t (Z.of_nat 0 * 4 + 2) <= 1)%Q
  ∧ f32_at t (Z.of_nat 0 * 4 + 3) = 1%Q
  ∧ (Forall (λ w, frequency w ≤ 2 ^ 53) (snapshot st') →
     (0 < f32_at t (Z.of_nat 0 * 4))%Q).
Proof.
  apply (encoded_channels_are_normalised half abab (mount half true initial_state)
           _ 0%nat 0%nat half_unit).
  - apply reach_mount, reach_initial.
  - reflexivity.
  - reflexivity.
Defined.

Lemma joined_tokens_split_back_at_trailing_space :
  split_whitespace (String.concat " " ["light"; "based"; ""]) = ["light"; "based"; ""].
Proof.
  apply (joined_tokens_split_back ["light"; "based"; ""]).
  split; [discriminate|]. split.
  - repeat constructor.
  - intros [|[|[|i]]]; [discriminate|reflexivity|discriminate|discriminate].
Defined.

Lemma csv_is_read_as_text_at_xy :
  processFile half (mkFile "pairs.csv" "x,y,x" None) initial_state
  = processFile half (mkFile "pairs.txt" "x,y,x" None) initial_state.
Proof.
  apply (csv_is_read_as_text half (mkFile "pairs.csv" "x,y,x" None)
           (mkFile "pairs.txt" "x,y,x" None) initial_state); reflexivity.
Defined.

Lemma doc_file_ingests_the_placeholder_at_docx :
  out_state (processFile half (mkFile "thesis.docx" "light based" None) initial_state)
  = addWords half
      ["doc"; "docx"; "processing"; "not"; "implemented"; "in"; "this"; "example"]
      initial_state
  ∧ out_error (processFile half (mkFile "thesis.docx" "light based" None) initial_state)
    = None.
Proof.
  apply (doc_file_ingests_the_placeholder half
           (mkFile "thesis.docx" "light based" None) initial_state).
  reflexivity.
Defined.

Lemma file_counts_pairs_within_batches_at_txt :
  let file := mkFile "notes.txt" "Light-based, light; LIGHT" None in
  let n := Z.of_nat (length (words_of_text "Light-based, light; LIGHT")) in
  let st' := out_state (processFile half file initial_state) in
  reachable half st'
  ∧ total_frequency initial_state ≤ total_frequency st'
    ≤ total_frequency initial_state + (n - batch_count n)
  ∧ (Z.of_nat (length (words initial_state)) + (n - batch_count n) ≤ MAX_WORDS →
     total_frequency st' = total_frequency initial_state + (n - batch_count n))
  ∧ (0 < n ≤ 1000 → st' = addWords half (words_of_text "Light-based, light; LIGHT")
                              initial_state)
  ∧ (n = 0 → st' = initial_state).
Proof.
  apply (file_counts_pairs_within_batches half
           (mkFile "notes.txt" "Light-based, light; LIGHT" None)
           "Light-based, light; LIGHT" initial_state).
  - apply reach_initial.
  - reflexivity.
Defined.

Lemma file_progress_rises_to_100_at_txt :
  let file := mkFile "notes.txt" "Light-based, light; LIGHT" None in
  let n := Z.of_nat (length (words_of_text "Light-based, light; LIGHT")) in
  let values := out_progress (processFile half file initial_state) in
  Z.of_nat (length values) = batch_count n
  ∧ StronglySorted Qlt values
  ∧ Forall (λ v, (0 < v)%Q ∧ (v <= 100)%Q) values
  ∧ (0 < n → ∃ v, last values = Some v ∧ (v == 100)%Q).
Proof.
  apply (file_progress_rises_to_100 half
           (mkFile "notes.txt" "Light-based, light; LIGHT" None)
           "Light-based, light; LIGHT" initial_state).
  reflexivity.
Defined.
